(** * nxdumptool: gamecard session, hash file system lookups and the
      partition file system name accessor

    A shallow embedding of [source/gamecard.c] (both revisions shipped in
    the repository), of the declarations of [gamecard.h] and of the inline
    accessors of [pfs.h], followed by the properties of the specification
    that concern them.

    Conventions.
    - [u8]/[u32]/[u64] values are integers of [Z]; every arithmetic
      operation the C code performs on [u64] operands is written with its
      wrap-around ([u64]).
    - A C buffer is a total map from byte index to byte value ([Bytes]); a
      pointer into a buffer is an index, and a possibly-NULL pointer is an
      [option].
    - The module-level globals of [gamecard.c] are the fields of
      [GcState]; functions thread the state explicitly.
    - Horizon OS services, the C library allocator and the thread library
      are primitives: their answers come from a [Platform] record which
      sees the whole history of earlier calls ([trace]), so that one
      [Platform] value stands for one arbitrary behaviour of the console.
    - The mutex only serialises callers; in this sequential embedding
      locking and unlocking leave the state untouched. *)

From Stdlib Require Import Ascii String ZArith List Bool Lia.
Import ListNotations.
Open Scope Z_scope.

(** ** Machine integers *)

Definition u64 (x : Z) : Z := x mod 2 ^ 64.
Definition u32 (x : Z) : Z := x mod 2 ^ 32.

(** [ALIGN_DOWN] and [ALIGN_UP] come from [utils.h], which is not part of
    the sources at hand; they are the usual power-of-two masks.  The older
    revision of [gamecardReadStorageArea] writes the same two values as
    [x - (x % y)] and [ROUND_UP(x, y)]. *)
Definition ALIGN_DOWN (x y : Z) : Z := Z.land x (Z.lnot (y - 1)).
Definition ALIGN_UP (x y : Z) : Z := Z.land (u64 (x + (y - 1))) (Z.lnot (y - 1)).

(** ** Buffers *)

Definition Bytes := Z -> Z.

Definition zeroed : Bytes := fun _ => 0.

(** [memcpy (dst + d, src + s, n)]: the destination afterwards. *)
Definition memcpy (dst : Bytes) (d : Z) (src : Bytes) (s : Z) (n : Z) : Bytes :=
  fun i => if (d <=? i) && (i <? d + n) then src (s + (i - d)) else dst i.

Definition byte_at (b : Bytes) (i : Z) : Z := (b i) mod 256.

(** Little-endian loads, as the AArch64 target performs them. *)
Definition le32 (b : Bytes) (i : Z) : Z :=
  byte_at b i + byte_at b (i + 1) * 2 ^ 8 + byte_at b (i + 2) * 2 ^ 16
  + byte_at b (i + 3) * 2 ^ 24.

Definition le64 (b : Bytes) (i : Z) : Z := le32 b i + le32 b (i + 4) * 2 ^ 32.

Definition __builtin_bswap32 (x : Z) : Z :=
  (x mod 256) * 2 ^ 24 + ((x / 2 ^ 8) mod 256) * 2 ^ 16
  + ((x / 2 ^ 16) mod 256) * 2 ^ 8 + ((x / 2 ^ 24) mod 256).

(** ** Constants of gamecard.c and gamecard.h *)

Definition GAMECARD_HEAD_MAGIC : Z := 0x48454144.
Definition GAMECARD_HFS0_MAGIC : Z := 0x48465330.
Definition GAMECARD_MEDIA_UNIT_SIZE : Z := 0x200.
Definition GAMECARD_READ_BUFFER_SIZE : Z := 0x800000.
Definition GAMECARD_UPDATE_TID : Z := 0x0100000000000816.
Definition GAMECARD_ECC_BLOCK_SIZE : Z := 0x200.
Definition GAMECARD_ECC_DATA_SIZE : Z := 0x24.

Definition GAMECARD_CAPACITY_1GiB : Z := 0x40000000.
Definition GAMECARD_CAPACITY_2GiB : Z := 0x80000000.
Definition GAMECARD_CAPACITY_4GiB : Z := 0x100000000.
Definition GAMECARD_CAPACITY_8GiB : Z := 0x200000000.
Definition GAMECARD_CAPACITY_16GiB : Z := 0x400000000.
Definition GAMECARD_CAPACITY_32GiB : Z := 0x800000000.

Definition GameCardRomSize_1GiB : Z := 0xFA.
Definition GameCardRomSize_2GiB : Z := 0xF8.
Definition GameCardRomSize_4GiB : Z := 0xF0.
Definition GameCardRomSize_8GiB : Z := 0xE0.
Definition GameCardRomSize_16GiB : Z := 0xE1.
Definition GameCardRomSize_32GiB : Z := 0xE2.

Definition GameCardStorageArea_None : Z := 0.
Definition GameCardStorageArea_Normal : Z := 1.
Definition GameCardStorageArea_Secure : Z := 2.

(** [SHA256_HASH_SIZE] is libnx's constant. *)
Definition SHA256_HASH_SIZE : Z := 0x20.

Definition sizeof_GameCardHeader : Z := 0x200.
Definition sizeof_GameCardHashFileSystemHeader : Z := 0x10.
Definition sizeof_GameCardHashFileSystemEntry : Z :=
  8 + 8 + 4 + 4 + 8 + SHA256_HASH_SIZE.

(** ** The console *)

(** A [Result] is a [u32]; zero is success. *)
Definition R_SUCCEEDED (rc : Z) : bool := rc =? 0.
Definition R_FAILED (rc : Z) : bool := negb (rc =? 0).

Inductive Event : Type :=
| EvOpenGameCardStorage (handle partition rc : Z)
| EvStorageClose
| EvTmpStorageClose
| EvCloseHandle (handle : Z)
| EvGetGameCardHandle (rc handle : Z)
| EvStorageRead (partition : option Z) (offset size rc : Z)
| EvStorageGetSize (partition : option Z) (rc size : Z)
| EvMemcpy (dst n : Z)
| EvAlloc (size : Z) (ok : bool)
| EvFree
| EvIsGameCardInserted (rc : Z) (inserted : bool)
| EvOpenDeviceOperator (rc : Z)
| EvOpenEventNotifier (rc : Z)
| EvGetEventHandle (rc : Z)
| EvUEventCreate
| EvThreadCreate (ok : bool)
| EvSleep
| EvGetCertificate (rc : Z)
| EvUpdatePartitionInfo (rc version id : Z)
| EvNullScratchBuffer.

Record Platform : Type := mkPlatform {
  fsOpenGameCardStorage : list Event -> Z -> Z -> Z;
  fsDeviceOperatorGetGameCardHandle : list Event -> Z * Z;
  fsStorageRead : list Event -> option Z -> Z -> Z -> Z * Bytes;
  fsStorageGetSize : list Event -> option Z -> Z * Z;
  fsDeviceOperatorIsGameCardInserted : list Event -> Z * bool;
  alloc_succeeds : list Event -> Z -> bool;
  fsOpenDeviceOperator : list Event -> Z;
  fsOpenGameCardDetectionEventNotifier : list Event -> Z;
  fsEventNotifierGetEventHandle : list Event -> Z;
  thrd_create_succeeds : list Event -> bool;
  fsDeviceOperatorGetGameCardDeviceCertificate : list Event -> Z -> Z;
  fsDeviceOperatorUpdatePartitionInfo : list Event -> Z -> Z * Z * Z;
  utilsGetCustomFirmwareType_is_SXOS : bool
}.

(** ** Module state *)

Record GameCardHashFileSystemPartitionInfo : Type := mkPartitionInfo {
  pi_offset : Z;
  pi_size : Z;
  pi_header_size : Z;
  pi_header : option Bytes
}.

Definition zero_partition_info : GameCardHashFileSystemPartitionInfo :=
  mkPartitionInfo 0 0 0 None.

Record GcState : Type := mkGcState {
  g_gamecardInterfaceInit : bool;
  g_openDeviceOperator : bool;
  g_openEventNotifier : bool;
  g_loadKernelEvent : bool;
  g_gameCardDetectionThreadCreated : bool;
  g_gameCardInserted : bool;
  g_gameCardInfoLoaded : bool;
  g_gameCardHandle : Z;
  g_gameCardStorage : option Z;
  g_gameCardStorageCurrentArea : Z;
  g_gameCardReadBuf : option Bytes;
  g_gameCardHeader : Bytes;
  g_gameCardStorageNormalAreaSize : Z;
  g_gameCardStorageSecureAreaSize : Z;
  g_gameCardCapacity : Z;
  g_gameCardHfsRootHeader : option Bytes;
  g_gameCardHfsPartitions : option (Z -> GameCardHashFileSystemPartitionInfo);
  heap_live : Z;
  trace : list Event
}.

(** The state of a freshly loaded program: every global is zero. *)
Definition initial_state : GcState :=
  mkGcState false false false false false false false 0 None
            GameCardStorageArea_None None zeroed 0 0 0 None None 0 [].

(** Assignments to the globals. *)

Definition set_g_gamecardInterfaceInit (v : bool) (st : GcState) : GcState :=
  mkGcState v (g_openDeviceOperator st) (g_openEventNotifier st)
    (g_loadKernelEvent st) (g_gameCardDetectionThreadCreated st)
    (g_gameCardInserted st) (g_gameCardInfoLoaded st) (g_gameCardHandle st)
    (g_gameCardStorage st) (g_gameCardStorageCurrentArea st)
    (g_gameCardReadBuf st) (g_gameCardHeader st)
    (g_gameCardStorageNormalAreaSize st)
    (g_gameCardStorageSecureAreaSize st) (g_gameCardCapacity st)
    (g_gameCardHfsRootHeader st) (g_gameCardHfsPartitions st) (heap_live st)
    (trace st).

Definition set_g_openDeviceOperator (v : bool) (st : GcState) : GcState :=
  mkGcState (g_gamecardInterfaceInit st) v (g_openEventNotifier st)
    (g_loadKernelEvent st) (g_gameCardDetectionThreadCreated st)
    (g_gameCardInserted st) (g_gameCardInfoLoaded st) (g_gameCardHandle st)
    (g_gameCardStorage st) (g_gameCardStorageCurrentArea st)
    (g_gameCardReadBuf st) (g_gameCardHeader st)
    (g_gameCardStorageNormalAreaSize st)
    (g_gameCardStorageSecureAreaSize st) (g_gameCardCapacity st)
    (g_gameCardHfsRootHeader st) (g_gameCardHfsPartitions st) (heap_live st)
    (trace st).

Definition set_g_openEventNotifier (v : bool) (st : GcState) : GcState :=
  mkGcState (g_gamecardInterfaceInit st) (g_openDeviceOperator st) v
    (g_loadKernelEvent st) (g_gameCardDetectionThreadCreated st)
    (g_gameCardInserted st) (g_gameCardInfoLoaded st) (g_gameCardHandle st)
    (g_gameCardStorage st) (g_gameCardStorageCurrentArea st)
    (g_gameCardReadBuf st) (g_gameCardHeader st)
    (g_gameCardStorageNormalAreaSize st)
    (g_gameCardStorageSecureAreaSize st) (g_gameCardCapacity st)
    (g_gameCardHfsRootHeader st) (g_gameCardHfsPartitions st) (heap_live st)
    (trace st).

Definition set_g_loadKernelEvent (v : bool) (st : GcState) : GcState :=
  mkGcState (g_gamecardInterfaceInit st) (g_openDeviceOperator st)
    (g_openEventNotifier st) v (g_gameCardDetectionThreadCreated st)
    (g_gameCardInserted st) (g_gameCardInfoLoaded st) (g_gameCardHandle st)
    (g_gameCardStorage st) (g_gameCardStorageCurrentArea st)
    (g_gameCardReadBuf st) (g_gameCardHeader st)
    (g_gameCardStorageNormalAreaSize st)
    (g_gameCardStorageSecureAreaSize st) (g_gameCardCapacity st)
    (g_gameCardHfsRootHeader st) (g_gameCardHfsPartitions st) (heap_live st)
    (trace st).

Definition set_g_gameCardDetectionThreadCreated (v : bool) (st : GcState) : GcState :=
  mkGcState (g_gamecardInterfaceInit st) (g_openDeviceOperator st)
    (g_openEventNotifier st) (g_loadKernelEvent st) v
    (g_gameCardInserted st) (g_gameCardInfoLoaded st) (g_gameCardHandle st)
    (g_gameCardStorage st) (g_gameCardStorageCurrentArea st)
    (g_gameCardReadBuf st) (g_gameCardHeader st)
    (g_gameCardStorageNormalAreaSize st)
    (g_gameCardStorageSecureAreaSize st) (g_gameCardCapacity st)
    (g_gameCardHfsRootHeader st) (g_gameCardHfsPartitions st) (heap_live st)
    (trace st).

Definition set_g_gameCardInserted (v : bool) (st : GcState) : GcState :=
  mkGcState (g_gamecardInterfaceInit st) (g_openDeviceOperator st)
    (g_openEventNotifier st) (g_loadKernelEvent st)
    (g_gameCardDetectionThreadCreated st) v (g_gameCardInfoLoaded st)
    (g_gameCardHandle st) (g_gameCardStorage st)
    (g_gameCardStorageCurrentArea st) (g_gameCardReadBuf st)
    (g_gameCardHeader st) (g_gameCardStorageNormalAreaSize st)
    (g_gameCardStorageSecureAreaSize st) (g_gameCardCapacity st)
    (g_gameCardHfsRootHeader st) (g_gameCardHfsPartitions st) (heap_live st)
    (trace st).

Definition set_g_gameCardInfoLoaded (v : bool) (st : GcState) : GcState :=
  mkGcState (g_gamecardInterfaceInit st) (g_openDeviceOperator st)
    (g_openEventNotifier st) (g_loadKernelEvent st)
    (g_gameCardDetectionThreadCreated st) (g_gameCardInserted st) v
    (g_gameCardHandle st) (g_gameCardStorage st)
    (g_gameCardStorageCurrentArea st) (g_gameCardReadBuf st)
    (g_gameCardHeader st) (g_gameCardStorageNormalAreaSize st)
    (g_gameCardStorageSecureAreaSize st) (g_gameCardCapacity st)
    (g_gameCardHfsRootHeader st) (g_gameCardHfsPartitions st) (heap_live st)
    (trace st).

Definition set_g_gameCardHandle (v : Z) (st : GcState) : GcState :=
  mkGcState (g_gamecardInterfaceInit st) (g_openDeviceOperator st)
    (g_openEventNotifier st) (g_loadKernelEvent st)
    (g_gameCardDetectionThreadCreated st) (g_gameCardInserted st)
    (g_gameCardInfoLoaded st) v (g_gameCardStorage st)
    (g_gameCardStorageCurrentArea st) (g_gameCardReadBuf st)
    (g_gameCardHeader st) (g_gameCardStorageNormalAreaSize st)
    (g_gameCardStorageSecureAreaSize st) (g_gameCardCapacity st)
    (g_gameCardHfsRootHeader st) (g_gameCardHfsPartitions st) (heap_live st)
    (trace st).

Definition set_g_gameCardStorage (v : option Z) (st : GcState) : GcState :=
  mkGcState (g_gamecardInterfaceInit st) (g_openDeviceOperator st)
    (g_openEventNotifier st) (g_loadKernelEvent st)
    (g_gameCardDetectionThreadCreated st) (g_gameCardInserted st)
    (g_gameCardInfoLoaded st) (g_gameCardHandle st) v
    (g_gameCardStorageCurrentArea st) (g_gameCardReadBuf st)
    (g_gameCardHeader st) (g_gameCardStorageNormalAreaSize st)
    (g_gameCardStorageSecureAreaSize st) (g_gameCardCapacity st)
    (g_gameCardHfsRootHeader st) (g_gameCardHfsPartitions st) (heap_live st)
    (trace st).

Definition set_g_gameCardStorageCurrentArea (v : Z) (st : GcState) : GcState :=
  mkGcState (g_gamecardInterfaceInit st) (g_openDeviceOperator st)
    (g_openEventNotifier st) (g_loadKernelEvent st)
    (g_gameCardDetectionThreadCreated st) (g_gameCardInserted st)
    (g_gameCardInfoLoaded st) (g_gameCardHandle st) (g_gameCardStorage st) v
    (g_gameCardReadBuf st) (g_gameCardHeader st)
    (g_gameCardStorageNormalAreaSize st)
    (g_gameCardStorageSecureAreaSize st) (g_gameCardCapacity st)
    (g_gameCardHfsRootHeader st) (g_gameCardHfsPartitions st) (heap_live st)
    (trace st).

Definition set_g_gameCardReadBuf (v : option Bytes) (st : GcState) : GcState :=
  mkGcState (g_gamecardInterfaceInit st) (g_openDeviceOperator st)
    (g_openEventNotifier st) (g_loadKernelEvent st)
    (g_gameCardDetectionThreadCreated st) (g_gameCardInserted st)
    (g_gameCardInfoLoaded st) (g_gameCardHandle st) (g_gameCardStorage st)
    (g_gameCardStorageCurrentArea st) v (g_gameCardHeader st)
    (g_gameCardStorageNormalAreaSize st)
    (g_gameCardStorageSecureAreaSize st) (g_gameCardCapacity st)
    (g_gameCardHfsRootHeader st) (g_gameCardHfsPartitions st) (heap_live st)
    (trace st).

Definition set_g_gameCardHeader (v : Bytes) (st : GcState) : GcState :=
  mkGcState (g_gamecardInterfaceInit st) (g_openDeviceOperator st)
    (g_openEventNotifier st) (g_loadKernelEvent st)
    (g_gameCardDetectionThreadCreated st) (g_gameCardInserted st)
    (g_gameCardInfoLoaded st) (g_gameCardHandle st) (g_gameCardStorage st)
    (g_gameCardStorageCurrentArea st) (g_gameCardReadBuf st) v
    (g_gameCardStorageNormalAreaSize st)
    (g_gameCardStorageSecureAreaSize st) (g_gameCardCapacity st)
    (g_gameCardHfsRootHeader st) (g_gameCardHfsPartitions st) (heap_live st)
    (trace st).

Definition set_g_gameCardStorageNormalAreaSize (v : Z) (st : GcState) : GcState :=
  mkGcState (g_gamecardInterfaceInit st) (g_openDeviceOperator st)
    (g_openEventNotifier st) (g_loadKernelEvent st)
    (g_gameCardDetectionThreadCreated st) (g_gameCardInserted st)
    (g_gameCardInfoLoaded st) (g_gameCardHandle st) (g_gameCardStorage st)
    (g_gameCardStorageCurrentArea st) (g_gameCardReadBuf st)
    (g_gameCardHeader st) v (g_gameCardStorageSecureAreaSize st)
    (g_gameCardCapacity st) (g_gameCardHfsRootHeader st)
    (g_gameCardHfsPartitions st) (heap_live st) (trace st).

Definition set_g_gameCardStorageSecureAreaSize (v : Z) (st : GcState) : GcState :=
  mkGcState (g_gamecardInterfaceInit st) (g_openDeviceOperator st)
    (g_openEventNotifier st) (g_loadKernelEvent st)
    (g_gameCardDetectionThreadCreated st) (g_gameCardInserted st)
    (g_gameCardInfoLoaded st) (g_gameCardHandle st) (g_gameCardStorage st)
    (g_gameCardStorageCurrentArea st) (g_gameCardReadBuf st)
    (g_gameCardHeader st) (g_gameCardStorageNormalAreaSize st) v
    (g_gameCardCapacity st) (g_gameCardHfsRootHeader st)
    (g_gameCardHfsPartitions st) (heap_live st) (trace st).

Definition set_g_gameCardCapacity (v : Z) (st : GcState) : GcState :=
  mkGcState (g_gamecardInterfaceInit st) (g_openDeviceOperator st)
    (g_openEventNotifier st) (g_loadKernelEvent st)
    (g_gameCardDetectionThreadCreated st) (g_gameCardInserted st)
    (g_gameCardInfoLoaded st) (g_gameCardHandle st) (g_gameCardStorage st)
    (g_gameCardStorageCurrentArea st) (g_gameCardReadBuf st)
    (g_gameCardHeader st) (g_gameCardStorageNormalAreaSize st)
    (g_gameCardStorageSecureAreaSize st) v (g_gameCardHfsRootHeader st)
    (g_gameCardHfsPartitions st) (heap_live st) (trace st).

Definition set_g_gameCardHfsRootHeader (v : option Bytes) (st : GcState) : GcState :=
  mkGcState (g_gamecardInterfaceInit st) (g_openDeviceOperator st)
    (g_openEventNotifier st) (g_loadKernelEvent st)
    (g_gameCardDetectionThreadCreated st) (g_gameCardInserted st)
    (g_gameCardInfoLoaded st) (g_gameCardHandle st) (g_gameCardStorage st)
    (g_gameCardStorageCurrentArea st) (g_gameCardReadBuf st)
    (g_gameCardHeader st) (g_gameCardStorageNormalAreaSize st)
    (g_gameCardStorageSecureAreaSize st) (g_gameCardCapacity st) v
    (g_gameCardHfsPartitions st) (heap_live st) (trace st).

Definition set_g_gameCardHfsPartitions (v : option (Z -> GameCardHashFileSystemPartitionInfo)) (st : GcState) : GcState :=
  mkGcState (g_gamecardInterfaceInit st) (g_openDeviceOperator st)
    (g_openEventNotifier st) (g_loadKernelEvent st)
    (g_gameCardDetectionThreadCreated st) (g_gameCardInserted st)
    (g_gameCardInfoLoaded st) (g_gameCardHandle st) (g_gameCardStorage st)
    (g_gameCardStorageCurrentArea st) (g_gameCardReadBuf st)
    (g_gameCardHeader st) (g_gameCardStorageNormalAreaSize st)
    (g_gameCardStorageSecureAreaSize st) (g_gameCardCapacity st)
    (g_gameCardHfsRootHeader st) v (heap_live st) (trace st).

Definition set_heap_live (v : Z) (st : GcState) : GcState :=
  mkGcState (g_gamecardInterfaceInit st) (g_openDeviceOperator st)
    (g_openEventNotifier st) (g_loadKernelEvent st)
    (g_gameCardDetectionThreadCreated st) (g_gameCardInserted st)
    (g_gameCardInfoLoaded st) (g_gameCardHandle st) (g_gameCardStorage st)
    (g_gameCardStorageCurrentArea st) (g_gameCardReadBuf st)
    (g_gameCardHeader st) (g_gameCardStorageNormalAreaSize st)
    (g_gameCardStorageSecureAreaSize st) (g_gameCardCapacity st)
    (g_gameCardHfsRootHeader st) (g_gameCardHfsPartitions st) v (trace st).

Definition set_trace (v : list Event) (st : GcState) : GcState :=
  mkGcState (g_gamecardInterfaceInit st) (g_openDeviceOperator st)
    (g_openEventNotifier st) (g_loadKernelEvent st)
    (g_gameCardDetectionThreadCreated st) (g_gameCardInserted st)
    (g_gameCardInfoLoaded st) (g_gameCardHandle st) (g_gameCardStorage st)
    (g_gameCardStorageCurrentArea st) (g_gameCardReadBuf st)
    (g_gameCardHeader st) (g_gameCardStorageNormalAreaSize st)
    (g_gameCardStorageSecureAreaSize st) (g_gameCardCapacity st)
    (g_gameCardHfsRootHeader st) (g_gameCardHfsPartitions st) (heap_live st)
    v.

(** ** gamecard.c *)

Section Gamecard.

Variable hos : Platform.

Definition log (e : Event) (st : GcState) : GcState :=
  set_trace (trace st ++ [e]) st.

Definition serviceIsActive (s : option Z) : bool :=
  match s with Some _ => true | None => false end.

(** [gamecardCloseHandle]: [svcCloseHandle] on the current value, which is
    then zeroed. *)
Definition gamecardCloseHandle (st : GcState) : GcState :=
  set_g_gameCardHandle 0 (log (EvCloseHandle (g_gameCardHandle st)) st).

Definition gamecardCloseStorageArea (st : GcState) : GcState :=
  let st1 :=
    if serviceIsActive (g_gameCardStorage st)
    then set_g_gameCardStorage None (log EvStorageClose st)
    else st in
  set_g_gameCardStorageCurrentArea GameCardStorageArea_None
    (gamecardCloseHandle st1).

(** The [for (u8 i = 0; i < 10; i++)] loop of [gamecardGetHandle]; [tries]
    is the number of iterations left, [rc1] and [rc2] the two locals. *)
Fixpoint gamecardGetHandle_loop (tries : nat) (rc1 rc2 : Z) (st : GcState)
  : Z * Z * GcState :=
  match tries with
  | O => (rc1, rc2, st)
  | S tries' =>
      let rc1 := fsOpenGameCardStorage hos (trace st) (g_gameCardHandle st) 0 in
      let st := log (EvOpenGameCardStorage (g_gameCardHandle st) 0 rc1) st in
      if R_SUCCEEDED rc1 then (rc1, rc2, log EvTmpStorageClose st)
      else
        let st := gamecardCloseHandle st in
        let '(rc2, h) := fsDeviceOperatorGetGameCardHandle hos (trace st) in
        let st := set_g_gameCardHandle h (log (EvGetGameCardHandle rc2 h) st) in
        gamecardGetHandle_loop tries' rc1 rc2 st
  end.

Definition gamecardGetHandle (st : GcState) : bool * GcState :=
  if negb (g_gameCardInserted st) then (false, st)
  else
    let '(rc1, rc2, st) := gamecardGetHandle_loop 10 0 0 st in
    if R_FAILED rc1 || R_FAILED rc2
    then (false, gamecardCloseHandle st)
    else (true, st).

Definition gamecardOpenStorageArea (area : Z) (st : GcState) : bool * GcState :=
  if negb (g_gameCardInserted st)
     || (negb (area =? GameCardStorageArea_Normal)
         && negb (area =? GameCardStorageArea_Secure))
  then (false, st)
  else if negb (g_gameCardHandle st =? 0)
          && serviceIsActive (g_gameCardStorage st)
          && (g_gameCardStorageCurrentArea st =? area)
  then (true, st)
  else
    let st := gamecardCloseStorageArea st in
    let partition := u32 (area - 1) in
    let '(ok, st) := gamecardGetHandle st in
    if negb ok then (false, st)
    else
      let rc := fsOpenGameCardStorage hos (trace st) (g_gameCardHandle st) partition in
      let st := log (EvOpenGameCardStorage (g_gameCardHandle st) partition rc) st in
      if R_FAILED rc then (false, gamecardCloseHandle st)
      else (true, set_g_gameCardStorageCurrentArea area
                    (set_g_gameCardStorage (Some partition) st)).

(** [fsStorageRead (&g_gameCardStorage, off, dst + d, size)].  A failed read
    is taken to leave the destination as it was. *)
Definition storage_read_into (st : GcState) (dst : Bytes) (d off size : Z)
  : Z * GcState * Bytes :=
  let '(rc, data) := fsStorageRead hos (trace st) (g_gameCardStorage st) off size in
  let st := log (EvStorageRead (g_gameCardStorage st) off size rc) st in
  (rc, st, if R_SUCCEEDED rc then memcpy dst d data 0 size else dst).

Definition ReadResult : Type := (bool * GcState * Bytes)%type.

(** The part of [gamecardReadStorageArea] that follows the boundary split:
    the storage area is opened and the request, which lies in [area], is
    served from it.  [self] is [gamecardReadStorageArea] itself, for the
    call that continues a request larger than the read buffer.  A read
    through a NULL scratch buffer is undefined in C; it is recorded as
    [EvNullScratchBuffer] and fails. *)
Definition read_within_area
    (self : GcState -> Bytes -> option Z -> Z -> Z -> option ReadResult)
    (st1 : GcState) (obj1 : Bytes) (out_u8 read_size offset area : Z)
  : option ReadResult :=
  let '(ok, st2) := gamecardOpenStorageArea area st1 in
  if negb ok then Some (false, st2, obj1)
  else
    let base_offset :=
      if area =? GameCardStorageArea_Normal then offset
      else u64 (offset - g_gameCardStorageNormalAreaSize st2) in
    if (base_offset mod GAMECARD_MEDIA_UNIT_SIZE =? 0)
       && (read_size mod GAMECARD_MEDIA_UNIT_SIZE =? 0)
    then
      let '(rc, st3, obj2) :=
        storage_read_into st2 obj1 out_u8 base_offset read_size in
      if R_FAILED rc then Some (false, st3, obj1)
      else Some (true, st3, obj2)
    else
      let block_start_offset :=
        ALIGN_DOWN base_offset GAMECARD_MEDIA_UNIT_SIZE in
      let block_end_offset :=
        ALIGN_UP (u64 (base_offset + read_size)) GAMECARD_MEDIA_UNIT_SIZE in
      let block_size := u64 (block_end_offset - block_start_offset) in
      let data_start_offset := u64 (base_offset - block_start_offset) in
      let chunk_size :=
        if block_size >? GAMECARD_READ_BUFFER_SIZE
        then GAMECARD_READ_BUFFER_SIZE else block_size in
      let out_chunk_size :=
        if block_size >? GAMECARD_READ_BUFFER_SIZE
        then u64 (GAMECARD_READ_BUFFER_SIZE - data_start_offset)
        else read_size in
      match g_gameCardReadBuf st2 with
      | None => Some (false, log EvNullScratchBuffer st2, obj1)
      | Some scratch =>
        let '(rc, st3, scratch') :=
          storage_read_into st2 scratch 0 block_start_offset chunk_size in
        let st3 := set_g_gameCardReadBuf (Some scratch') st3 in
        if R_FAILED rc then Some (false, st3, obj1)
        else
          let obj2 :=
            memcpy obj1 out_u8 scratch' data_start_offset out_chunk_size in
          let st4 := log (EvMemcpy out_u8 out_chunk_size) st3 in
          if block_size >? GAMECARD_READ_BUFFER_SIZE
          then self st4 obj2 (Some (out_u8 + out_chunk_size))
                 (u64 (read_size - out_chunk_size))
                 (u64 (base_offset + out_chunk_size))
          else Some (true, st4, obj2)
      end.

(** [gamecardReadStorageArea].  [obj] is the object [out] points into and
    the third component of the result is that object afterwards.  The C
    function calls itself; [fuel] bounds the depth of the calls and [None]
    is the answer of a call that would need more
    ([gamecardReadStorageArea_rec_total] shows that [read_fuel] is always
    enough). *)
Fixpoint gamecardReadStorageArea_rec (fuel : nat) (st : GcState) (obj : Bytes)
    (out : option Z) (read_size offset : Z) {struct fuel}
  : option ReadResult :=
  match fuel with
  | O => None
  | S fuel' =>
    match out with
    | None => Some (false, st, obj)
    | Some out_u8 =>
      let normal := g_gameCardStorageNormalAreaSize st in
      let secure := g_gameCardStorageSecureAreaSize st in
      if negb (g_gameCardInserted st) || (normal =? 0) || (secure =? 0)
         || (read_size =? 0)
         || (offset >=? u64 (normal + secure))
         || (u64 (offset + read_size) >? u64 (normal + secure))
      then Some (false, st, obj)
      else
        let area := if offset <? normal then GameCardStorageArea_Normal
                    else GameCardStorageArea_Secure in
        if (area =? GameCardStorageArea_Normal)
           && (u64 (offset + read_size) >? normal)
        then
          (* the request spans both areas: its part in the normal area
             first, the rest from the start of the secure area *)
          let diff_size := u64 (normal - offset) in
          match gamecardReadStorageArea_rec fuel' st obj (Some out_u8)
                  diff_size offset with
          | None => None
          | Some (ok, st1, obj1) =>
              if negb ok then Some (false, st1, obj1)
              else read_within_area (gamecardReadStorageArea_rec fuel')
                     st1 obj1 (out_u8 + diff_size)
                     (u64 (read_size - diff_size))
                     (g_gameCardStorageNormalAreaSize st1)
                     GameCardStorageArea_Secure
          end
        else read_within_area (gamecardReadStorageArea_rec fuel')
               st obj out_u8 read_size offset area
    end
  end.

(** Every nested call but those of the boundary split consumes more than
    [GAMECARD_READ_BUFFER_SIZE - GAMECARD_MEDIA_UNIT_SIZE] bytes of the
    request. *)
Definition read_fuel (read_size : Z) : nat :=
  S (S (Z.to_nat
          (read_size / (GAMECARD_READ_BUFFER_SIZE - GAMECARD_MEDIA_UNIT_SIZE)))).

Definition gamecardReadStorageArea (st : GcState) (obj : Bytes) (out : option Z)
    (read_size offset : Z) (lock : bool) : bool * GcState * Bytes :=
  match gamecardReadStorageArea_rec (read_fuel read_size) st obj out
          read_size offset with
  | Some r => r
  | None => (false, st, obj)
  end.

(** [gamecardRead] (called [gamecardReadStorage] in the newer revision). *)
Definition gamecardRead (st : GcState) (obj : Bytes) (out : option Z)
    (read_size offset : Z) : bool * GcState * Bytes :=
  gamecardReadStorageArea st obj out read_size offset true.

(** *** Card information *)

Definition gamecardGetCapacityFromRomSizeValue (rom_size : Z) : Z :=
  if rom_size =? GameCardRomSize_1GiB then GAMECARD_CAPACITY_1GiB
  else if rom_size =? GameCardRomSize_2GiB then GAMECARD_CAPACITY_2GiB
  else if rom_size =? GameCardRomSize_4GiB then GAMECARD_CAPACITY_4GiB
  else if rom_size =? GameCardRomSize_8GiB then GAMECARD_CAPACITY_8GiB
  else if rom_size =? GameCardRomSize_16GiB then GAMECARD_CAPACITY_16GiB
  else if rom_size =? GameCardRomSize_32GiB then GAMECARD_CAPACITY_32GiB
  else 0.

(** The [for (u8 i = 0; i < 2; i++)] loop of
    [gamecardGetStorageAreasSizes]. *)
Fixpoint gamecardGetStorageAreasSizes_loop (n : nat) (i : Z) (st : GcState)
  : bool * GcState :=
  match n with
  | O => (true, st)
  | S n' =>
      let area := if i =? 0 then GameCardStorageArea_Normal
                  else GameCardStorageArea_Secure in
      let '(ok, st) := gamecardOpenStorageArea area st in
      if negb ok then (false, st)
      else
        let '(rc, sz) := fsStorageGetSize hos (trace st) (g_gameCardStorage st) in
        let area_size := u64 sz in
        let st := log (EvStorageGetSize (g_gameCardStorage st) rc area_size) st in
        let st := gamecardCloseStorageArea st in
        if R_FAILED rc || (area_size =? 0)
        then (false, set_g_gameCardStorageSecureAreaSize 0
                       (set_g_gameCardStorageNormalAreaSize 0 st))
        else
          let st :=
            if area =? GameCardStorageArea_Normal
            then set_g_gameCardStorageNormalAreaSize area_size st
            else set_g_gameCardStorageSecureAreaSize area_size st in
          gamecardGetStorageAreasSizes_loop n' (i + 1) st
  end.

Definition gamecardGetStorageAreasSizes (st : GcState) : bool * GcState :=
  if negb (g_gameCardInserted st) then (false, st)
  else gamecardGetStorageAreasSizes_loop 2 0 st.

(** Fields of [GameCardHeader] (0x200 bytes) at their offsets. *)
Definition header_magic (h : Bytes) : Z := le32 h 0x100.
Definition header_rom_size (h : Bytes) : Z := byte_at h 0x10D.
Definition header_valid_data_end_address (h : Bytes) : Z := le32 h 0x118.
Definition header_partition_fs_header_address (h : Bytes) : Z := le64 h 0x130.
Definition header_partition_fs_header_size (h : Bytes) : Z := le64 h 0x138.

(** Fields of [GameCardHashFileSystemHeader] and, at entry pointer [e], of
    [GameCardHashFileSystemEntry]. *)
Definition hfs_magic (h : Bytes) : Z := le32 h 0.
Definition hfs_entry_count (h : Bytes) : Z := le32 h 4.
Definition hfs_name_table_size (h : Bytes) : Z := le32 h 8.
Definition hfs_entry_offset (h : Bytes) (e : Z) : Z := le64 h e.
Definition hfs_entry_size (h : Bytes) (e : Z) : Z := le64 h (e + 8).
Definition hfs_entry_name_offset (h : Bytes) (e : Z) : Z := le32 h (e + 16).

Definition gamecardGetHashFileSystemEntryByIndex (hfs_header : option Bytes)
    (idx : Z) : option Z :=
  match hfs_header with
  | None => None
  | Some h =>
      if idx >=? hfs_entry_count h then None
      else Some (sizeof_GameCardHashFileSystemHeader
                 + idx * sizeof_GameCardHashFileSystemEntry)
  end.

(** [malloc]/[calloc] and [free]; [heap_live] counts the blocks this module
    holds.  A fresh block reads as zeroes. *)
Definition calloc (size : Z) (st : GcState) : option Bytes * GcState :=
  let ok := alloc_succeeds hos (trace st) size in
  let st := log (EvAlloc size ok) st in
  if ok then (Some zeroed, set_heap_live (heap_live st + 1) st)
  else (None, st).

Definition free (st : GcState) : GcState :=
  set_heap_live (heap_live st - 1) (log EvFree st).

Definition upd_partition (parts : Z -> GameCardHashFileSystemPartitionInfo)
    (i : Z) (v : GameCardHashFileSystemPartitionInfo)
  : Z -> GameCardHashFileSystemPartitionInfo :=
  fun j => if j =? i then v else parts j.

(** The loop of [gamecardFreeInfo] over the partition headers. *)
Fixpoint free_partition_headers
    (parts : Z -> GameCardHashFileSystemPartitionInfo) (n : nat) (i : Z)
    (st : GcState) : GcState :=
  match n with
  | O => st
  | S n' =>
      let st := match pi_header (parts i) with
                | Some _ => free st
                | None => st
                end in
      free_partition_headers parts n' (i + 1) st
  end.

Definition gamecardFreeInfo (st : GcState) : GcState :=
  let st := set_g_gameCardHeader zeroed st in
  let st := set_g_gameCardStorageNormalAreaSize 0 st in
  let st := set_g_gameCardStorageSecureAreaSize 0 st in
  let st := set_g_gameCardCapacity 0 st in
  let st :=
    match g_gameCardHfsRootHeader st with
    | Some root =>
        let st :=
          match g_gameCardHfsPartitions st with
          | Some parts =>
              free_partition_headers parts
                (Z.to_nat (hfs_entry_count root)) 0 st
          | None => st
          end in
        set_g_gameCardHfsRootHeader None (free st)
    | None => st
    end in
  let st :=
    match g_gameCardHfsPartitions st with
    | Some _ => set_g_gameCardHfsPartitions None (free st)
    | None => st
    end in
  let st := gamecardCloseStorageArea st in
  set_g_gameCardInfoLoaded false st.

(** The loop of [gamecardLoadInfo] over the entries of the root header;
    [false] stands for [goto out].  The products [entry_count * sizeof] are
    [u32] by [size_t] and cannot wrap. *)
Fixpoint gamecardLoadInfo_partitions (n : nat) (i : Z) (root : Bytes)
    (parts : Z -> GameCardHashFileSystemPartitionInfo) (st : GcState)
  : bool * GcState :=
  match n with
  | O => (true, st)
  | S n' =>
    match gamecardGetHashFileSystemEntryByIndex (Some root) i with
    | None => (false, st)
    | Some fs_entry =>
      if hfs_entry_size root fs_entry =? 0 then (false, st)
      else
        let hdr := g_gameCardHeader st in
        let p_offset :=
          u64 (u64 (header_partition_fs_header_address hdr
                    + header_partition_fs_header_size hdr)
               + hfs_entry_offset root fs_entry) in
        let p_size := hfs_entry_size root fs_entry in
        let parts := upd_partition parts i
                       (mkPartitionInfo p_offset p_size
                          (pi_header_size (parts i)) (pi_header (parts i))) in
        let st := set_g_gameCardHfsPartitions (Some parts) st in
        let '(ok, st, partition_header) :=
          gamecardReadStorageArea st zeroed (Some 0)
            sizeof_GameCardHashFileSystemHeader p_offset false in
        if negb ok then (false, st)
        else if negb (__builtin_bswap32 (hfs_magic partition_header)
                      =? GAMECARD_HFS0_MAGIC) then (false, st)
        else if hfs_name_table_size partition_header =? 0 then (false, st)
        else
          let header_size :=
            ALIGN_UP (sizeof_GameCardHashFileSystemHeader
                      + hfs_entry_count partition_header
                        * sizeof_GameCardHashFileSystemEntry
                      + hfs_name_table_size partition_header)
                     GAMECARD_MEDIA_UNIT_SIZE in
          let '(buf, st) := calloc header_size st in
          let parts := upd_partition parts i
                         (mkPartitionInfo p_offset p_size header_size buf) in
          let st := set_g_gameCardHfsPartitions (Some parts) st in
          match buf with
          | None => (false, st)
          | Some b =>
              let '(ok, st, b') :=
                gamecardReadStorageArea st b (Some 0) header_size p_offset false in
              let parts := upd_partition parts i
                             (mkPartitionInfo p_offset p_size header_size
                                (Some b')) in
              let st := set_g_gameCardHfsPartitions (Some parts) st in
              if negb ok then (false, st)
              else gamecardLoadInfo_partitions n' (i + 1) root parts st
          end
    end
  end.

(** [gamecardLoadInfo] from the read of the root header to the label
    [out]. *)
Definition gamecardLoadInfo_root (st : GcState) : GcState :=
  let hdr := g_gameCardHeader st in
  let '(root, st) := calloc (header_partition_fs_header_size hdr) st in
  let st := set_g_gameCardHfsRootHeader root st in
  match root with
  | None => st
  | Some r =>
      let '(ok, st, r') :=
        gamecardReadStorageArea st r (Some 0)
          (header_partition_fs_header_size hdr)
          (header_partition_fs_header_address hdr) false in
      let st := set_g_gameCardHfsRootHeader (Some r') st in
      if negb ok then st
      else if negb (__builtin_bswap32 (hfs_magic r') =? GAMECARD_HFS0_MAGIC)
      then st
      else if (hfs_entry_count r' =? 0) || (hfs_name_table_size r' =? 0)
              || (sizeof_GameCardHashFileSystemHeader
                  + hfs_entry_count r' * sizeof_GameCardHashFileSystemEntry
                  + hfs_name_table_size r'
                  >? header_partition_fs_header_size hdr)
      then st
      else
        let '(arr, st) :=
          calloc (hfs_entry_count r' * sizeof_GameCardHashFileSystemEntry) st in
        let parts :=
          match arr with
          | Some _ => Some (fun _ : Z => zero_partition_info)
          | None => None
          end in
        let st := set_g_gameCardHfsPartitions parts st in
        match parts with
        | None => st
        | Some ps =>
            let '(ok, st) :=
              gamecardLoadInfo_partitions (Z.to_nat (hfs_entry_count r')) 0
                r' ps st in
            if negb ok then st else set_g_gameCardInfoLoaded true st
        end
  end.

(** [gamecardLoadInfo] up to the read of the gamecard header. *)
Definition gamecardLoadInfo_header (st : GcState) : bool * GcState :=
  let '(ok, st) := gamecardGetStorageAreasSizes st in
  if negb ok then (false, st)
  else
    let '(ok, st, hdr) :=
      gamecardReadStorageArea st (g_gameCardHeader st) (Some 0)
        sizeof_GameCardHeader 0 false in
    (ok, set_g_gameCardHeader hdr st).

(** [gamecardLoadInfo] from the check of the header magic to the label
    [out]. *)
Definition gamecardLoadInfo_checked (st : GcState) : GcState :=
  let hdr := g_gameCardHeader st in
  if negb (__builtin_bswap32 (header_magic hdr) =? GAMECARD_HEAD_MAGIC) then st
  else
    let capacity := gamecardGetCapacityFromRomSizeValue (header_rom_size hdr) in
    let st := set_g_gameCardCapacity capacity st in
    if capacity =? 0 then st
    else
      let st :=
        if utilsGetCustomFirmwareType_is_SXOS hos
        then set_g_gameCardStorageSecureAreaSize
               (u64 (u64 (capacity
                          - u64 (capacity / GAMECARD_ECC_BLOCK_SIZE
                                 * GAMECARD_ECC_DATA_SIZE))
                     - g_gameCardStorageNormalAreaSize st)) st
        else st in
      gamecardLoadInfo_root st.

Definition gamecardLoadInfo (st : GcState) : GcState :=
  if g_gameCardInfoLoaded st then st
  else
    let '(ok, st) := gamecardLoadInfo_header st in
    let st := if negb ok then st else gamecardLoadInfo_checked st in
    (* out: *)
    if negb (g_gameCardInfoLoaded st) then gamecardFreeInfo st else st.

(** *** The detection thread *)

Definition gamecardIsInserted (st : GcState) : bool * GcState :=
  let '(rc, inserted) := fsDeviceOperatorIsGameCardInserted hos (trace st) in
  (R_SUCCEEDED rc && inserted, log (EvIsGameCardInserted rc inserted) st).

(** [gamecardDetectionThreadFunc] before its loop; the first component is
    [prev_status]. *)
Definition gamecardDetectionThreadFunc_start (st : GcState) : bool * GcState :=
  let '(inserted, st) := gamecardIsInserted st in
  let st := set_g_gameCardInserted inserted st in
  (inserted, if inserted then gamecardLoadInfo st else st).

(** One turn of the loop, taken when [waitMulti] reports the gamecard
    event. *)
Definition gamecardDetectionThreadFunc_iteration (prev_status : bool)
    (st : GcState) : bool * GcState :=
  let '(inserted, st) := gamecardIsInserted st in
  let st := set_g_gameCardInserted inserted st in
  let st :=
    if negb prev_status && inserted
    then gamecardLoadInfo (log EvSleep st)
    else gamecardFreeInfo st in
  (inserted, st).

(** The turns taken for a sequence of gamecard events. *)
Fixpoint gamecardDetectionThreadFunc_iterations (n : nat) (prev_status : bool)
    (st : GcState) : bool * GcState :=
  match n with
  | O => (prev_status, st)
  | S n' =>
      let '(prev_status, st) :=
        gamecardDetectionThreadFunc_iteration prev_status st in
      gamecardDetectionThreadFunc_iterations n' prev_status st
  end.

(** *** Public accessors

    An output pointer is given by [out], [true] when it is not NULL; the
    value stored through it is part of the result. *)

Definition gamecardIsReady (st : GcState) : bool :=
  g_gameCardInserted st && g_gameCardInfoLoaded st.

Definition gamecardGetHeader (st : GcState) (out : bool) : bool * option Bytes :=
  if g_gameCardInserted st && g_gameCardInfoLoaded st && out
  then (true, Some (g_gameCardHeader st))
  else (false, None).

Definition gamecardGetTotalSize (st : GcState) (out : bool) : bool * option Z :=
  if g_gameCardInserted st && g_gameCardInfoLoaded st && out
  then (true, Some (u64 (g_gameCardStorageNormalAreaSize st
                         + g_gameCardStorageSecureAreaSize st)))
  else (false, None).

Definition gamecardGetTrimmedSize (st : GcState) (out : bool) : bool * option Z :=
  if g_gameCardInserted st && g_gameCardInfoLoaded st && out
  then (true, Some (u64 (sizeof_GameCardHeader
                         + u64 (header_valid_data_end_address (g_gameCardHeader st)
                                * GAMECARD_MEDIA_UNIT_SIZE))))
  else (false, None).

Definition gamecardGetRomCapacity (st : GcState) (out : bool) : bool * option Z :=
  if g_gameCardInserted st && g_gameCardInfoLoaded st && out
  then (true, Some (g_gameCardCapacity st))
  else (false, None).

Definition gamecardGetCertificate (st : GcState) (out : bool) : bool * GcState :=
  if g_gameCardInserted st && negb (g_gameCardHandle st =? 0) && out
  then
    let rc := fsDeviceOperatorGetGameCardDeviceCertificate hos (trace st)
                (g_gameCardHandle st) in
    (R_SUCCEEDED rc, log (EvGetCertificate rc) st)
  else (false, st).

Definition gamecardGetBundledFirmwareUpdateVersion (st : GcState) (out : bool)
  : bool * option Z * GcState :=
  if g_gameCardInserted st && negb (g_gameCardHandle st =? 0) && out
  then
    let '(rc, update_version, update_id) :=
      fsDeviceOperatorUpdatePartitionInfo hos (trace st) (g_gameCardHandle st) in
    let st := log (EvUpdatePartitionInfo rc update_version update_id) st in
    let ret := R_SUCCEEDED rc && (update_id =? GAMECARD_UPDATE_TID) in
    (ret, if ret then Some update_version else None, st)
  else (false, None, st).

(** *** Initialisation (newer revision) *)

Definition gamecardCreateDetectionThread (st : GcState) : bool * GcState :=
  let ok := thrd_create_succeeds hos (trace st) in
  (ok, log (EvThreadCreate ok) st).

Definition gamecardInitialize (st : GcState) : bool * GcState :=
  if g_gamecardInterfaceInit st then (true, st)
  else
    let '(buf, st) := calloc GAMECARD_READ_BUFFER_SIZE st in
    let st := set_g_gameCardReadBuf buf st in
    match buf with
    | None => (false, st)
    | Some _ =>
      let rc := fsOpenDeviceOperator hos (trace st) in
      let st := log (EvOpenDeviceOperator rc) st in
      if R_FAILED rc then (false, st)
      else
        let st := set_g_openDeviceOperator true st in
        let rc := fsOpenGameCardDetectionEventNotifier hos (trace st) in
        let st := log (EvOpenEventNotifier rc) st in
        if R_FAILED rc then (false, st)
        else
          let st := set_g_openEventNotifier true st in
          let rc := fsEventNotifierGetEventHandle hos (trace st) in
          let st := log (EvGetEventHandle rc) st in
          if R_FAILED rc then (false, st)
          else
            let st := set_g_loadKernelEvent true st in
            let st := log EvUEventCreate (log EvUEventCreate st) in
            let '(created, st) := gamecardCreateDetectionThread st in
            let st := set_g_gameCardDetectionThreadCreated created st in
            if negb created then (false, st)
            else (true, set_g_gamecardInterfaceInit true st)
    end.

End Gamecard.

(** ** C strings

    A string argument is the list of the bytes found at the pointer; the
    string ends at the first zero byte, or at the end of the list (where the
    terminator then is).  A name stored in a header is read in place from
    the buffer. *)

Fixpoint bytes_of_string (s : string) : list Z :=
  match s with
  | EmptyString => []
  | String a s' => Z.of_N (N_of_ascii a) :: bytes_of_string s'
  end.

Definition char_at (l : list Z) (k : nat) : Z := (nth k l 0) mod 256.

Definition chars (l : list Z) : Bytes :=
  fun i => if i <? 0 then 0 else nth (Z.to_nat i) l 0.

Fixpoint strlen (l : list Z) : nat :=
  match l with
  | [] => O
  | c :: l' => if c mod 256 =? 0 then O else S (strlen l')
  end.

(** [tolower] in the C locale. *)
Definition tolower (c : Z) : Z :=
  if (65 <=? c) && (c <=? 90) then c + 32 else c.

(** [strncmp (s1 + p1, s2 + p2, n)] and [strncasecmp]: the sign of the
    difference of the first pair of bytes that differ within [n] bytes and
    before the end of the strings, zero when there is none. *)
Fixpoint strncmp (s1 : Bytes) (p1 : Z) (s2 : Bytes) (p2 : Z) (n : nat) : Z :=
  match n with
  | O => 0
  | S n' =>
      let c1 := byte_at s1 p1 in
      let c2 := byte_at s2 p2 in
      if c1 =? c2
      then if c2 =? 0 then 0 else strncmp s1 (p1 + 1) s2 (p2 + 1) n'
      else c1 - c2
  end.

Fixpoint strncasecmp (s1 : Bytes) (p1 : Z) (s2 : Bytes) (p2 : Z) (n : nat) : Z :=
  match n with
  | O => 0
  | S n' =>
      let c1 := tolower (byte_at s1 p1) in
      let c2 := tolower (byte_at s2 p2) in
      if c1 =? c2
      then if c2 =? 0 then 0 else strncasecmp s1 (p1 + 1) s2 (p2 + 1) n'
      else c1 - c2
  end.

(** [strcasecmp (s1 + p1, s2)] for a string literal [s2]. *)
Fixpoint strcasecmp (s1 : Bytes) (p1 : Z) (s2 : list Z) : Z :=
  match s2 with
  | [] => tolower (byte_at s1 p1)
  | c :: s2' =>
      let c1 := tolower (byte_at s1 p1) in
      let c2 := tolower (c mod 256) in
      if c1 =? c2
      then if c2 =? 0 then 0 else strcasecmp s1 (p1 + 1) s2'
      else c1 - c2
  end.

(** ** Hash file system lookups of the older revision (gamecard.c) *)

Definition GameCardHashFileSystemPartitionType_Update : Z := 0.
Definition GameCardHashFileSystemPartitionType_Logo : Z := 1.
Definition GameCardHashFileSystemPartitionType_Normal : Z := 2.
Definition GameCardHashFileSystemPartitionType_Secure : Z := 3.

Definition GAMECARD_HFS_PARTITION_NAME (x : Z) : list Z :=
  bytes_of_string
    (if x =? GameCardHashFileSystemPartitionType_Update then "update"%string
     else if x =? GameCardHashFileSystemPartitionType_Logo then "logo"%string
     else if x =? GameCardHashFileSystemPartitionType_Normal then "normal"%string
     else if x =? GameCardHashFileSystemPartitionType_Secure then "secure"%string
     else "unknown"%string).

Definition gamecardGetHashFileSystemEntryName (hfs_header : option Bytes)
    (name_offset : Z) : option Z :=
  match hfs_header with
  | None => None
  | Some h =>
      if (hfs_entry_count h =? 0) || (name_offset >=? hfs_name_table_size h)
      then None
      else Some (sizeof_GameCardHashFileSystemHeader
                 + hfs_entry_count h * sizeof_GameCardHashFileSystemEntry
                 + name_offset)
  end.

(** The loop of [gamecardGetHashFileSystemPartitionIndexByType]: the index
    of the first of the [n] entries from [i] on whose name is [name]. *)
Fixpoint partition_index_loop (h : Bytes) (name : list Z) (n : nat) (i : Z)
  : option Z :=
  match n with
  | O => None
  | S n' =>
      match gamecardGetHashFileSystemEntryByIndex (Some h) i with
      | None => partition_index_loop h name n' (i + 1)
      | Some fs_entry =>
          match gamecardGetHashFileSystemEntryName (Some h)
                  (hfs_entry_name_offset h fs_entry) with
          | None => partition_index_loop h name n' (i + 1)
          | Some entry_name =>
              if strcasecmp h entry_name name =? 0 then Some i
              else partition_index_loop h name n' (i + 1)
          end
      end
  end.

(** The outer [option] is [None] when the C function would dereference a
    NULL root header. *)
Definition gamecardGetHashFileSystemPartitionIndexByType (st : GcState)
    (type : Z) (out : bool) : option (option Z) :=
  if (type >? GameCardHashFileSystemPartitionType_Secure) || negb out
  then Some None
  else
    match g_gameCardHfsRootHeader st with
    | None => None
    | Some root =>
        Some (partition_index_loop root (GAMECARD_HFS_PARTITION_NAME type)
                (Z.to_nat (hfs_entry_count root)) 0)
    end.

(** The loop of
    [gamecardGetOffsetAndSizeFromHashFileSystemPartitionEntryByName]. *)
Fixpoint entry_by_name_loop (h : Bytes) (name : list Z) (name_len : nat)
    (n : nat) (i : Z) : option Z :=
  match n with
  | O => None
  | S n' =>
      match gamecardGetHashFileSystemEntryByIndex (Some h) i with
      | None => entry_by_name_loop h name name_len n' (i + 1)
      | Some fs_entry =>
          match gamecardGetHashFileSystemEntryName (Some h)
                  (hfs_entry_name_offset h fs_entry) with
          | None => entry_by_name_loop h name name_len n' (i + 1)
          | Some entry_name =>
              if strncasecmp h entry_name (chars name) 0 name_len =? 0
              then Some i
              else entry_by_name_loop h name name_len n' (i + 1)
          end
      end
  end.

(** The result is [(ret, *out_offset, *out_size)]; the outer [option] is
    [None] when the C function would dereference a NULL pointer (a missing
    root header, partition table or partition header). *)
Definition gamecardGetOffsetAndSizeFromHashFileSystemPartitionEntryByName
    (st : GcState) (hfs_partition_type : Z) (name : option (list Z))
    (out_offset out_size : bool) : option (bool * option Z * option Z) :=
  match name with
  | None => Some (false, None, None)
  | Some nm =>
    if negb (g_gameCardInserted st) || negb (g_gameCardInfoLoaded st)
       || (char_at nm 0 =? 0) || (negb out_offset && negb out_size)
    then Some (false, None, None)
    else
      match gamecardGetHashFileSystemPartitionIndexByType st
              hfs_partition_type true with
      | None => None
      | Some None => Some (false, None, None)
      | Some (Some hfs_partition_idx) =>
        match g_gameCardHfsPartitions st with
        | None => None
        | Some parts =>
          let part := parts hfs_partition_idx in
          match pi_header part with
          | None => None
          | Some fs_header =>
            match entry_by_name_loop fs_header nm (strlen nm)
                    (Z.to_nat (hfs_entry_count fs_header)) 0 with
            | None => Some (false, None, None)
            | Some i =>
                let fs_entry := sizeof_GameCardHashFileSystemHeader
                                + i * sizeof_GameCardHashFileSystemEntry in
                Some (true,
                      if out_offset
                      then Some (u64 (u64 (pi_offset part + pi_header_size part)
                                      + hfs_entry_offset fs_header fs_entry))
                      else None,
                      if out_size then Some (hfs_entry_size fs_header fs_entry)
                      else None)
            end
          end
        end
      end
  end.

(** ** Hash file system lookups of the newer revision *)

Definition gamecardGetHashFileSystemNameTable (header : option Bytes)
  : option Z :=
  match header with
  | None => None
  | Some h =>
      if hfs_entry_count h =? 0 then None
      else Some (sizeof_GameCardHashFileSystemHeader
                 + hfs_entry_count h * sizeof_GameCardHashFileSystemEntry)
  end.

Definition gamecardGetHashFileSystemEntryNameByIndex (header : option Bytes)
    (idx : Z) : option Z :=
  match gamecardGetHashFileSystemEntryByIndex header idx,
        gamecardGetHashFileSystemNameTable header, header with
  | Some fs_entry, Some name_table, Some h =>
      Some (name_table + hfs_entry_name_offset h fs_entry)
  | _, _, _ => None
  end.

(** The loop of [gamecardGetHashFileSystemEntryIndexByName]; the inner
    [option] tells the two [return false] (no entry, loop exhausted) from
    [return true]. *)
Fixpoint entry_index_loop (h : Bytes) (name_table : Z) (name : list Z)
    (name_len : nat) (n : nat) (i : Z) : option Z :=
  match n with
  | O => None
  | S n' =>
      match gamecardGetHashFileSystemEntryByIndex (Some h) i with
      | None => None
      | Some fs_entry =>
          if strncmp h (name_table + hfs_entry_name_offset h fs_entry)
               (chars name) 0 name_len =? 0
          then Some i
          else entry_index_loop h name_table name name_len n' (i + 1)
      end
  end.

(** The result is [(ret, *out_idx)]. *)
Definition gamecardGetHashFileSystemEntryIndexByName (header : option Bytes)
    (name : option (list Z)) (out_idx : bool) : bool * option Z :=
  match header, gamecardGetHashFileSystemNameTable header, name with
  | Some h, Some name_table, Some nm =>
      if (hfs_entry_count h =? 0) || (Nat.eqb (strlen nm) 0) || negb out_idx
      then (false, None)
      else
        match entry_index_loop h name_table nm (strlen nm)
                (Z.to_nat (hfs_entry_count h)) 0 with
        | Some i => (true, Some i)
        | None => (false, None)
        end
  | _, _, _ => (false, None)
  end.

(** ** pfs.h *)

Definition sizeof_PartitionFileSystemHeader : Z := 0x10.
Definition sizeof_PartitionFileSystemEntry : Z := 0x18.

(** [PartitionFileSystemContext], without the storage context and the NCA
    section pointer, which the accessors below do not read. *)
Record PartitionFileSystemContext : Type := mkPfsContext {
  pfs_offset : Z;
  pfs_size : Z;
  pfs_is_exefs : bool;
  pfs_header_size : Z;
  pfs_header : option Bytes
}.

Record PartitionFileSystemEntry : Type := mkPfsEntry {
  pfs_entry_offset : Z;
  pfs_entry_size : Z;
  pfs_entry_name_offset : Z
}.

Definition pfs_entry_count (h : Bytes) : Z := le32 h 4.
Definition pfs_name_table_size (h : Bytes) : Z := le32 h 8.

Definition pfsGetEntryCount (ctx : option PartitionFileSystemContext) : Z :=
  match ctx with
  | None => 0
  | Some c =>
      if pfs_header_size c =? 0 then 0
      else match pfs_header c with
           | None => 0
           | Some h => pfs_entry_count h
           end
  end.

(** A pointer into the header block is its byte index in the block. *)
Definition pfsGetEntryByIndex (ctx : option PartitionFileSystemContext)
    (idx : Z) : option Z :=
  if idx >=? pfsGetEntryCount ctx then None
  else Some (sizeof_PartitionFileSystemHeader
             + idx * sizeof_PartitionFileSystemEntry).

Definition pfsGetNameTable (ctx : option PartitionFileSystemContext)
  : option Z :=
  let entry_count := pfsGetEntryCount ctx in
  if entry_count =? 0 then None
  else Some (sizeof_PartitionFileSystemHeader
             + entry_count * sizeof_PartitionFileSystemEntry).

(** [pfsGetEntryName].  [ctx->header] is read only once [name_table] is
    known not to be NULL, as the short-circuit [||] of the C code has it;
    the two inner [None] branches stand for a dereference that
    [pfsGetEntryName_no_null_dereference] shows never to happen. *)
Definition pfsGetEntryName (ctx : option PartitionFileSystemContext)
    (fs_entry : option PartitionFileSystemEntry) : option Z :=
  match pfsGetNameTable ctx with
  | None => None
  | Some name_table =>
      match fs_entry with
      | None => None
      | Some e =>
          match ctx with
          | None => None
          | Some c =>
              match pfs_header c with
              | None => None
              | Some h =>
                  if (pfs_entry_name_offset e >=? pfs_name_table_size h)
                     || (byte_at h (name_table + pfs_entry_name_offset e) =? 0)
                  then None
                  else Some (name_table + pfs_entry_name_offset e)
              end
          end
      end
  end.

(** ** A well-behaved console with a small card image

    Used to run the functions above on concrete inputs.  The card has a
    16 MiB normal area and a 32 MiB secure area; handle [0x5A] is the only
    one the file system service accepts, reads must lie inside the area and
    be aligned to the media unit. *)

Definition demo_handle : Z := 0x5A.
Definition demo_normal_size : Z := 0x1000000.
Definition demo_secure_size : Z := 0x2000000.

Definition demo_area_size (partition : Z) : Z :=
  if partition =? 0 then demo_normal_size else demo_secure_size.

(** Bytes of the image that are not part of a structure. *)
Definition demo_filler (partition j : Z) : Z :=
  if partition =? 0 then (j + j / 256) mod 256
  else (3 * j + 7 + j / 256) mod 256.

Fixpoint segment_lookup (segs : list (Z * list Z)) (j : Z) : option Z :=
  match segs with
  | [] => None
  | (base, bytes) :: rest =>
      if (base <=? j) && (j <? base + Z.of_nat (length bytes))
      then Some (nth (Z.to_nat (j - base)) bytes 0)
      else segment_lookup rest j
  end.

Definition image (segs : list (Z * list Z)) (partition : Z) : Bytes :=
  fun j =>
    if partition =? 0 then
      match segment_lookup segs j with
      | Some b => b
      | None => demo_filler partition j
      end
    else demo_filler partition j.

Definition demo_platform_with (segs : list (Z * list Z)) (sxos : bool) : Platform :=
  mkPlatform
    (fun _ handle _ => if handle =? demo_handle then 0 else 0x2002)
    (fun _ => (0, demo_handle))
    (fun _ storage off size =>
       match storage with
       | Some p =>
           if (0 <=? off) && (0 <=? size) && (off + size <=? demo_area_size p)
              && (off mod 0x200 =? 0) && (size mod 0x200 =? 0)
           then (0, fun j => image segs p (off + j))
           else (0x2EE202, zeroed)
       | None => (0xF601, zeroed)
       end)
    (fun _ storage =>
       match storage with
       | Some p => (0, demo_area_size p)
       | None => (0xF601, 0)
       end)
    (fun _ => (0, true))
    (fun _ _ => true)
    (fun _ => 0)
    (fun _ => 0)
    (fun _ => 0)
    (fun _ => true)
    (fun _ handle => if handle =? demo_handle then 0 else 0x2002)
    (fun _ handle =>
       if handle =? demo_handle then (0, 0x40000, GAMECARD_UPDATE_TID)
       else (0x2002, 0, 0))
    sxos.

(** A card whose normal area holds nothing but filler. *)
Definition blank_platform : Platform := demo_platform_with [] false.

(** A card with a gamecard header, a root hash file system with the
    partitions "normal" and "secure", and their headers, all in the normal
    area.  [rom_size] is the capacity byte of the header. *)

Definition le32_bytes (v : Z) : list Z :=
  [v mod 256; (v / 2 ^ 8) mod 256; (v / 2 ^ 16) mod 256; (v / 2 ^ 24) mod 256].

Definition le64_bytes (v : Z) : list Z :=
  le32_bytes (v mod 2 ^ 32) ++ le32_bytes (v / 2 ^ 32).

Definition zeros (n : nat) : list Z := repeat 0 n.

Definition hfs_entry_bytes (offset size name_offset : Z) : list Z :=
  le64_bytes offset ++ le64_bytes size ++ le32_bytes name_offset
  ++ le32_bytes 0 ++ le64_bytes 0 ++ zeros 32.

Definition demo_root_address : Z := 0xF000.
Definition demo_root_size : Z := 0x200.

Definition demo_card_segments (rom_size : Z) : list (Z * list Z) :=
  [ (0x100,
     bytes_of_string "HEAD" ++ le32_bytes 0x80 ++ le32_bytes 0xFFFFFFFF
     ++ [0; rom_size; 0; 0] ++ le64_bytes 0 ++ le32_bytes 0x7F ++ zeros 4
     ++ zeros 16 ++ le64_bytes demo_root_address ++ le64_bytes demo_root_size);
    (demo_root_address,
     bytes_of_string "HFS0" ++ le32_bytes 2 ++ le32_bytes 0x10 ++ le32_bytes 0
     ++ hfs_entry_bytes 0 0x2000 0 ++ hfs_entry_bytes 0x2000 0x4000 7
     ++ bytes_of_string "normal" ++ [0] ++ bytes_of_string "secure" ++ [0]
     ++ zeros 2);
    (demo_root_address + demo_root_size,
     bytes_of_string "HFS0" ++ le32_bytes 1 ++ le32_bytes 0x10 ++ le32_bytes 0
     ++ hfs_entry_bytes 0 0x200 0
     ++ bytes_of_string "a.bin" ++ [0] ++ zeros 10);
    (demo_root_address + demo_root_size + 0x2000,
     bytes_of_string "HFS0" ++ le32_bytes 2 ++ le32_bytes 0x20 ++ le32_bytes 0
     ++ hfs_entry_bytes 0 0x200 0 ++ hfs_entry_bytes 0x200 0x400 9
     ++ bytes_of_string "Test.nca" ++ [0] ++ bytes_of_string "test.tik" ++ [0]
     ++ zeros 14) ].

Definition demo_platform : Platform :=
  demo_platform_with (demo_card_segments GameCardRomSize_1GiB) false.

(** The same card with a capacity byte that is not in the table. *)
Definition odd_capacity_platform : Platform :=
  demo_platform_with (demo_card_segments 0x42) false.

(** The session after a successful [gamecardInitialize], before the
    detection thread has run. *)
Definition initialized_state : GcState :=
  snd (gamecardInitialize demo_platform initial_state).

(** A partition file system context with two entries, "main" and an entry
    whose name is the empty string at the end of the name table. *)
Definition demo_pfs_header : Bytes :=
  fun j =>
    match segment_lookup
            [(0, bytes_of_string "PFS0" ++ le32_bytes 2 ++ le32_bytes 8
                 ++ le32_bytes 0
                 ++ le64_bytes 0 ++ le64_bytes 0x100 ++ le32_bytes 0 ++ zeros 4
                 ++ le64_bytes 0x100 ++ le64_bytes 0x80 ++ le32_bytes 7
                 ++ zeros 4
                 ++ bytes_of_string "main" ++ zeros 4)] j with
    | Some b => b
    | None => 0xCC
    end.

Definition demo_pfs_context : PartitionFileSystemContext :=
  mkPfsContext 0 0x1000 false 0x48 (Some demo_pfs_header).

(** A console whose file system service refuses every gamecard handle. *)
Definition stale_platform : Platform :=
  mkPlatform
    (fun _ _ _ => 0x2002)
    (fun evs => (0, 0x100 + Z.of_nat (List.length evs)))
    (fun _ _ _ _ => (0x2EE202, zeroed))
    (fun _ _ => (0xF601, 0))
    (fun _ => (0, true))
    (fun _ _ => true)
    (fun _ => 0) (fun _ => 0) (fun _ => 0)
    (fun _ => true)
    (fun _ _ => 0x2002)
    (fun _ _ => (0x2002, 0, 0))
    false.

(** The session once the detection thread has seen the card:
    [g_gameCardInserted] is set and nothing is loaded yet. *)
Definition inserted_state : GcState :=
  let '(inserted, st) := gamecardIsInserted demo_platform initialized_state in
  set_g_gameCardInserted inserted st.

(** The session in the middle of [gamecardLoadInfo]: the storage area
    sizes and the gamecard header have been read, nothing has been checked
    yet.  The newer revision runs the first [gamecardLoadInfo] of the
    detection thread without taking [g_gamecardMutex], so that a public
    accessor, which does take it, can find the session in this state. *)
Definition loading_state : GcState :=
  snd (gamecardLoadInfo_header demo_platform inserted_state).

(** The session with the demo card loaded. *)
Definition ready_state : GcState :=
  snd (gamecardDetectionThreadFunc_start demo_platform initialized_state).

(** The session of [gamecardDetectionThreadFunc] between its assignment
    [g_gameCardInserted = gamecardIsInserted()] for a card that has been
    removed and its call of [gamecardFreeInfo]: no card is recorded, and
    the handle the reads have opened is still there. *)
Definition removed_state : GcState :=
  set_g_gameCardInserted false ready_state.

(** ** Events of the retry loop of gamecardGetHandle

    [handle_attempts n ok evs]: [evs] is the record of [n] attempts to open
    a storage with the current handle, each failed one followed by the
    closing of the handle and the request for a new one; [ok] tells whether
    the last attempt succeeded. *)
Inductive handle_attempts : nat -> bool -> list Event -> Prop :=
| attempts_none : handle_attempts 0 false []
| attempts_opened : forall h,
    handle_attempts 1 true [EvOpenGameCardStorage h 0 0; EvTmpStorageClose]
| attempts_retry : forall n ok h rc rc2 h2 evs,
    rc <> 0 ->
    handle_attempts n ok evs ->
    handle_attempts (S n) ok
      (EvOpenGameCardStorage h 0 rc :: EvCloseHandle h
         :: EvGetGameCardHandle rc2 h2 :: evs).

(** Number of [fsOpenGameCardStorage] calls in a record. *)
Fixpoint open_attempts (evs : list Event) : nat :=
  match evs with
  | [] => O
  | EvOpenGameCardStorage _ _ _ :: evs' => S (open_attempts evs')
  | _ :: evs' => open_attempts evs'
  end.

(** ** Name matching, as the specification words it

    [query nm] is the string passed as [nm]: the bytes before its
    terminator.  [prefix_of fold q h pos] tells whether the bytes of [h]
    from [pos] on start with [q], bytes being compared after [fold].  The
    name stored for entry [i] of a hash file system header starts at
    [hfs_stored_name h i]. *)

Definition query (nm : list Z) : list Z := firstn (strlen nm) nm.

Definition prefix_of (fold : Z -> Z) (q : list Z) (h : Bytes) (pos : Z) : bool :=
  forallb (fun k => fold (byte_at h (pos + Z.of_nat k)) =? fold (char_at q k))
          (seq 0 (List.length q)).

Definition hfs_entry_at (i : Z) : Z :=
  sizeof_GameCardHashFileSystemHeader + i * sizeof_GameCardHashFileSystemEntry.

Definition hfs_stored_name (h : Bytes) (i : Z) : Z :=
  sizeof_GameCardHashFileSystemHeader
  + hfs_entry_count h * sizeof_GameCardHashFileSystemEntry
  + hfs_entry_name_offset h (hfs_entry_at i).

(** Entry [i] has a name inside the name table and this name starts with
    [q], letter case ignored. *)
Definition ci_name_match (h : Bytes) (q : list Z) (i : Z) : bool :=
  (hfs_entry_name_offset h (hfs_entry_at i) <? hfs_name_table_size h)
  && prefix_of tolower q h (hfs_stored_name h i).

(** The bytes at the name offset of entry [i] start with [q] exactly. *)
Definition cs_name_match (h : Bytes) (q : list Z) (i : Z) : bool :=
  prefix_of (fun c => c) q h (hfs_stored_name h i).

(** [i] is the first of the entries [0 .. count - 1] that satisfies [p]. *)
Definition first_match (p : Z -> bool) (count i : Z) : Prop :=
  0 <= i < count /\ p i = true /\ forall j, 0 <= j < i -> p j = false.

Definition no_match (p : Z -> bool) (count : Z) : Prop :=
  forall j, 0 <= j < count -> p j = false.

Fixpoint find_first (p : Z -> bool) (n : nat) (i : Z) : option Z :=
  match n with
  | O => None
  | S n' => if p i then Some i else find_first p n' (i + 1)
  end.

(** The header of the "secure" partition of the demo card: its entries are
    "Test.nca" and "test.tik". *)
Definition demo_secure_header : option Bytes :=
  match g_gameCardHfsPartitions ready_state with
  | Some parts => pi_header (parts 1)
  | None => None
  end.

Definition demo_secure_bytes : Bytes :=
  match demo_secure_header with
  | Some h => h
  | None => zeroed
  end.

(** ** The part of the state that storage accesses leave alone

    Opening, closing and reading a storage area only touch the gamecard
    handle, the storage object, the current area, the contents of the read
    buffer and the record of the calls. *)
Definition session_of (st : GcState) :=
  (g_gamecardInterfaceInit st, g_openDeviceOperator st, g_openEventNotifier st,
   g_loadKernelEvent st, g_gameCardDetectionThreadCreated st,
   g_gameCardInserted st, g_gameCardInfoLoaded st, g_gameCardHeader st,
   g_gameCardStorageNormalAreaSize st, g_gameCardStorageSecureAreaSize st,
   g_gameCardCapacity st, g_gameCardHfsRootHeader st,
   g_gameCardHfsPartitions st, heap_live st).

(** ** Outcome of gamecardLoadInfo, as the specification words it *)

(** Nothing of the card is cached any more: header zeroed, sizes and
    capacity zero, no heap block held beyond those held in [st0], storage
    area and handle closed. *)
Definition info_released (st0 st : GcState) : Prop :=
  g_gameCardInfoLoaded st = false
  /\ (forall i, g_gameCardHeader st i = 0)
  /\ g_gameCardStorageNormalAreaSize st = 0
  /\ g_gameCardStorageSecureAreaSize st = 0
  /\ g_gameCardCapacity st = 0
  /\ g_gameCardHfsRootHeader st = None
  /\ g_gameCardHfsPartitions st = None
  /\ heap_live st = heap_live st0
  /\ g_gameCardStorage st = None
  /\ g_gameCardHandle st = 0
  /\ g_gameCardStorageCurrentArea st = GameCardStorageArea_None.

(** The cached header and root hash file system header pass the five
    checks of [gamecardLoadInfo]. *)
Definition info_validated (st : GcState) : Prop :=
  __builtin_bswap32 (header_magic (g_gameCardHeader st)) = GAMECARD_HEAD_MAGIC
  /\ g_gameCardCapacity st
     = gamecardGetCapacityFromRomSizeValue
         (header_rom_size (g_gameCardHeader st))
  /\ g_gameCardCapacity st <> 0
  /\ exists root,
       g_gameCardHfsRootHeader st = Some root
       /\ __builtin_bswap32 (hfs_magic root) = GAMECARD_HFS0_MAGIC
       /\ hfs_entry_count root <> 0
       /\ hfs_name_table_size root <> 0
       /\ sizeof_GameCardHashFileSystemHeader
          + hfs_entry_count root * sizeof_GameCardHashFileSystemEntry
          + hfs_name_table_size root
          <= header_partition_fs_header_size (g_gameCardHeader st).

(** Number of partition headers among the entries [i .. i + n - 1], and
    number of heap blocks the cache of the session holds. *)
Fixpoint count_headers (parts : Z -> GameCardHashFileSystemPartitionInfo)
    (n : nat) (i : Z) : Z :=
  match n with
  | O => 0
  | S n' =>
      (match pi_header (parts i) with Some _ => 1 | None => 0 end)
      + count_headers parts n' (i + 1)
  end.

Definition held_blocks (st : GcState) : Z :=
  match g_gameCardHfsRootHeader st with
  | Some root =>
      1 + match g_gameCardHfsPartitions st with
          | Some parts => count_headers parts (Z.to_nat (hfs_entry_count root)) 0
          | None => 0
          end
  | None => 0
  end
  + match g_gameCardHfsPartitions st with
    | Some _ => 1
    | None => 0
    end.

Definition header_flag (p : GameCardHashFileSystemPartitionInfo) : Z :=
  match pi_header p with Some _ => 1 | None => 0 end.

(** What reading the card leaves alone besides the storage state. *)
Definition heap_of (st : GcState) :=
  (g_gameCardInfoLoaded st, g_gameCardCapacity st, g_gameCardHfsRootHeader st,
   g_gameCardHfsPartitions st, heap_live st).

(** The byte at [j] of the logical linear address space: the normal area
    followed by the secure area. *)
Definition linear_byte (normal_size : Z) (area_data : Z -> Z -> Z) (j : Z) : Z :=
  if j <? normal_size then area_data 0 j else area_data 1 (j - normal_size).

(** The logical linear address space of the demo card. *)
Definition demo_card_byte (j : Z) : Z :=
  linear_byte demo_normal_size (image (demo_card_segments GameCardRomSize_1GiB)) j.

(** ** A console that works *)

(** Size of the storage area behind a partition of the gamecard storage. *)
Definition area_size (normal_size secure_size partition : Z) : Z :=
  if partition =? 0 then normal_size else secure_size.

(** [GoodConsole hos handle normal_size secure_size area_data]: the file
    system service hands out [handle], opens a storage with it and with no
    other handle, and serves every read that is aligned to the media unit
    and lies inside the area with the bytes [area_data] of that area.  The
    areas are not empty, are whole numbers of media units, and fit a 64-bit
    address space together. *)
Record GoodConsole (hos : Platform) (handle normal_size secure_size : Z)
    (area_data : Z -> Z -> Z) : Prop := mkGoodConsole {
  good_handle : handle <> 0;
  good_get_handle :
    forall evs, fsDeviceOperatorGetGameCardHandle hos evs = (0, handle);
  good_open :
    forall evs partition, fsOpenGameCardStorage hos evs handle partition = 0;
  good_open_only :
    forall evs h partition,
      h <> handle -> fsOpenGameCardStorage hos evs h partition <> 0;
  good_read :
    forall evs partition off size,
      0 <= off -> 0 <= size ->
      off mod GAMECARD_MEDIA_UNIT_SIZE = 0 ->
      size mod GAMECARD_MEDIA_UNIT_SIZE = 0 ->
      off + size <= area_size normal_size secure_size partition ->
      fst (fsStorageRead hos evs (Some partition) off size) = 0
      /\ forall j, 0 <= j < size ->
           snd (fsStorageRead hos evs (Some partition) off size) j
           = area_data partition (off + j);
  good_normal_size :
    0 < normal_size /\ normal_size mod GAMECARD_MEDIA_UNIT_SIZE = 0;
  good_secure_size :
    0 < secure_size /\ secure_size mod GAMECARD_MEDIA_UNIT_SIZE = 0;
  good_total_size : normal_size + secure_size < 2 ^ 64
}.

(** A session that can read the card: card inserted, area sizes known,
    read buffer allocated, and the storage object, when open, open on the
    area [g_gameCardStorageCurrentArea] names. *)
Definition readable_state (normal_size secure_size : Z) (st : GcState) : Prop :=
  g_gameCardInserted st = true
  /\ g_gameCardStorageNormalAreaSize st = normal_size
  /\ g_gameCardStorageSecureAreaSize st = secure_size
  /\ g_gameCardReadBuf st <> None
  /\ match g_gameCardStorage st with
     | Some partition =>
         g_gameCardStorageCurrentArea st = partition + 1
     | None => True
     end.

(** The aligned block that covers the part of a request that lies in the
    secure area is read in one go: that part is aligned, or its block fits
    the read buffer.  (A request that does not reach the secure area has no
    such part.) *)
Definition secure_part_in_one_read (normal_size read_size offset : Z) : Prop :=
  offset + read_size <= normal_size
  \/ (let base := Z.max offset normal_size - normal_size in
      let len := offset + read_size - Z.max offset normal_size in
      (base mod GAMECARD_MEDIA_UNIT_SIZE = 0
       /\ len mod GAMECARD_MEDIA_UNIT_SIZE = 0)
      \/ (base + len + 511) / 512 * 512 - base / 512 * 512
         <= GAMECARD_READ_BUFFER_SIZE).

(** ** gamecardExit (newer revision) *)

(** The calls [gamecardExit] makes to close what [gamecardInitialize]
    opened. *)
Inductive CloseEvent : Type :=
| EvExitEventSignal
| EvThreadJoin
| EvKernelEventClose
| EvEventNotifierClose
| EvDeviceOperatorClose.

(** [gamecardDetectionThreadFunc] from the exit event on. *)
Definition gamecardDetectionThreadFunc_exit (st : GcState) : GcState :=
  set_g_gameCardInserted false (gamecardFreeInfo st).

(** [gamecardDestroyDetectionThread]: the exit event is signalled and the
    thread joined, which lets the thread run to its end. *)
Definition gamecardDestroyDetectionThread (st : GcState)
  : list CloseEvent * GcState :=
  ([EvExitEventSignal; EvThreadJoin], gamecardDetectionThreadFunc_exit st).

Definition gamecardExit (st : GcState) : list CloseEvent * GcState :=
  let '(evs1, st) :=
    if g_gameCardDetectionThreadCreated st
    then let '(evs, st) := gamecardDestroyDetectionThread st in
         (evs, set_g_gameCardDetectionThreadCreated false st)
    else ([], st) in
  let '(evs2, st) :=
    if g_loadKernelEvent st
    then ([EvKernelEventClose], set_g_loadKernelEvent false st)
    else ([], st) in
  let '(evs3, st) :=
    if g_openEventNotifier st
    then ([EvEventNotifierClose], set_g_openEventNotifier false st)
    else ([], st) in
  let '(evs4, st) :=
    if g_openDeviceOperator st
    then ([EvDeviceOperatorClose], set_g_openDeviceOperator false st)
    else ([], st) in
  let st :=
    match g_gameCardReadBuf st with
    | Some _ => set_g_gameCardReadBuf None (free st)
    | None => st
    end in
  (evs1 ++ evs2 ++ evs3 ++ evs4, set_g_gamecardInterfaceInit false st).

(** ** A session, one operation at a time

    The operations that touch the card once the interface is initialised,
    taken one at a time, as under the mutex: a turn of the detection
    thread, a read, and the two accessors that call the console.  The
    first component of the state is the [prev_status] of the thread. *)
Inductive SessionOp : Type :=
| OpThreadTurn
| OpRead (obj : Bytes) (out : option Z) (read_size offset : Z)
| OpGetCertificate (out : bool)
| OpGetBundledFirmwareUpdateVersion (out : bool).

Definition run_op (hos : Platform) (op : SessionOp) (s : bool * GcState)
  : bool * GcState :=
  match op with
  | OpThreadTurn => gamecardDetectionThreadFunc_iteration hos (fst s) (snd s)
  | OpRead obj out read_size offset =>
      (fst s, snd (fst (gamecardRead hos (snd s) obj out read_size offset)))
  | OpGetCertificate out =>
      (fst s, snd (gamecardGetCertificate hos (snd s) out))
  | OpGetBundledFirmwareUpdateVersion out =>
      (fst s, snd (gamecardGetBundledFirmwareUpdateVersion hos (snd s) out))
  end.

Definition run_ops (hos : Platform) (ops : list SessionOp)
    (s : bool * GcState) : bool * GcState :=
  fold_left (fun s op => run_op hos op s) ops s.

(** The session from the start of the detection thread on. *)
Definition session_after (hos : Platform) (st0 : GcState)
    (ops : list SessionOp) : bool * GcState :=
  run_ops hos ops (gamecardDetectionThreadFunc_start hos st0).

(** A whole session: [gamecardInitialize], the detection thread and the
    operations when it succeeded, then [gamecardExit]. *)
Definition whole_session (hos : Platform) (st0 : GcState)
    (ops : list SessionOp) : list CloseEvent * GcState :=
  let '(ok, st1) := gamecardInitialize hos st0 in
  gamecardExit (if ok then snd (session_after hos st1 ops) else st1).

(** Nothing of a card is cached and nothing of the storage is open. *)
Definition nothing_cached (st : GcState) : Prop :=
  g_gameCardInfoLoaded st = false
  /\ g_gameCardHfsRootHeader st = None
  /\ g_gameCardHfsPartitions st = None
  /\ g_gameCardStorageNormalAreaSize st = 0
  /\ g_gameCardStorageSecureAreaSize st = 0
  /\ g_gameCardStorage st = None
  /\ g_gameCardHandle st = 0.

(** What a successful [gamecardLoadInfo] caches: the root header and, for
    each of its entries, the offset and size of the partition and a block
    for its header, whose size is a whole number of media units. *)
Definition partition_cached (hdr root : Bytes)
    (parts : Z -> GameCardHashFileSystemPartitionInfo) (i : Z) : Prop :=
  let fs_entry := sizeof_GameCardHashFileSystemHeader
                  + i * sizeof_GameCardHashFileSystemEntry in
  pi_offset (parts i)
  = u64 (u64 (header_partition_fs_header_address hdr
              + header_partition_fs_header_size hdr)
         + hfs_entry_offset root fs_entry)
  /\ pi_size (parts i) = hfs_entry_size root fs_entry
  /\ pi_size (parts i) <> 0
  /\ pi_header_size (parts i) mod GAMECARD_MEDIA_UNIT_SIZE = 0
  /\ pi_header (parts i) <> None.

Definition info_cached (st : GcState) : Prop :=
  exists root parts,
    g_gameCardHfsRootHeader st = Some root
    /\ g_gameCardHfsPartitions st = Some parts
    /\ forall i, 0 <= i < hfs_entry_count root ->
         partition_cached (g_gameCardHeader st) root parts i.

(** What holds of the session between two operations; [h0] is the number
    of heap blocks held beside those of the cache. *)
Definition session_invariant (h0 : Z) (s : bool * GcState) : Prop :=
  fst s = g_gameCardInserted (snd s)
  /\ heap_live (snd s) = h0 + held_blocks (snd s)
  /\ (g_gameCardInfoLoaded (snd s) = true ->
      g_gameCardInserted (snd s) = true
      /\ info_validated (snd s) /\ info_cached (snd s))
  /\ (g_gameCardInfoLoaded (snd s) = false -> nothing_cached (snd s)).

(** What [gamecardInitialize] acquires and [gamecardExit] gives back: the
    five flags and whether the read buffer is allocated. *)
Definition has_read_buffer (st : GcState) : bool :=
  match g_gameCardReadBuf st with Some _ => true | None => false end.

Definition resources_of (st : GcState) :=
  (g_gamecardInterfaceInit st, g_openDeviceOperator st, g_openEventNotifier st,
   g_loadKernelEvent st, g_gameCardDetectionThreadCreated st,
   has_read_buffer st).

Definition kept_of (st : GcState) := (resources_of st, g_gameCardInserted st).

(** The interface is not initialised: nothing is open, no buffer is
    allocated, nothing is cached and no card is recorded. *)
Definition session_closed (st : GcState) : Prop :=
  resources_of st = (false, false, false, false, false, false)
  /\ g_gameCardInserted st = false
  /\ nothing_cached st.

(** Entry [i] has a name inside the name table and this name is [name],
    letter case ignored: it starts with [name] and ends there. *)
Definition ci_name_equal (h : Bytes) (name : list Z) (i : Z) : bool :=
  (hfs_entry_name_offset h (hfs_entry_at i) <? hfs_name_table_size h)
  && prefix_of tolower name h (hfs_stored_name h i)
  && (byte_at h (hfs_stored_name h i + Z.of_nat (List.length name)) =? 0).

(** The root header of the demo card, as cached in [ready_state]. *)
Definition demo_root_bytes : Bytes :=
  match g_gameCardHfsRootHeader ready_state with
  | Some root => root
  | None => zeroed
  end.

(** ** Hash file system partitions (newer revision)

    The header of the newer revision is not among the sources: the values
    of the partition types [Root] and [Secure] and the macro
    [GAMECARD_HFS_PARTITION_NAME] it defines are parameters.  Results are
    [(ret, *out...)]; the outer [option] is [None] when the C function
    would read through a NULL pointer. *)
Section NewerPartitions.

Variables partition_type_root partition_type_secure : Z.
Variable partition_name : Z -> list Z.

(** The result is the header and the value stored through
    [out_hfs_partition_idx], if any. *)
Definition gamecardGetHashFileSystemPartitionHeader (st : GcState)
    (hfs_partition_type : Z) (out_hfs_partition_idx : bool)
  : option (option Bytes * option Z) :=
  if hfs_partition_type >? partition_type_secure then Some (None, None)
  else if negb (hfs_partition_type =? partition_type_root)
  then
    match gamecardGetHashFileSystemEntryIndexByName
            (g_gameCardHfsRootHeader st)
            (Some (partition_name hfs_partition_type)) true with
    | (true, Some hfs_partition_idx) =>
        match g_gameCardHfsPartitions st with
        | None => None
        | Some parts =>
            Some (pi_header (parts hfs_partition_idx),
                  if out_hfs_partition_idx then Some hfs_partition_idx
                  else None)
        end
    | _ => Some (None, None)
    end
  else Some (g_gameCardHfsRootHeader st, None).

Definition gamecardGetEntryCountFromHashFileSystemPartition (st : GcState)
    (hfs_partition_type : Z) (out_count : bool) : option (bool * option Z) :=
  if g_gameCardInserted st && g_gameCardInfoLoaded st && out_count
  then
    match gamecardGetHashFileSystemPartitionHeader st hfs_partition_type
            false with
    | None => None
    | Some (Some fs_header, _) => Some (true, Some (hfs_entry_count fs_header))
    | Some (None, _) => Some (false, None)
    end
  else Some (false, None).

(** The part of the two lookups that follows the search of the entry:
    [*out_offset] and [*out_size] for the entry [idx] of [fs_header];
    [hfs_partition_idx] is the local of that name, zero unless
    [gamecardGetHashFileSystemPartitionHeader] has set it. *)
Definition entry_offset_and_size (st : GcState) (hfs_partition_type : Z)
    (fs_header : Bytes) (hfs_partition_idx : Z) (idx fs_entry : Z)
    (out_offset out_size : bool) : option (bool * option Z * option Z) :=
  match g_gameCardHfsPartitions st with
  | None => if out_offset then None
            else Some (true, None,
                       if out_size then Some (hfs_entry_size fs_header fs_entry)
                       else None)
  | Some parts =>
      Some (true,
            if out_offset
            then Some (if hfs_partition_type =? partition_type_root
                       then pi_offset (parts idx)
                       else u64 (u64 (pi_offset (parts hfs_partition_idx)
                                      + pi_header_size (parts hfs_partition_idx))
                                 + hfs_entry_offset fs_header fs_entry))
            else None,
            if out_size then Some (hfs_entry_size fs_header fs_entry)
            else None)
  end.

(** [gamecardGetEntryInfoFromHashFileSystemPartitionByIndex] called with a
    NULL [out_name]. *)
Definition gamecardGetEntryInfoFromHashFileSystemPartitionByIndex
    (st : GcState) (hfs_partition_type idx : Z) (out_offset out_size : bool)
  : option (bool * option Z * option Z) :=
  if g_gameCardInserted st && g_gameCardInfoLoaded st
     && (out_offset || out_size)
  then
    match gamecardGetHashFileSystemPartitionHeader st hfs_partition_type
            true with
    | None => None
    | Some (None, _) => Some (false, None, None)
    | Some (Some fs_header, out_idx) =>
        let hfs_partition_idx :=
          match out_idx with Some i => i | None => 0 end in
        match gamecardGetHashFileSystemEntryByIndex (Some fs_header) idx with
        | None => Some (false, None, None)
        | Some fs_entry =>
            entry_offset_and_size st hfs_partition_type fs_header
              hfs_partition_idx idx fs_entry out_offset out_size
        end
    end
  else Some (false, None, None).

Definition gamecardGetEntryInfoFromHashFileSystemPartitionByName
    (st : GcState) (hfs_partition_type : Z) (name : option (list Z))
    (out_offset out_size : bool) : option (bool * option Z * option Z) :=
  if g_gameCardInserted st && g_gameCardInfoLoaded st
     && (out_offset || out_size)
  then
    match gamecardGetHashFileSystemPartitionHeader st hfs_partition_type
            true with
    | None => None
    | Some (None, _) => Some (false, None, None)
    | Some (Some fs_header, out_idx) =>
        let hfs_partition_idx :=
          match out_idx with Some i => i | None => 0 end in
        match gamecardGetHashFileSystemEntryIndexByName (Some fs_header)
                name true with
        | (true, Some fs_entry_idx) =>
            match gamecardGetHashFileSystemEntryByIndex (Some fs_header)
                    fs_entry_idx with
            | None => Some (false, None, None)
            | Some fs_entry =>
                entry_offset_and_size st hfs_partition_type fs_header
                  hfs_partition_idx fs_entry_idx fs_entry out_offset out_size
            end
        | _ => Some (false, None, None)
        end
    end
  else Some (false, None, None).

End NewerPartitions.

(** Partition types and names to run the lookups of the newer revision
    with: [Root] is 0 and [Secure] is 4. *)
Definition demo_partition_name (x : Z) : list Z :=
  bytes_of_string
    (if x =? 0 then "root"%string
     else if x =? 1 then "update"%string
     else if x =? 2 then "logo"%string
     else if x =? 3 then "normal"%string
     else if x =? 4 then "secure"%string
     else "unknown"%string).

(** ** pfs.h: names by index *)

(** The [name_offset] of the entry a pointer into the header block points
    to. *)
Definition pfs_name_offset_at (h : Bytes) (fs_entry : Z) : Z :=
  le32 h (fs_entry + 16).

Definition pfs_entry_at (h : Bytes) (fs_entry : Z) : PartitionFileSystemEntry :=
  mkPfsEntry (le64 h fs_entry) (le64 h (fs_entry + 8))
             (pfs_name_offset_at h fs_entry).

Definition pfsGetEntryNameByIndex (ctx : option PartitionFileSystemContext)
    (idx : Z) : option Z :=
  match pfsGetEntryByIndex ctx idx, pfsGetNameTable ctx with
  | Some fs_entry, Some name_table =>
      match ctx with
      | Some c =>
          match pfs_header c with
          | Some h => Some (name_table + pfs_name_offset_at h fs_entry)
          | None => None
          end
      | None => None
      end
  | _, _ => None
  end.

(** ** nca.h: hash data offsets *)

Definition NCA_HIERARCHICAL_SHA256_MAX_REGION_COUNT : Z := 5.
Definition NCA_IVFC_MAGIC : Z := 0x49564643.
Definition NCA_IVFC_MAX_LEVEL_COUNT : Z := 7.
Definition NCA_IVFC_LEVEL_COUNT : Z := NCA_IVFC_MAX_LEVEL_COUNT - 1.

Record NcaRegion : Type := mkNcaRegion {
  region_offset : Z;
  region_size : Z
}.

(** [NcaHierarchicalSha256Data] without the master hash; [hash_region]
    holds the [NCA_HIERARCHICAL_SHA256_MAX_REGION_COUNT] elements of the
    array. *)
Record NcaHierarchicalSha256Data : Type := mkNcaHierarchicalSha256Data {
  hash_block_size : Z;
  hash_region_count : Z;
  hash_region : list NcaRegion
}.

(** The loop of [ncaValidateHierarchicalSha256Offsets] over the [n]
    regions from [i] on; [None] is a read past the end of the array. *)
Fixpoint sha256_offsets_loop (hash_region : list NcaRegion) (section_size : Z)
    (n : nat) (i : nat) : option bool :=
  match n with
  | O => Some true
  | S n' =>
      match nth_error hash_region i with
      | None => None
      | Some r =>
          if (region_offset r >=? section_size) || (region_size r =? 0)
             || (u64 (region_offset r + region_size r) >? section_size)
          then Some false
          else sha256_offsets_loop hash_region section_size n' (S i)
      end
  end.

Definition ncaValidateHierarchicalSha256Offsets
    (hierarchical_sha256_data : option NcaHierarchicalSha256Data)
    (section_size : Z) : option bool :=
  match hierarchical_sha256_data with
  | None => Some false
  | Some d =>
      if (section_size =? 0) || (hash_block_size d =? 0)
         || (hash_region_count d =? 0)
         || (hash_region_count d >? NCA_HIERARCHICAL_SHA256_MAX_REGION_COUNT)
      then Some false
      else sha256_offsets_loop (hash_region d) section_size
             (Z.to_nat (hash_region_count d)) 0
  end.

Record NcaHierarchicalIntegrityVerificationLevelInformation : Type :=
  mkNcaLevelInformation {
  level_offset : Z;
  level_size : Z;
  level_block_order : Z
}.

(** [NcaIntegrityMetaInfo] with the fields of [info_level_hash] the
    validation reads; [level_information] holds the [NCA_IVFC_LEVEL_COUNT]
    elements of the array. *)
Record NcaIntegrityMetaInfo : Type := mkNcaIntegrityMetaInfo {
  ivfc_magic : Z;
  ivfc_version : Z;
  master_hash_size : Z;
  max_level_count : Z;
  level_information : list NcaHierarchicalIntegrityVerificationLevelInformation
}.

Fixpoint integrity_offsets_loop
    (level_information :
       list NcaHierarchicalIntegrityVerificationLevelInformation)
    (section_size : Z) (n : nat) (i : nat) : option bool :=
  match n with
  | O => Some true
  | S n' =>
      match nth_error level_information i with
      | None => None
      | Some l =>
          if (level_offset l >=? section_size) || (level_size l =? 0)
             || (level_block_order l =? 0)
             || (u64 (level_offset l + level_size l) >? section_size)
          then Some false
          else integrity_offsets_loop level_information section_size n' (S i)
      end
  end.

(** [SHA256_HASH_SIZE] is defined by libnx. *)
Definition ncaValidateHierarchicalIntegrityOffsets (SHA256_HASH_SIZE : Z)
    (integrity_meta_info : option NcaIntegrityMetaInfo) (section_size : Z)
  : option bool :=
  match integrity_meta_info with
  | None => Some false
  | Some m =>
      if (section_size =? 0)
         || negb (__builtin_bswap32 (ivfc_magic m) =? NCA_IVFC_MAGIC)
         || negb (master_hash_size m =? SHA256_HASH_SIZE)
         || negb (max_level_count m =? NCA_IVFC_MAX_LEVEL_COUNT)
      then Some false
      else integrity_offsets_loop (level_information m) section_size
             (Z.to_nat NCA_IVFC_LEVEL_COUNT) 0
  end.

(** ** util.h *)

(** [round_up(x, y)] on operands of type [u64]; [None] is the division by
    zero of [x % y]. *)
Definition round_up (x y : Z) : option Z :=
  if y =? 0 then None
  else Some (u64 (x + u64 (y - x mod y) mod y)).

(** Hash data whose first region starts inside a section of two bytes and
    has a size of 2^64 - 1. *)
Definition demo_sha256_data : NcaHierarchicalSha256Data :=
  mkNcaHierarchicalSha256Data 0x1000 1
    [mkNcaRegion 1 (2 ^ 64 - 1); mkNcaRegion 0 0; mkNcaRegion 0 0;
     mkNcaRegion 0 0; mkNcaRegion 0 0].

Definition demo_integrity_meta_info : NcaIntegrityMetaInfo :=
  mkNcaIntegrityMetaInfo 0x43465649 0x20000 0x20 7
    [mkNcaLevelInformation 0 0x4000 14; mkNcaLevelInformation 0x4000 0x4000 14;
     mkNcaLevelInformation 0x8000 0x4000 14;
     mkNcaLevelInformation 0xC000 0x4000 14;
     mkNcaLevelInformation 0x10000 0x4000 14;
     mkNcaLevelInformation 0x14000 (2 ^ 64 - 0x14000) 14].

(** A console like [demo_platform] whose file system service is not ready
    at the first call of [fsOpenDeviceOperator]: it fails while fewer than
    two events have been logged. *)
Definition busy_platform : Platform :=
  mkPlatform
    (fsOpenGameCardStorage demo_platform)
    (fsDeviceOperatorGetGameCardHandle demo_platform)
    (fsStorageRead demo_platform)
    (fsStorageGetSize demo_platform)
    (fsDeviceOperatorIsGameCardInserted demo_platform)
    (alloc_succeeds demo_platform)
    (fun evs => if (List.length evs <? 2)%nat then 0x7D402 else 0)
    (fsOpenGameCardDetectionEventNotifier demo_platform)
    (fsEventNotifierGetEventHandle demo_platform)
    (thrd_create_succeeds demo_platform)
    (fsDeviceOperatorGetGameCardDeviceCertificate demo_platform)
    (fsDeviceOperatorUpdatePartitionInfo demo_platform)
    (utilsGetCustomFirmwareType_is_SXOS demo_platform).

(** ** Proof automation *)

(** The equalities of the fields behind an equality of [session_of]. *)
Ltac session_fields H :=
  unfold session_of in H; injection H as ? ? ? ? ? ? ? ? ? ? ? ? ? ?.

(** Two normalisations of states built from assignments: [st_norm]
    unfolds the assignments altogether, [st_simpl] only reads fields
    through them. *)
Ltac st_norm :=
  cbv [free log gamecardCloseHandle serviceIsActive set_g_gamecardInterfaceInit
       set_g_openDeviceOperator set_g_openEventNotifier
       set_g_loadKernelEvent set_g_gameCardDetectionThreadCreated
       set_g_gameCardInserted set_g_gameCardInfoLoaded set_g_gameCardHandle
       set_g_gameCardStorage set_g_gameCardStorageCurrentArea
       set_g_gameCardReadBuf set_g_gameCardHeader
       set_g_gameCardStorageNormalAreaSize
       set_g_gameCardStorageSecureAreaSize set_g_gameCardCapacity
       set_g_gameCardHfsRootHeader set_g_gameCardHfsPartitions set_heap_live
       set_trace g_gamecardInterfaceInit g_openDeviceOperator
       g_openEventNotifier g_loadKernelEvent
       g_gameCardDetectionThreadCreated g_gameCardInserted
       g_gameCardInfoLoaded g_gameCardHandle g_gameCardStorage
       g_gameCardStorageCurrentArea g_gameCardReadBuf g_gameCardHeader
       g_gameCardStorageNormalAreaSize g_gameCardStorageSecureAreaSize
       g_gameCardCapacity g_gameCardHfsRootHeader g_gameCardHfsPartitions
       heap_live trace] in *.

Ltac st_simpl :=
  cbn [free log gamecardCloseHandle serviceIsActive set_g_gamecardInterfaceInit
       set_g_openDeviceOperator set_g_openEventNotifier
       set_g_loadKernelEvent set_g_gameCardDetectionThreadCreated
       set_g_gameCardInserted set_g_gameCardInfoLoaded set_g_gameCardHandle
       set_g_gameCardStorage set_g_gameCardStorageCurrentArea
       set_g_gameCardReadBuf set_g_gameCardHeader
       set_g_gameCardStorageNormalAreaSize
       set_g_gameCardStorageSecureAreaSize set_g_gameCardCapacity
       set_g_gameCardHfsRootHeader set_g_gameCardHfsPartitions set_heap_live
       set_trace g_gamecardInterfaceInit g_openDeviceOperator
       g_openEventNotifier g_loadKernelEvent
       g_gameCardDetectionThreadCreated g_gameCardInserted
       g_gameCardInfoLoaded g_gameCardHandle g_gameCardStorage
       g_gameCardStorageCurrentArea g_gameCardReadBuf g_gameCardHeader
       g_gameCardStorageNormalAreaSize g_gameCardStorageSecureAreaSize
       g_gameCardCapacity g_gameCardHfsRootHeader g_gameCardHfsPartitions
       heap_live trace] in *.

(** * Properties *)

(** ** pfsGetEntryName *)

Lemma pfsGetNameTable_Some :
  forall ctx name_table,
    pfsGetNameTable ctx = Some name_table ->
    exists c h,
      ctx = Some c /\ pfs_header c = Some h /\ pfs_header_size c <> 0
      /\ pfs_entry_count h <> 0
      /\ name_table = sizeof_PartitionFileSystemHeader
                      + pfs_entry_count h * sizeof_PartitionFileSystemEntry.
Proof.
  intros ctx name_table. unfold pfsGetNameTable, pfsGetEntryCount.
  destruct ctx as [c|]; simpl; [|discriminate].
  destruct (pfs_header_size c =? 0) eqn:Hs; simpl; [discriminate|].
  destruct (pfs_header c) as [h|] eqn:Hh; simpl; [|discriminate].
  destruct (pfs_entry_count h =? 0) eqn:Hc; [discriminate|].
  intros H. inversion H; subst. exists c, h.
  apply Z.eqb_neq in Hs. apply Z.eqb_neq in Hc. auto.
Qed.

(** The header block is only read through a context and a header pointer
    that are not NULL: whenever the name table exists, both do. *)
Lemma pfsGetEntryName_no_null_dereference :
  forall ctx name_table,
    pfsGetNameTable ctx = Some name_table ->
    exists c h, ctx = Some c /\ pfs_header c = Some h.
Proof.
  intros ctx nt H. destruct (pfsGetNameTable_Some _ _ H) as (c & h & ? & ? & _).
  eauto.
Qed.

(** C10.  [pfsGetEntryName] is a total function that returns NULL when the
    context is NULL, when the context has no header block, a zero header
    size or no entry (the name table is then invalid), when the entry is
    NULL, when the entry's [name_offset] is greater than or equal to the
    header's [name_table_size], and when the name at that offset is empty;
    a pointer it returns is the name table plus a [name_offset] that lies
    inside the name table, and the name there is not empty. *)
Theorem pfsGetEntryName_bounds_checked :
  forall (ctx : option PartitionFileSystemContext)
         (fs_entry : option PartitionFileSystemEntry),
    (ctx = None -> pfsGetEntryName ctx fs_entry = None)
    /\ (forall c, ctx = Some c ->
          pfs_header c = None \/ pfs_header_size c = 0 ->
          pfsGetEntryName ctx fs_entry = None)
    /\ (forall c h, ctx = Some c -> pfs_header c = Some h ->
          pfs_entry_count h = 0 -> pfsGetEntryName ctx fs_entry = None)
    /\ (fs_entry = None -> pfsGetEntryName ctx fs_entry = None)
    /\ (forall c h e, ctx = Some c -> pfs_header c = Some h ->
          fs_entry = Some e ->
          pfs_entry_name_offset e >= pfs_name_table_size h ->
          pfsGetEntryName ctx fs_entry = None)
    /\ (forall c h e name_table, ctx = Some c -> pfs_header c = Some h ->
          fs_entry = Some e -> pfsGetNameTable ctx = Some name_table ->
          byte_at h (name_table + pfs_entry_name_offset e) = 0 ->
          pfsGetEntryName ctx fs_entry = None)
    /\ (forall p, pfsGetEntryName ctx fs_entry = Some p ->
          exists c h e,
            ctx = Some c /\ pfs_header c = Some h /\ fs_entry = Some e
            /\ pfs_entry_name_offset e < pfs_name_table_size h
            /\ p = sizeof_PartitionFileSystemHeader
                   + pfs_entry_count h * sizeof_PartitionFileSystemEntry
                   + pfs_entry_name_offset e
            /\ byte_at h p <> 0).
Proof.
  intros ctx fs_entry. repeat split.
  - intros ->. reflexivity.
  - intros c -> [Hh | Hs]; unfold pfsGetEntryName, pfsGetNameTable; simpl.
    + rewrite Hh. destruct (pfs_header_size c =? 0); reflexivity.
    + rewrite Hs. reflexivity.
  - intros c h -> Hh Hc. unfold pfsGetEntryName, pfsGetNameTable. simpl.
    rewrite Hh, Hc. destruct (pfs_header_size c =? 0); reflexivity.
  - intros ->. unfold pfsGetEntryName.
    destruct (pfsGetNameTable ctx); reflexivity.
  - intros c h e -> Hh -> Hge. unfold pfsGetEntryName.
    destruct (pfsGetNameTable (Some c)); [|reflexivity].
    rewrite Hh.
    assert ((pfs_entry_name_offset e >=? pfs_name_table_size h) = true) as ->
      by (apply Z.geb_le; lia).
    reflexivity.
  - intros c h e nt -> Hh -> Hnt Hz. unfold pfsGetEntryName.
    rewrite Hnt, Hh, Hz. rewrite Z.eqb_refl, orb_true_r. reflexivity.
  - intros p H. unfold pfsGetEntryName in H.
    destruct (pfsGetNameTable ctx) as [nt|] eqn:Hnt; [|discriminate].
    destruct fs_entry as [e|]; [|discriminate].
    destruct (pfsGetNameTable_Some _ _ Hnt) as (c & h & -> & Hh & _ & _ & ->).
    rewrite Hh in H.
    destruct (pfs_entry_name_offset e >=? pfs_name_table_size h) eqn:Hge;
      [discriminate|].
    cbn [orb] in H.
    destruct (byte_at h
                (sizeof_PartitionFileSystemHeader
                 + pfs_entry_count h * sizeof_PartitionFileSystemEntry
                 + pfs_entry_name_offset e) =? 0) eqn:Hb; [discriminate|].
    inversion H; subst. exists c, h, e.
    apply Z.eqb_neq in Hb.
    assert (pfs_entry_name_offset e < pfs_name_table_size h).
    { destruct (Z.geb_spec (pfs_entry_name_offset e) (pfs_name_table_size h));
        [discriminate | lia]. }
    auto 10.
Qed.

(** On [demo_pfs_context] the entry "main" has its name at byte 0x40 of the
    header block, an entry whose [name_offset] is the size of the name table
    has none, and neither has the entry whose name is empty. *)
Lemma pfsGetEntryName_bounds_checked_witness :
  pfsGetEntryName (Some demo_pfs_context) (Some (mkPfsEntry 0 0x100 0)) = Some 0x40
  /\ pfsGetEntryName (Some demo_pfs_context) (Some (mkPfsEntry 0 0x100 8)) = None
  /\ pfsGetEntryName (Some demo_pfs_context) (Some (mkPfsEntry 0x100 0x80 7)) = None.
Proof.
  split; [reflexivity|]. split.
  - apply (proj1 (proj2 (proj2 (proj2 (proj2
            (pfsGetEntryName_bounds_checked (Some demo_pfs_context)
               (Some (mkPfsEntry 0 0x100 8)))))))
             demo_pfs_context demo_pfs_header (mkPfsEntry 0 0x100 8)
             eq_refl eq_refl eq_refl).
    vm_compute. discriminate.
  - apply (proj1 (proj2 (proj2 (proj2 (proj2 (proj2
            (pfsGetEntryName_bounds_checked (Some demo_pfs_context)
               (Some (mkPfsEntry 0x100 0x80 7))))))))
             demo_pfs_context demo_pfs_header (mkPfsEntry 0x100 0x80 7) 0x40
             eq_refl eq_refl eq_refl eq_refl).
    reflexivity.
Defined.

(** ** gamecardInitialize *)

Lemma gamecardInitialize_true_sets_flag :
  forall hos st st1,
    gamecardInitialize hos st = (true, st1) ->
    g_gamecardInterfaceInit st1 = true.
Proof.
  intros hos st st1. unfold gamecardInitialize, calloc,
    gamecardCreateDetectionThread.
  destruct (g_gamecardInterfaceInit st) eqn:Hinit.
  - intros H. inversion H; subst. exact Hinit.
  - destruct (alloc_succeeds hos (trace st) GAMECARD_READ_BUFFER_SIZE);
      [|discriminate].
    repeat match goal with
           | |- context [if R_FAILED ?rc then _ else _] =>
               destruct (R_FAILED rc); [discriminate|]
           | |- context [if negb ?b then _ else _] =>
               destruct b; simpl negb; cbv iota; [|discriminate]
           end.
    intros H. inversion H; subst. reflexivity.
Qed.

(** C9.  [gamecardInitialize] is idempotent.  Once the interface is
    initialised a call returns [true] and the whole state, the record of
    the calls to the console included, is the one before the call: nothing
    is allocated, opened or spawned.  In particular a call that follows a
    successful one does so, whatever the console would answer. *)
Theorem gamecardInitialize_idempotent :
  forall (hos : Platform) (st : GcState),
    (g_gamecardInterfaceInit st = true ->
     gamecardInitialize hos st = (true, st))
    /\ (forall hos0 st0,
          gamecardInitialize hos0 st0 = (true, st) ->
          gamecardInitialize hos st = (true, st)).
Proof.
  intros hos st.
  assert (g_gamecardInterfaceInit st = true ->
          gamecardInitialize hos st = (true, st)) as Hflag.
  { intros H. unfold gamecardInitialize. rewrite H. reflexivity. }
  split; [exact Hflag|].
  intros hos0 st0 H. apply Hflag.
  exact (gamecardInitialize_true_sets_flag _ _ _ H).
Qed.

(** The first call on the demo console succeeds and allocates the read
    buffer; the second one, made on a console that would refuse
    everything, returns [true] and changes nothing. *)
Lemma gamecardInitialize_idempotent_witness :
  gamecardInitialize demo_platform initial_state = (true, initialized_state)
  /\ gamecardInitialize stale_platform initialized_state
     = (true, initialized_state).
Proof.
  split; [reflexivity|].
  apply (proj2 (gamecardInitialize_idempotent stale_platform initialized_state)
           demo_platform initial_state).
  reflexivity.
Defined.

(** ** gamecardGetHandle *)

Lemma handle_attempts_open_attempts :
  forall n ok evs, handle_attempts n ok evs -> open_attempts evs = n.
Proof.
  induction 1; simpl; congruence.
Qed.

(** The retry loop, for any number of tries: it makes at most [tries]
    attempts; when none succeeds it makes all of them and [rc1] is the
    failure code of the last one. *)
Lemma gamecardGetHandle_loop_spec :
  forall hos tries rc1 rc2 st,
    exists n ok evs,
      (n <= tries)%nat
      /\ handle_attempts n ok evs
      /\ trace (snd (gamecardGetHandle_loop hos tries rc1 rc2 st))
         = trace st ++ evs
      /\ (ok = true ->
          fst (fst (gamecardGetHandle_loop hos tries rc1 rc2 st)) = 0)
      /\ (ok = false ->
          n = tries
          /\ (tries <> O ->
              fst (fst (gamecardGetHandle_loop hos tries rc1 rc2 st)) <> 0)).
Proof.
  intros hos tries. induction tries as [|tries IH]; intros rc1 rc2 st.
  - exists O, false, []. simpl. rewrite app_nil_r.
    repeat split; auto using attempts_none; try discriminate; congruence.
  - cbn [gamecardGetHandle_loop].
    destruct (R_SUCCEEDED
                (fsOpenGameCardStorage hos (trace st) (g_gameCardHandle st) 0))
      eqn:Hrc.
    + exists 1%nat, true, [EvOpenGameCardStorage (g_gameCardHandle st) 0 0;
                           EvTmpStorageClose].
      unfold R_SUCCEEDED in Hrc. apply Z.eqb_eq in Hrc. rewrite Hrc. simpl.
      rewrite <- app_assoc. simpl.
      repeat split; auto using attempts_opened; try discriminate; lia.
    + destruct (fsDeviceOperatorGetGameCardHandle hos _) as [rc2' h2] eqn:Hget.
      match goal with
      | |- context [gamecardGetHandle_loop hos tries ?a ?b ?s] =>
          destruct (IH a b s) as (n & ok & evs & Hn & Hshape & Htr & Hok & Hko)
      end.
      exists (S n), ok,
        (EvOpenGameCardStorage (g_gameCardHandle st) 0
           (fsOpenGameCardStorage hos (trace st) (g_gameCardHandle st) 0)
           :: EvCloseHandle (g_gameCardHandle st)
           :: EvGetGameCardHandle rc2' h2 :: evs).
      unfold R_SUCCEEDED in Hrc. apply Z.eqb_neq in Hrc.
      split; [lia|]. split; [apply attempts_retry; assumption|].
      split.
      { rewrite Htr. simpl. repeat rewrite <- app_assoc. reflexivity. }
      split; [exact Hok|].
      intros Hf. destruct (Hko Hf) as [-> Hlast]. split; [reflexivity|].
      intros _. destruct tries as [|tries'].
      * simpl. exact Hrc.
      * apply Hlast. discriminate.
Qed.




(** ** gamecardReadStorageArea: rejected requests *)

Lemma read_fuel_S : forall read_size, exists n, read_fuel read_size = S n.
Proof.
  intros. unfold read_fuel. eauto.
Qed.

(** C8.  With a zero [read_size] or a NULL [out], [gamecardReadStorageArea]
    and [gamecardRead] return [false] and leave the state and the
    destination as they were, whatever the offset and the state of the
    session: no storage is opened and no storage read is issued, the record
    of the calls to the console being part of the state. *)
Theorem gamecardReadStorageArea_rejects_empty_request :
  forall (hos : Platform) (st : GcState) (obj : Bytes) (out : option Z)
         (read_size offset : Z) (lock : bool),
    read_size = 0 \/ out = None ->
    gamecardReadStorageArea hos st obj out read_size offset lock
    = (false, st, obj)
    /\ gamecardRead hos st obj out read_size offset = (false, st, obj).
Proof.
  intros hos st obj out read_size offset lock H.
  assert (forall l, gamecardReadStorageArea hos st obj out read_size offset l
                    = (false, st, obj)) as Hall.
  { intros l. unfold gamecardReadStorageArea.
    destruct (read_fuel_S read_size) as [n ->].
    cbn [gamecardReadStorageArea_rec].
    destruct out as [out_u8|]; [|reflexivity].
    destruct H as [-> | H]; [|discriminate].
    rewrite Z.eqb_refl.
    repeat rewrite orb_true_r. cbn [orb]. reflexivity. }
  split; [apply Hall | apply (Hall true)].
Qed.

(** With the demo card loaded, an empty request at offset 0x200 and a
    request of one sector into a NULL buffer both fail and leave the
    session untouched. *)
Lemma gamecardReadStorageArea_rejects_empty_request_witness :
  gamecardIsReady ready_state = true
  /\ gamecardRead demo_platform ready_state zeroed (Some 0) 0 0x200
     = (false, ready_state, zeroed)
  /\ gamecardRead demo_platform ready_state zeroed None 0x200 0x200
     = (false, ready_state, zeroed).
Proof.
  split; [reflexivity|]. split.
  - apply (gamecardReadStorageArea_rejects_empty_request demo_platform
             ready_state zeroed (Some 0) 0 0x200 true (or_introl eq_refl)).
  - apply (gamecardReadStorageArea_rejects_empty_request demo_platform
             ready_state zeroed None 0x200 0x200 true (or_intror eq_refl)).
Defined.

(** ** Public accessors *)

(** The claim that every accessor fails whenever [gamecardIsReady] is
    [false] does not hold of [gamecardGetCertificate] and
    [gamecardGetBundledFirmwareUpdateVersion]: in [loading_state] no card is
    ready, and both return [true]. *)
Lemma accessors_not_gated_by_readiness :
  gamecardIsReady loading_state = false
  /\ fst (gamecardGetCertificate demo_platform loading_state true) = true
  /\ fst (gamecardGetBundledFirmwareUpdateVersion demo_platform loading_state
            true) = (true, Some 0x40000).
Proof.
  repeat split.
Qed.

(** C6, amended.  [gamecardIsReady] is [true] exactly when a card is
    inserted and its information is loaded.  [gamecardGetHeader],
    [gamecardGetTotalSize], [gamecardGetTrimmedSize] and
    [gamecardGetRomCapacity] return [false] and store nothing whenever
    [gamecardIsReady] is [false].  [gamecardGetCertificate] and
    [gamecardGetBundledFirmwareUpdateVersion] are gated by the insertion
    flag and the gamecard handle instead: they return [false], without
    calling the console, whenever no card is inserted or the handle is
    zero. *)
Theorem accessors_fail_without_card :
  forall (hos : Platform) (st : GcState) (out : bool),
    (gamecardIsReady st = true <->
     g_gameCardInserted st = true /\ g_gameCardInfoLoaded st = true)
    /\ (gamecardIsReady st = false ->
        gamecardGetHeader st out = (false, None)
        /\ gamecardGetTotalSize st out = (false, None)
        /\ gamecardGetTrimmedSize st out = (false, None)
        /\ gamecardGetRomCapacity st out = (false, None))
    /\ (g_gameCardInserted st = false \/ g_gameCardHandle st = 0 ->
        gamecardGetCertificate hos st out = (false, st)
        /\ gamecardGetBundledFirmwareUpdateVersion hos st out
           = (false, None, st)).
Proof.
  intros hos st out. split; [|split].
  - unfold gamecardIsReady. apply andb_true_iff.
  - unfold gamecardIsReady, gamecardGetHeader, gamecardGetTotalSize,
      gamecardGetTrimmedSize, gamecardGetRomCapacity.
    intros ->. simpl. auto.
  - unfold gamecardGetCertificate, gamecardGetBundledFirmwareUpdateVersion.
    intros [-> | ->]; simpl.
    + auto.
    + rewrite andb_false_r. simpl. auto.
Qed.

(** While the card is being loaded the four cached fields are refused;
    after [gamecardFreeInfo] the handle is zero and the certificate is
    refused as well. *)
Lemma accessors_fail_without_card_witness :
  gamecardGetHeader loading_state true = (false, None)
  /\ gamecardGetCertificate demo_platform
       (gamecardFreeInfo loading_state) true
     = (false, gamecardFreeInfo loading_state).
Proof.
  split.
  - apply (proj1 (proj2 (accessors_fail_without_card demo_platform
                           loading_state true))).
    reflexivity.
  - apply (proj2 (proj2 (accessors_fail_without_card demo_platform
                           (gamecardFreeInfo loading_state)
                           true))).
    right. reflexivity.
Defined.

(** ** Hash file system name lookups *)

Lemma find_first_Some :
  forall p n i j,
    find_first p n i = Some j <->
    i <= j < i + Z.of_nat n /\ p j = true
    /\ forall k, i <= k < j -> p k = false.
Proof.
  intros p n. induction n as [|n IH]; intros i j.
  - simpl. split; [discriminate | lia].
  - cbn [find_first]. destruct (p i) eqn:Hp.
    + split.
      * intros H. inversion H; subst.
        split; [lia|]. split; [exact Hp|]. intros k Hk. lia.
      * intros (Hr & Hj & Hfirst).
        destruct (Z.eq_dec i j) as [-> | Hne]; [reflexivity|].
        rewrite (Hfirst i) in Hp by lia. discriminate.
    + rewrite IH. split.
      * intros (Hr & Hj & Hfirst).
        split; [lia|]. split; [exact Hj|].
        intros k Hk. destruct (Z.eq_dec k i) as [-> | Hne]; [exact Hp|].
        apply Hfirst. lia.
      * intros (Hr & Hj & Hfirst).
        assert (i <> j) by (intros ->; congruence).
        split; [lia|]. split; [exact Hj|].
        intros k Hk. apply Hfirst. lia.
Qed.

Lemma find_first_None :
  forall p n i,
    find_first p n i = None <->
    forall k, i <= k < i + Z.of_nat n -> p k = false.
Proof.
  intros p n. induction n as [|n IH]; intros i.
  - simpl. split; [intros _ k Hk; lia | reflexivity].
  - cbn [find_first]. destruct (p i) eqn:Hp.
    + split; [discriminate|]. intros H. rewrite (H i) in Hp by lia.
      discriminate.
    + rewrite IH. split.
      * intros H k Hk. destruct (Z.eq_dec k i) as [-> | Hne]; [exact Hp|].
        apply H. lia.
      * intros H k Hk. apply H. lia.
Qed.

Lemma forallb_agree :
  forall (A : Type) (f g : A -> bool) (l : list A),
    (forall x, In x l -> f x = g x) -> forallb f l = forallb g l.
Proof.
  intros A f g l. induction l as [|a l IH]; intros H; simpl; [reflexivity|].
  rewrite (H a) by (left; reflexivity). f_equal. apply IH.
  intros x Hx. apply H. right. exact Hx.
Qed.

Lemma tolower_zero : forall c, tolower c = 0 -> c = 0.
Proof.
  intros c. unfold tolower.
  destruct ((65 <=? c) && (c <=? 90)) eqn:H; [|auto].
  apply andb_true_iff in H. destruct H as [H1 H2].
  apply Z.leb_le in H1. lia.
Qed.

(** Within the length of a string that has no zero byte there,
    [strncasecmp] and [strncmp] compare byte by byte. *)
Lemma strncasecmp_prefix :
  forall s1 p1 s2 p2 n a,
    (forall k, (a <= k < a + n)%nat -> byte_at s2 (p2 + Z.of_nat k) <> 0) ->
    (strncasecmp s1 (p1 + Z.of_nat a) s2 (p2 + Z.of_nat a) n =? 0)
    = forallb (fun k => tolower (byte_at s1 (p1 + Z.of_nat k))
                        =? tolower (byte_at s2 (p2 + Z.of_nat k)))
              (seq a n).
Proof.
  intros s1 p1 s2 p2 n. induction n as [|n IH]; intros a Hnz.
  - reflexivity.
  - cbn [strncasecmp seq forallb].
    destruct (tolower (byte_at s1 (p1 + Z.of_nat a))
              =? tolower (byte_at s2 (p2 + Z.of_nat a))) eqn:Heq.
    + destruct (tolower (byte_at s2 (p2 + Z.of_nat a)) =? 0) eqn:Hz.
      * apply Z.eqb_eq in Hz. apply tolower_zero in Hz.
        exfalso. apply (Hnz a); [lia | exact Hz].
      * cbn [andb].
        replace (p1 + Z.of_nat a + 1) with (p1 + Z.of_nat (S a)) by lia.
        replace (p2 + Z.of_nat a + 1) with (p2 + Z.of_nat (S a)) by lia.
        apply IH. intros k Hk. apply Hnz. lia.
    + cbn [andb]. apply Z.eqb_neq in Heq. apply Z.eqb_neq. lia.
Qed.

Lemma strncmp_prefix :
  forall s1 p1 s2 p2 n a,
    (forall k, (a <= k < a + n)%nat -> byte_at s2 (p2 + Z.of_nat k) <> 0) ->
    (strncmp s1 (p1 + Z.of_nat a) s2 (p2 + Z.of_nat a) n =? 0)
    = forallb (fun k => byte_at s1 (p1 + Z.of_nat k)
                        =? byte_at s2 (p2 + Z.of_nat k))
              (seq a n).
Proof.
  intros s1 p1 s2 p2 n. induction n as [|n IH]; intros a Hnz.
  - reflexivity.
  - cbn [strncmp seq forallb].
    destruct (byte_at s1 (p1 + Z.of_nat a) =? byte_at s2 (p2 + Z.of_nat a))
      eqn:Heq.
    + destruct (byte_at s2 (p2 + Z.of_nat a) =? 0) eqn:Hz.
      * apply Z.eqb_eq in Hz. exfalso. apply (Hnz a); [lia | exact Hz].
      * cbn [andb].
        replace (p1 + Z.of_nat a + 1) with (p1 + Z.of_nat (S a)) by lia.
        replace (p2 + Z.of_nat a + 1) with (p2 + Z.of_nat (S a)) by lia.
        apply IH. intros k Hk. apply Hnz. lia.
    + cbn [andb]. apply Z.eqb_neq in Heq. apply Z.eqb_neq. lia.
Qed.

Lemma strlen_le_length : forall nm, (strlen nm <= List.length nm)%nat.
Proof.
  induction nm as [|c nm IH]; simpl; [lia|].
  destruct (c mod 256 =? 0); lia.
Qed.

Lemma char_at_before_strlen :
  forall nm k, (k < strlen nm)%nat -> char_at nm k <> 0.
Proof.
  unfold char_at. induction nm as [|c nm IH]; intros k Hk; simpl in Hk.
  - lia.
  - destruct (c mod 256 =? 0) eqn:Hc; [lia|].
    destruct k as [|k]; simpl.
    + apply Z.eqb_neq. exact Hc.
    + apply IH. lia.
Qed.

Lemma char_at_query :
  forall nm k, (k < strlen nm)%nat -> char_at (query nm) k = char_at nm k.
Proof.
  unfold char_at, query. induction nm as [|c nm IH]; intros k Hk; simpl in Hk.
  - lia.
  - simpl. destruct (c mod 256 =? 0); [lia|].
    destruct k as [|k]; simpl; [reflexivity|]. apply IH. lia.
Qed.

Lemma length_query : forall nm, List.length (query nm) = strlen nm.
Proof.
  intros nm. unfold query. apply firstn_length_le. apply strlen_le_length.
Qed.

Lemma byte_at_chars :
  forall nm k, byte_at (chars nm) (0 + Z.of_nat k) = char_at nm k.
Proof.
  intros nm k. unfold byte_at, chars, char_at.
  destruct (Z.ltb_spec (0 + Z.of_nat k) 0); [lia|].
  replace (0 + Z.of_nat k) with (Z.of_nat k) by lia.
  rewrite Nat2Z.id. reflexivity.
Qed.

Lemma strncasecmp_query :
  forall h pos nm,
    (strncasecmp h pos (chars nm) 0 (strlen nm) =? 0)
    = prefix_of tolower (query nm) h pos.
Proof.
  intros h pos nm. unfold prefix_of. rewrite length_query.
  replace pos with (pos + Z.of_nat 0) at 1 by (simpl; lia).
  change 0 with (0 + Z.of_nat 0) at 1.
  rewrite strncasecmp_prefix.
  - apply forallb_agree. intros k Hk. apply in_seq in Hk.
    rewrite byte_at_chars, char_at_query by lia. reflexivity.
  - intros k Hk. rewrite byte_at_chars. apply char_at_before_strlen. lia.
Qed.

Lemma strncmp_query :
  forall h pos nm,
    (strncmp h pos (chars nm) 0 (strlen nm) =? 0)
    = prefix_of (fun c => c) (query nm) h pos.
Proof.
  intros h pos nm. unfold prefix_of. rewrite length_query.
  replace pos with (pos + Z.of_nat 0) at 1 by (simpl; lia).
  change 0 with (0 + Z.of_nat 0) at 1.
  rewrite strncmp_prefix.
  - apply forallb_agree. intros k Hk. apply in_seq in Hk.
    rewrite byte_at_chars, char_at_query by lia. reflexivity.
  - intros k Hk. rewrite byte_at_chars. apply char_at_before_strlen. lia.
Qed.

Lemma byte_at_range : forall b i, 0 <= byte_at b i < 256.
Proof.
  intros. unfold byte_at. apply Z.mod_pos_bound. lia.
Qed.

Lemma le32_range : forall b i, 0 <= le32 b i < 2 ^ 32.
Proof.
  intros b i. unfold le32.
  pose proof (byte_at_range b i). pose proof (byte_at_range b (i + 1)).
  pose proof (byte_at_range b (i + 2)). pose proof (byte_at_range b (i + 3)).
  lia.
Qed.

Lemma le64_range : forall b i, 0 <= le64 b i < 2 ^ 64.
Proof.
  intros b i. unfold le64.
  pose proof (le32_range b i). pose proof (le32_range b (i + 4)). lia.
Qed.

Lemma hfs_entry_count_nat :
  forall h, Z.of_nat (Z.to_nat (hfs_entry_count h)) = hfs_entry_count h.
Proof.
  intros h. apply Z2Nat.id. unfold hfs_entry_count.
  pose proof (le32_range h 4). lia.
Qed.

Lemma entry_by_index_in_range :
  forall h i,
    i < hfs_entry_count h ->
    gamecardGetHashFileSystemEntryByIndex (Some h) i = Some (hfs_entry_at i).
Proof.
  intros h i Hi. unfold gamecardGetHashFileSystemEntryByIndex.
  destruct (Z.geb_spec i (hfs_entry_count h)); [lia | reflexivity].
Qed.

(** The loop of the older revision returns the first entry, in entry
    order, whose name lies in the name table and starts with the query,
    letter case ignored. *)
Lemma entry_by_name_loop_find_first :
  forall h nm n i,
    0 <= i -> i + Z.of_nat n <= hfs_entry_count h ->
    entry_by_name_loop h nm (strlen nm) n i
    = find_first (ci_name_match h (query nm)) n i.
Proof.
  intros h nm n. induction n as [|n IH]; intros i Hi Hn; [reflexivity|].
  cbn [entry_by_name_loop find_first].
  rewrite entry_by_index_in_range by lia.
  unfold gamecardGetHashFileSystemEntryName, ci_name_match.
  destruct (Z.eqb_spec (hfs_entry_count h) 0) as [Hz | Hz]; [lia|].
  cbn [orb].
  destruct (Z.geb_spec (hfs_entry_name_offset h (hfs_entry_at i))
              (hfs_name_table_size h)) as [Hge | Hlt].
  - destruct (Z.ltb_spec (hfs_entry_name_offset h (hfs_entry_at i))
                (hfs_name_table_size h)); [lia|].
    cbn [andb]. apply IH; lia.
  - destruct (Z.ltb_spec (hfs_entry_name_offset h (hfs_entry_at i))
                (hfs_name_table_size h)); [|lia].
    cbn [andb]. rewrite strncasecmp_query. unfold hfs_stored_name.
    destruct (prefix_of tolower (query nm) h _); [reflexivity|].
    apply IH; lia.
Qed.

(** The loop of the newer revision returns the first entry, in entry
    order, at whose name offset the bytes start with the query. *)
Lemma entry_index_loop_find_first :
  forall h nm n i,
    0 <= i -> i + Z.of_nat n <= hfs_entry_count h ->
    entry_index_loop h
      (sizeof_GameCardHashFileSystemHeader
       + hfs_entry_count h * sizeof_GameCardHashFileSystemEntry)
      nm (strlen nm) n i
    = find_first (cs_name_match h (query nm)) n i.
Proof.
  intros h nm n. induction n as [|n IH]; intros i Hi Hn; [reflexivity|].
  cbn [entry_index_loop find_first].
  rewrite entry_by_index_in_range by lia.
  rewrite strncmp_query. unfold cs_name_match, hfs_stored_name.
  destruct (prefix_of (fun c => c) (query nm) h _); [reflexivity|].
  apply IH; lia.
Qed.

Lemma first_match_find_first :
  forall p count i,
    0 <= count ->
    first_match p count i <-> find_first p (Z.to_nat count) 0 = Some i.
Proof.
  intros p count i Hc. rewrite find_first_Some. rewrite Z2Nat.id by lia.
  unfold first_match. split; intros (H1 & H2 & H3); (split; [lia|]); auto.
Qed.

Lemma no_match_find_first :
  forall p count,
    0 <= count ->
    no_match p count <-> find_first p (Z.to_nat count) 0 = None.
Proof.
  intros p count Hc. rewrite find_first_None. rewrite Z2Nat.id by lia.
  unfold no_match. split; intros H j Hj; apply H; lia.
Qed.

Lemma strlen_char_at_0 :
  forall nm, strlen nm <> O -> (char_at nm 0 =? 0) = false.
Proof.
  intros nm H. apply Z.eqb_neq. apply char_at_before_strlen. lia.
Qed.

(** The claim that the lookup is insensitive to letter case does not hold
    of [gamecardGetHashFileSystemEntryIndexByName]: entry 0 of the "secure"
    partition of the demo card is "Test.nca", of which "TEST" is a prefix
    when case is ignored, and the lookup of "TEST" fails. *)
Lemma newer_lookup_is_case_sensitive :
  first_match (ci_name_match demo_secure_bytes
                 (query (bytes_of_string "TEST")))
              (hfs_entry_count demo_secure_bytes) 0
  /\ gamecardGetHashFileSystemEntryIndexByName (Some demo_secure_bytes)
       (Some (bytes_of_string "TEST")) true = (false, None).
Proof.
  split; [|reflexivity].
  split; [vm_compute; split; [discriminate | reflexivity]|].
  split; [reflexivity|]. intros j Hj. lia.
Qed.

(** C3, amended.  Both lookups are bounded by the length of the query and
    return the first matching entry in entry order; they fail exactly when
    no entry matches.  For a non-empty query and a loaded card,
    [gamecardGetOffsetAndSizeFromHashFileSystemPartitionEntryByName] (older
    revision) matches an entry when its name lies in the name table and has
    the query as a prefix, letter case ignored, and returns the offset and
    size of the first such entry.
    [gamecardGetHashFileSystemEntryIndexByName] (newer revision) matches an
    entry when the bytes at its name offset start with the query exactly,
    letter case included, and returns the index of the first such entry. *)
Theorem hash_fs_lookup_by_name_first_prefix_match :
  (forall st type nm out_offset out_size idx parts h,
      g_gameCardInserted st = true ->
      g_gameCardInfoLoaded st = true ->
      strlen nm <> O ->
      out_offset || out_size = true ->
      gamecardGetHashFileSystemPartitionIndexByType st type true
      = Some (Some idx) ->
      g_gameCardHfsPartitions st = Some parts ->
      pi_header (parts idx) = Some h ->
      (forall i,
          first_match (ci_name_match h (query nm)) (hfs_entry_count h) i ->
          gamecardGetOffsetAndSizeFromHashFileSystemPartitionEntryByName
            st type (Some nm) out_offset out_size
          = Some (true,
                  if out_offset
                  then Some (u64 (u64 (pi_offset (parts idx)
                                       + pi_header_size (parts idx))
                                  + hfs_entry_offset h (hfs_entry_at i)))
                  else None,
                  if out_size then Some (hfs_entry_size h (hfs_entry_at i))
                  else None))
      /\ (no_match (ci_name_match h (query nm)) (hfs_entry_count h) <->
          gamecardGetOffsetAndSizeFromHashFileSystemPartitionEntryByName
            st type (Some nm) out_offset out_size
          = Some (false, None, None)))
  /\ (forall h nm,
        strlen nm <> O ->
        (forall i,
            first_match (cs_name_match h (query nm)) (hfs_entry_count h) i <->
            gamecardGetHashFileSystemEntryIndexByName (Some h) (Some nm) true
            = (true, Some i))
        /\ (no_match (cs_name_match h (query nm)) (hfs_entry_count h) <->
            gamecardGetHashFileSystemEntryIndexByName (Some h) (Some nm) true
            = (false, None))).
Proof.
  split.
  - intros st type nm out_offset out_size idx parts h
           Hins Hload Hlen Hout Hidx Hparts Hh.
    assert (0 <= hfs_entry_count h) as Hc
      by (unfold hfs_entry_count; pose proof (le32_range h 4); lia).
    assert (negb out_offset && negb out_size = false) as Hout'
      by (destruct out_offset, out_size; try reflexivity; discriminate).
    unfold gamecardGetOffsetAndSizeFromHashFileSystemPartitionEntryByName.
    rewrite Hins, Hload, (strlen_char_at_0 nm Hlen), Hout', Hidx, Hparts.
    cbn [negb orb]. cbv zeta. rewrite Hh.
    rewrite entry_by_name_loop_find_first
      by (rewrite ?hfs_entry_count_nat; lia).
    split.
    + intros i Hi. apply first_match_find_first in Hi; [|exact Hc].
      rewrite Hi. reflexivity.
    + rewrite no_match_find_first by exact Hc.
      destruct (find_first _ _ 0); split; intros H;
        try discriminate; reflexivity.
  - intros h nm Hlen.
    assert (0 <= hfs_entry_count h) as Hc
      by (unfold hfs_entry_count; pose proof (le32_range h 4); lia).
    unfold gamecardGetHashFileSystemEntryIndexByName,
      gamecardGetHashFileSystemNameTable.
    destruct (Z.eqb_spec (hfs_entry_count h) 0) as [Hz | Hz].
    + split.
      * intros i. split; [|discriminate].
        intros (Hr & _). lia.
      * split; [reflexivity|]. intros _ j Hj. lia.
    + assert (Nat.eqb (strlen nm) 0 = false) as ->
        by (apply Nat.eqb_neq; exact Hlen).
      cbn [negb orb].
      rewrite entry_index_loop_find_first
        by (rewrite ?hfs_entry_count_nat; lia).
      split.
      * intros i. rewrite first_match_find_first by exact Hc.
        destruct (find_first _ _ 0); split; intros H;
          try discriminate; congruence.
      * rewrite no_match_find_first by exact Hc.
        destruct (find_first _ _ 0); split; intros H;
          try discriminate; reflexivity.
Qed.

(** On the demo card, "TEST.T" finds "test.tik" in the "secure" partition
    through the older lookup (the first entry, "Test.nca", does not match),
    and "test" finds entry 1 through the newer one. *)
Lemma hash_fs_lookup_by_name_first_prefix_match_witness :
  gamecardGetOffsetAndSizeFromHashFileSystemPartitionEntryByName ready_state
    GameCardHashFileSystemPartitionType_Secure
    (Some (bytes_of_string "TEST.T")) true true
  = Some (true, Some 0x11600, Some 0x400)
  /\ gamecardGetHashFileSystemEntryIndexByName (Some demo_secure_bytes)
       (Some (bytes_of_string "test")) true = (true, Some 1).
Proof.
  split.
  - refine (proj1 (proj1 hash_fs_lookup_by_name_first_prefix_match
                     ready_state GameCardHashFileSystemPartitionType_Secure
                     (bytes_of_string "TEST.T") true true 1
                     (match g_gameCardHfsPartitions ready_state with
                      | Some parts => parts
                      | None => fun _ => zero_partition_info
                      end)
                     demo_secure_bytes
                     eq_refl eq_refl _ eq_refl eq_refl eq_refl eq_refl) 1 _).
    + discriminate.
    + split; [vm_compute; split; [discriminate | reflexivity]|].
      split; [reflexivity|].
      intros j Hj. assert (j = 0) as -> by lia. reflexivity.
  - refine (proj1 (proj1 (proj2 hash_fs_lookup_by_name_first_prefix_match
                            demo_secure_bytes (bytes_of_string "test") _) 1)
                  _).
    + discriminate.
    + split; [vm_compute; split; [discriminate | reflexivity]|].
      split; [reflexivity|].
      intros j Hj. assert (j = 0) as -> by lia. reflexivity.
Defined.

(** ** Storage accesses and the rest of the session *)

Lemma session_of_gamecardCloseHandle :
  forall st, session_of (gamecardCloseHandle st) = session_of st.
Proof. reflexivity. Qed.

Lemma session_of_gamecardCloseStorageArea :
  forall st, session_of (gamecardCloseStorageArea st) = session_of st.
Proof.
  intros st. unfold gamecardCloseStorageArea.
  destruct (serviceIsActive (g_gameCardStorage st)); reflexivity.
Qed.

Lemma session_of_gamecardGetHandle_loop :
  forall hos tries rc1 rc2 st,
    session_of (snd (gamecardGetHandle_loop hos tries rc1 rc2 st))
    = session_of st.
Proof.
  intros hos tries. induction tries as [|tries IH]; intros rc1 rc2 st.
  - reflexivity.
  - cbn [gamecardGetHandle_loop].
    destruct (R_SUCCEEDED _); [reflexivity|].
    destruct (fsDeviceOperatorGetGameCardHandle hos _) as [rc2' h].
    rewrite IH. reflexivity.
Qed.

Lemma session_of_gamecardGetHandle :
  forall hos st, session_of (snd (gamecardGetHandle hos st)) = session_of st.
Proof.
  intros hos st. unfold gamecardGetHandle.
  destruct (negb (g_gameCardInserted st)); [reflexivity|].
  pose proof (session_of_gamecardGetHandle_loop hos 10 0 0 st) as H.
  destruct (gamecardGetHandle_loop hos 10 0 0 st) as [[rc1 rc2] st'].
  destruct (R_FAILED rc1 || R_FAILED rc2); exact H.
Qed.

Lemma session_of_gamecardOpenStorageArea :
  forall hos area st,
    session_of (snd (gamecardOpenStorageArea hos area st)) = session_of st.
Proof.
  intros hos area st. unfold gamecardOpenStorageArea.
  destruct (negb (g_gameCardInserted st) || _); [reflexivity|].
  destruct (negb (g_gameCardHandle st =? 0) && _ && _); [reflexivity|].
  pose proof (session_of_gamecardGetHandle hos (gamecardCloseStorageArea st))
    as H.
  rewrite session_of_gamecardCloseStorageArea in H.
  destruct (gamecardGetHandle hos (gamecardCloseStorageArea st)) as [ok st'].
  destruct ok; simpl negb; cbv iota; [|exact H].
  destruct (R_FAILED _); exact H.
Qed.

Lemma session_of_storage_read_into :
  forall hos st dst d off size,
    session_of (snd (fst (storage_read_into hos st dst d off size)))
    = session_of st.
Proof.
  intros. unfold storage_read_into.
  destruct (fsStorageRead hos (trace st) (g_gameCardStorage st) off size).
  reflexivity.
Qed.

Lemma session_of_read_within_area :
  forall hos self st1 obj1 out_u8 read_size offset area ok st' obj',
    (forall st obj out rs off ok st' obj',
        self st obj out rs off = Some (ok, st', obj') ->
        session_of st' = session_of st) ->
    read_within_area hos self st1 obj1 out_u8 read_size offset area
    = Some (ok, st', obj') ->
    session_of st' = session_of st1.
Proof.
  intros hos self st1 obj1 out_u8 read_size offset area ok st' obj' Hself H.
  unfold read_within_area in H.
  pose proof (session_of_gamecardOpenStorageArea hos area st1) as Hopen.
  destruct (gamecardOpenStorageArea hos area st1) as [ok2 st2].
  simpl snd in Hopen.
  destruct ok2; simpl negb in H; cbv iota in H;
    [|inversion H; subst; exact Hopen].
  cbv zeta in H.
  destruct ((_ mod GAMECARD_MEDIA_UNIT_SIZE =? 0)
            && (read_size mod GAMECARD_MEDIA_UNIT_SIZE =? 0)).
  - match type of H with
    | context [storage_read_into hos ?s ?d ?p ?b ?n] =>
        pose proof (session_of_storage_read_into hos s d p b n) as Hrd;
        destruct (storage_read_into hos s d p b n) as [[rc st3] obj2]
    end.
    simpl in Hrd.
    destruct (R_FAILED rc); inversion H; subst; congruence.
  - destruct (g_gameCardReadBuf st2) as [scratch|];
      [|inversion H; subst; rewrite <- Hopen; reflexivity].
    match type of H with
    | context [storage_read_into hos ?s ?d ?p ?b ?n] =>
        pose proof (session_of_storage_read_into hos s d p b n) as Hrd;
        destruct (storage_read_into hos s d p b n) as [[rc st3] scratch']
    end.
    simpl in Hrd.
    destruct (R_FAILED rc);
      [inversion H; subst; rewrite <- Hopen, <- Hrd; reflexivity|].
    destruct (_ >? GAMECARD_READ_BUFFER_SIZE).
    + apply Hself in H. rewrite H, <- Hopen, <- Hrd. reflexivity.
    + inversion H; subst. rewrite <- Hopen, <- Hrd. reflexivity.
Qed.

Lemma session_of_gamecardReadStorageArea_rec :
  forall hos fuel st obj out read_size offset ok st' obj',
    gamecardReadStorageArea_rec hos fuel st obj out read_size offset
    = Some (ok, st', obj') ->
    session_of st' = session_of st.
Proof.
  intros hos fuel. induction fuel as [|fuel IH];
    intros st obj out read_size offset ok st' obj' H; [discriminate|].
  cbn [gamecardReadStorageArea_rec] in H.
  destruct out as [out_u8|]; [|inversion H; reflexivity].
  destruct (negb (g_gameCardInserted st) || _ || _ || _ || _ || _);
    [inversion H; reflexivity|].
  cbv zeta in H.
  destruct ((_ =? GameCardStorageArea_Normal) && _).
  - destruct (gamecardReadStorageArea_rec hos fuel st obj (Some out_u8) _ offset)
      as [[[ok1 st1] obj1]|] eqn:Hrec; [|discriminate].
    apply IH in Hrec.
    destruct ok1; simpl negb in H; cbv iota in H.
    + apply session_of_read_within_area in H; [congruence | exact IH].
    + inversion H; subst. exact Hrec.
  - apply session_of_read_within_area in H; [exact H | exact IH].
Qed.

Lemma session_of_gamecardReadStorageArea :
  forall hos st obj out read_size offset lock,
    session_of
      (snd (fst (gamecardReadStorageArea hos st obj out read_size offset lock)))
    = session_of st.
Proof.
  intros. unfold gamecardReadStorageArea.
  destruct (gamecardReadStorageArea_rec hos (read_fuel read_size) st obj out
              read_size offset) as [[[ok st'] obj']|] eqn:H; [|reflexivity].
  exact (session_of_gamecardReadStorageArea_rec _ _ _ _ _ _ _ _ _ _ H).
Qed.

(** ** Termination of gamecardReadStorageArea *)

Lemma ALIGN_DOWN_unit :
  forall x, ALIGN_DOWN x GAMECARD_MEDIA_UNIT_SIZE = x / 512 * 512.
Proof.
  intros x. unfold ALIGN_DOWN, GAMECARD_MEDIA_UNIT_SIZE.
  rewrite <- Z.ldiff_land.
  change (512 - 1) with (Z.ones 9).
  rewrite Z.ldiff_ones_r by lia.
  rewrite Z.shiftr_div_pow2, Z.shiftl_mul_pow2 by lia. reflexivity.
Qed.

Lemma ALIGN_UP_unit :
  forall x, ALIGN_UP x GAMECARD_MEDIA_UNIT_SIZE = u64 (x + 511) / 512 * 512.
Proof.
  intros x. unfold ALIGN_UP, GAMECARD_MEDIA_UNIT_SIZE.
  rewrite <- Z.ldiff_land.
  change (512 - 1) with (Z.ones 9).
  rewrite Z.ldiff_ones_r by lia.
  rewrite Z.shiftr_div_pow2, Z.shiftl_mul_pow2 by lia. reflexivity.
Qed.

Lemma u64_range : forall x, 0 <= u64 x < 2 ^ 64.
Proof.
  intros x. unfold u64. apply Z.mod_pos_bound. lia.
Qed.

Lemma u64_small : forall x, 0 <= x < 2 ^ 64 -> u64 x = x.
Proof.
  intros x H. unfold u64. apply Z.mod_small. exact H.
Qed.

(** When the aligned block does not fit the read buffer, the bytes copied
    out of the buffer are more than the buffer less one media unit, and
    fewer than the request: the continuation asks for strictly less. *)
Lemma chunk_progress :
  forall base rs,
    0 <= base < 2 ^ 64 -> 0 < rs < 2 ^ 64 ->
    u64 (ALIGN_UP (u64 (base + rs)) GAMECARD_MEDIA_UNIT_SIZE
         - ALIGN_DOWN base GAMECARD_MEDIA_UNIT_SIZE)
    > GAMECARD_READ_BUFFER_SIZE ->
    GAMECARD_READ_BUFFER_SIZE - GAMECARD_MEDIA_UNIT_SIZE
    < u64 (GAMECARD_READ_BUFFER_SIZE
           - u64 (base - ALIGN_DOWN base GAMECARD_MEDIA_UNIT_SIZE))
    < rs.
Proof.
  intros base rs Hb Hr. rewrite ALIGN_UP_unit, ALIGN_DOWN_unit.
  unfold u64, GAMECARD_READ_BUFFER_SIZE, GAMECARD_MEDIA_UNIT_SIZE.
  change (2 ^ 64) with 18446744073709551616 in *.
  intros H. Z.div_mod_to_equations. lia.
Qed.

Lemma fuel_step :
  forall rs oc,
    GAMECARD_READ_BUFFER_SIZE - GAMECARD_MEDIA_UNIT_SIZE < oc < rs ->
    (rs - oc) / (GAMECARD_READ_BUFFER_SIZE - GAMECARD_MEDIA_UNIT_SIZE) + 1
    <= rs / (GAMECARD_READ_BUFFER_SIZE - GAMECARD_MEDIA_UNIT_SIZE).
Proof.
  intros rs oc. unfold GAMECARD_READ_BUFFER_SIZE, GAMECARD_MEDIA_UNIT_SIZE.
  intros H. Z.div_mod_to_equations. lia.
Qed.

Lemma fuel_mono :
  forall a b,
    0 <= a <= b ->
    a / (GAMECARD_READ_BUFFER_SIZE - GAMECARD_MEDIA_UNIT_SIZE)
    <= b / (GAMECARD_READ_BUFFER_SIZE - GAMECARD_MEDIA_UNIT_SIZE).
Proof.
  intros a b H. apply Z.div_le_mono; [reflexivity | lia].
Qed.

Lemma chunk_floor :
  GAMECARD_READ_BUFFER_SIZE - GAMECARD_MEDIA_UNIT_SIZE = 8388096.
Proof. reflexivity. Qed.

Lemma session_normal_size :
  forall st st',
    session_of st' = session_of st ->
    g_gameCardStorageNormalAreaSize st' = g_gameCardStorageNormalAreaSize st.
Proof.
  intros st st' H. session_fields H. assumption.
Qed.

(** The single-area part answers whenever the call that continues an
    oversized request does. *)
Lemma read_within_area_total :
  forall hos self st1 obj1 out_u8 rs off area,
    0 < rs < 2 ^ 64 ->
    0 <= off < 2 ^ 64 ->
    (forall st obj o oc,
        session_of st = session_of st1 ->
        GAMECARD_READ_BUFFER_SIZE - GAMECARD_MEDIA_UNIT_SIZE < oc < rs ->
        self st obj o (u64 (rs - oc))
          (u64 ((if area =? GameCardStorageArea_Normal then off
                 else u64 (off - g_gameCardStorageNormalAreaSize st1)) + oc))
        <> None) ->
    read_within_area hos self st1 obj1 out_u8 rs off area <> None.
Proof.
  intros hos self st1 obj1 out_u8 rs off area Hrs Hoff Hself.
  unfold read_within_area.
  pose proof (session_of_gamecardOpenStorageArea hos area st1) as Hopen.
  destruct (gamecardOpenStorageArea hos area st1) as [ok2 st2].
  simpl snd in Hopen.
  destruct ok2; simpl negb; cbv iota; [|discriminate].
  cbv zeta.
  rewrite (session_normal_size _ _ Hopen).
  set (base := if area =? GameCardStorageArea_Normal then off
               else u64 (off - g_gameCardStorageNormalAreaSize st1)) in *.
  assert (0 <= base < 2 ^ 64) as Hbase.
  { subst base. destruct (area =? GameCardStorageArea_Normal);
      [exact Hoff | apply u64_range]. }
  destruct ((base mod GAMECARD_MEDIA_UNIT_SIZE =? 0)
            && (rs mod GAMECARD_MEDIA_UNIT_SIZE =? 0)).
  - destruct (storage_read_into hos st2 obj1 out_u8 base rs)
      as [[rc st3] obj2].
    destruct (R_FAILED rc); discriminate.
  - destruct (g_gameCardReadBuf st2) as [scratch|]; [|discriminate].
    match goal with
    | |- context [storage_read_into hos ?s ?d ?p ?b ?n] =>
        pose proof (session_of_storage_read_into hos s d p b n) as Hrd;
        destruct (storage_read_into hos s d p b n) as [[rc st3] scratch']
    end.
    simpl in Hrd.
    destruct (R_FAILED rc); [discriminate|].
    match goal with
    | |- context [?bs >? GAMECARD_READ_BUFFER_SIZE] =>
        destruct (Z.gtb_spec bs GAMECARD_READ_BUFFER_SIZE) as [Hbig | Hsmall]
    end; [|discriminate].
    apply Hself.
    + rewrite <- Hopen, <- Hrd. reflexivity.
    + apply chunk_progress; [exact Hbase | exact Hrs | lia].
Qed.

Lemma read_guard_false :
  forall st read_size offset,
    negb (g_gameCardInserted st)
    || (g_gameCardStorageNormalAreaSize st =? 0)
    || (g_gameCardStorageSecureAreaSize st =? 0)
    || (read_size =? 0)
    || (offset >=?
        u64 (g_gameCardStorageNormalAreaSize st
             + g_gameCardStorageSecureAreaSize st))
    || (u64 (offset + read_size) >?
        u64 (g_gameCardStorageNormalAreaSize st
             + g_gameCardStorageSecureAreaSize st)) = false ->
    g_gameCardInserted st = true
    /\ g_gameCardStorageNormalAreaSize st <> 0
    /\ g_gameCardStorageSecureAreaSize st <> 0
    /\ read_size <> 0
    /\ offset < u64 (g_gameCardStorageNormalAreaSize st
                     + g_gameCardStorageSecureAreaSize st)
    /\ u64 (offset + read_size)
       <= u64 (g_gameCardStorageNormalAreaSize st
               + g_gameCardStorageSecureAreaSize st).
Proof.
  intros st read_size offset H.
  repeat (apply orb_false_elim in H; destruct H as [H ?]).
  apply negb_false_iff in H.
  repeat match goal with
         | E : (_ =? _) = false |- _ => apply Z.eqb_neq in E
         | E : (_ >=? _) = false |- _ => rewrite Z.geb_leb in E;
                                         apply Z.leb_gt in E
         | E : (_ >? _) = false |- _ => rewrite Z.gtb_ltb in E;
                                        apply Z.ltb_ge in E
         end.
  auto 10.
Qed.

(** A request that ends exactly where the normal area ends never takes
    the boundary split, and neither do its continuations. *)
Lemma gamecardReadStorageArea_rec_total_normal :
  forall hos fuel st obj out rs off,
    0 <= off -> 0 <= rs ->
    off + rs = g_gameCardStorageNormalAreaSize st ->
    g_gameCardStorageNormalAreaSize st < 2 ^ 64 ->
    rs / (GAMECARD_READ_BUFFER_SIZE - GAMECARD_MEDIA_UNIT_SIZE) + 1
    <= Z.of_nat fuel ->
    gamecardReadStorageArea_rec hos fuel st obj out rs off <> None.
Proof.
  intros hos fuel. induction fuel as [|fuel IH];
    intros st obj out rs off Hoff Hrs Hend Hn Hfuel.
  - exfalso.
    assert (0 <= rs / (GAMECARD_READ_BUFFER_SIZE - GAMECARD_MEDIA_UNIT_SIZE))
      by (apply Z.div_pos; [lia | reflexivity]).
    lia.
  - cbn [gamecardReadStorageArea_rec].
    destruct out as [out_u8|]; [|discriminate].
    match goal with
    | |- context [if ?g then Some (false, st, obj) else _] =>
        destruct g eqn:Hg; [discriminate|]
    end.
    apply read_guard_false in Hg.
    destruct Hg as (_ & _ & _ & Hnz & _ & _).
    cbv zeta.
    destruct (Z.ltb_spec off (g_gameCardStorageNormalAreaSize st)); [|lia].
    rewrite Hend. rewrite (u64_small (g_gameCardStorageNormalAreaSize st))
      by lia.
    replace (g_gameCardStorageNormalAreaSize st
             >? g_gameCardStorageNormalAreaSize st) with false
      by (symmetry; rewrite Z.gtb_ltb; apply Z.ltb_irrefl).
    rewrite andb_false_r.
    apply read_within_area_total; [lia | lia |].
    intros st' obj' o oc Hs Hoc.
    rewrite Z.eqb_refl.
    pose proof chunk_floor as Hc.
    pose proof (session_normal_size _ _ Hs) as HN.
    rewrite (u64_small (rs - oc)) by lia.
    rewrite (u64_small (off + oc)) by lia.
    apply IH; try lia.
    pose proof (fuel_step rs oc Hoc). lia.
Qed.

Lemma gamecardReadStorageArea_rec_total_fuel :
  forall hos fuel st obj out rs off,
    0 <= off < 2 ^ 64 -> 0 <= rs < 2 ^ 64 ->
    0 <= g_gameCardStorageNormalAreaSize st < 2 ^ 64 ->
    rs / (GAMECARD_READ_BUFFER_SIZE - GAMECARD_MEDIA_UNIT_SIZE) + 2
    <= Z.of_nat fuel ->
    gamecardReadStorageArea_rec hos fuel st obj out rs off <> None.
Proof.
  intros hos fuel. induction fuel as [|fuel IH];
    intros st obj out rs off Hoff Hrs Hn Hfuel.
  - exfalso.
    assert (0 <= rs / (GAMECARD_READ_BUFFER_SIZE - GAMECARD_MEDIA_UNIT_SIZE))
      by (apply Z.div_pos; [lia | reflexivity]).
    lia.
  - cbn [gamecardReadStorageArea_rec].
    destruct out as [out_u8|]; [|discriminate].
    match goal with
    | |- context [if ?g then Some (false, st, obj) else _] =>
        destruct g eqn:Hg; [discriminate|]
    end.
    apply read_guard_false in Hg.
    destruct Hg as (_ & _ & _ & Hnz & _ & _).
    cbv zeta.
    assert (forall rs' st1 obj1 o f a,
               0 < rs' <= rs ->
               0 <= f < 2 ^ 64 ->
               session_of st1 = session_of st ->
               read_within_area hos (gamecardReadStorageArea_rec hos fuel)
                 st1 obj1 o rs' f a <> None) as Hwithin.
    { intros rs' st1 obj1 o f a Hrs' Hf Hs.
      apply read_within_area_total; [lia | exact Hf |].
      intros st' obj' o' oc Hs' Hoc.
      pose proof chunk_floor as Hc.
      apply IH.
      - apply u64_range.
      - apply u64_range.
      - rewrite (session_normal_size _ _ Hs'), (session_normal_size _ _ Hs).
        exact Hn.
      - rewrite (u64_small (rs' - oc)) by lia.
        pose proof (fuel_step rs' oc Hoc).
        pose proof (fuel_mono rs' rs). lia. }
    destruct ((_ =? GameCardStorageArea_Normal) && _) eqn:Hsplit.
    + apply andb_true_iff in Hsplit. destruct Hsplit as [Harea Hover].
      destruct (Z.ltb_spec off (g_gameCardStorageNormalAreaSize st))
        as [Hlt | Hge]; [|discriminate].
      rewrite Z.gtb_ltb in Hover. apply Z.ltb_lt in Hover.
      assert (g_gameCardStorageNormalAreaSize st - off < rs) as Hdiff.
      { revert Hover. unfold u64.
        change (2 ^ 64) with 18446744073709551616 in *.
        intros Hover. Z.div_mod_to_equations. lia. }
      rewrite (u64_small (g_gameCardStorageNormalAreaSize st - off)) by lia.
      destruct (gamecardReadStorageArea_rec hos fuel st obj (Some out_u8)
                  (g_gameCardStorageNormalAreaSize st - off) off)
        as [[[ok1 st1] obj1]|] eqn:Hrec.
      * destruct ok1; simpl negb; cbv iota; [|discriminate].
        pose proof (session_of_gamecardReadStorageArea_rec
                      _ _ _ _ _ _ _ _ _ _ Hrec) as Hs.
        apply Hwithin.
        -- rewrite u64_small by lia. lia.
        -- rewrite (session_normal_size _ _ Hs). exact Hn.
        -- exact Hs.
      * exfalso. revert Hrec.
        apply gamecardReadStorageArea_rec_total_normal; try lia.
        pose proof (fuel_mono (g_gameCardStorageNormalAreaSize st - off) rs).
        lia.
    + apply Hwithin; [lia | exact Hoff | reflexivity].
Qed.

(** [read_fuel] is always enough: [gamecardReadStorageArea_rec] answers
    every request made of 64-bit values.  [gamecardReadStorageArea]
    therefore never takes its default branch: the C function terminates,
    with the result the embedding gives. *)
Theorem gamecardReadStorageArea_rec_total :
  forall hos st obj out read_size offset,
    0 <= offset < 2 ^ 64 -> 0 <= read_size < 2 ^ 64 ->
    0 <= g_gameCardStorageNormalAreaSize st < 2 ^ 64 ->
    exists r,
      gamecardReadStorageArea_rec hos (read_fuel read_size) st obj out
        read_size offset = Some r
      /\ forall lock,
           gamecardReadStorageArea hos st obj out read_size offset lock = r.
Proof.
  intros hos st obj out read_size offset Hoff Hrs Hn.
  pose proof (gamecardReadStorageArea_rec_total_fuel hos
                (read_fuel read_size) st obj out read_size offset
                Hoff Hrs Hn) as H.
  unfold gamecardReadStorageArea.
  destruct (gamecardReadStorageArea_rec hos (read_fuel read_size) st obj out
              read_size offset) as [r|].
  - exists r. split; reflexivity.
  - exfalso. apply H; [|reflexivity].
    unfold read_fuel.
    assert (0 <= read_size
                 / (GAMECARD_READ_BUFFER_SIZE - GAMECARD_MEDIA_UNIT_SIZE))
      by (apply Z.div_pos; [lia | reflexivity]).
    lia.
Qed.

(** ** gamecardFreeInfo and gamecardLoadInfo *)

Lemma free_partition_headers_eq :
  forall parts n i st,
    exists evs,
      free_partition_headers parts n i st
      = set_trace (trace st ++ evs)
          (set_heap_live (heap_live st - count_headers parts n i) st).
Proof.
  intros parts n. induction n as [|n IH]; intros i st.
  - exists []. destruct st. cbn [free_partition_headers count_headers].
    st_norm. rewrite app_nil_r, Z.sub_0_r. reflexivity.
  - cbn [free_partition_headers count_headers].
    destruct (pi_header (parts i)).
    + destruct (IH (i + 1) (free st)) as [evs ->].
      exists (EvFree :: evs). destruct st. st_norm.
      rewrite <- app_assoc. cbn [app]. f_equal. lia.
    + destruct (IH (i + 1) st) as [evs ->].
      exists evs. destruct st. st_norm. f_equal.
Qed.

(** [gamecardFreeInfo] resets the whole cache and gives back every block
    the cache holds. *)
Lemma gamecardFreeInfo_spec :
  forall st,
    info_released
      (set_heap_live (heap_live st - held_blocks st) st) (gamecardFreeInfo st).
Proof.
  intros st. unfold info_released, gamecardFreeInfo, held_blocks,
    gamecardCloseStorageArea.
  destruct st as [a1 a2 a3 a4 a5 a6 a7 h sto ar rb hd n sz cp root parts hl tr].
  st_norm.
  destruct root as [root|]; destruct parts as [parts|]; st_norm.
  - match goal with
    | |- context [free_partition_headers ?p ?n ?i ?s] =>
        destruct (free_partition_headers_eq p n i s) as [evs ->]
    end.
    destruct sto; st_norm;
      repeat split; try reflexivity; lia.
  - destruct sto; st_norm;
      repeat split; try reflexivity; lia.
  - destruct sto; st_norm;
      repeat split; try reflexivity; lia.
  - destruct sto; st_norm;
      repeat split; try reflexivity; lia.
Qed.

Lemma session_heap_of :
  forall st st', session_of st' = session_of st -> heap_of st' = heap_of st.
Proof.
  intros st st' H. session_fields H. unfold heap_of. congruence.
Qed.

Lemma session_header :
  forall st st',
    session_of st' = session_of st -> g_gameCardHeader st' = g_gameCardHeader st.
Proof.
  intros st st' H. session_fields H. assumption.
Qed.

Lemma heap_of_gamecardGetStorageAreasSizes_loop :
  forall hos n i st,
    heap_of (snd (gamecardGetStorageAreasSizes_loop hos n i st)) = heap_of st
    /\ g_gameCardHeader (snd (gamecardGetStorageAreasSizes_loop hos n i st))
       = g_gameCardHeader st.
Proof.
  intros hos n. induction n as [|n IH]; intros i st; [split; reflexivity|].
  cbn [gamecardGetStorageAreasSizes_loop].
  match goal with
  | |- context [gamecardOpenStorageArea hos ?a st] =>
      pose proof (session_of_gamecardOpenStorageArea hos a st) as Hopen;
      destruct (gamecardOpenStorageArea hos a st) as [ok st1]
  end.
  simpl snd in Hopen.
  pose proof (session_heap_of _ _ Hopen) as Hh.
  pose proof (session_header _ _ Hopen) as Hd.
  destruct ok; simpl negb; cbv iota; [|split; assumption].
  destruct (fsStorageGetSize hos (trace st1) (g_gameCardStorage st1))
    as [rc sz].
  match goal with
  | |- context [gamecardCloseStorageArea ?s] =>
      pose proof (session_of_gamecardCloseStorageArea s) as Hclose;
      set (st2 := gamecardCloseStorageArea s) in *
  end.
  assert (heap_of st2 = heap_of st
          /\ g_gameCardHeader st2 = g_gameCardHeader st) as [Hh2 Hd2].
  { split.
    - rewrite (session_heap_of _ _ Hclose). exact Hh.
    - rewrite (session_header _ _ Hclose). exact Hd. }
  destruct (R_FAILED rc || (u64 sz =? 0)); [split; assumption|].
  match goal with
  | |- context [gamecardGetStorageAreasSizes_loop hos n ?j ?s] =>
      destruct (IH j s) as [IH1 IH2]; rewrite IH1, IH2
  end.
  destruct (_ =? GameCardStorageArea_Normal); split; assumption.
Qed.

Lemma gamecardLoadInfo_header_keeps :
  forall hos st,
    heap_of (snd (gamecardLoadInfo_header hos st)) = heap_of st.
Proof.
  intros hos st. unfold gamecardLoadInfo_header, gamecardGetStorageAreasSizes.
  destruct (negb (g_gameCardInserted st)); [reflexivity|].
  destruct (heap_of_gamecardGetStorageAreasSizes_loop hos 2 0 st) as [Hh _].
  destruct (gamecardGetStorageAreasSizes_loop hos 2 0 st) as [ok st1].
  simpl snd in Hh.
  destruct ok; simpl negb; cbv iota; [|exact Hh].
  match goal with
  | |- context [gamecardReadStorageArea hos ?s ?o ?p ?n ?f ?l] =>
      pose proof (session_of_gamecardReadStorageArea hos s o p n f l) as Hrd;
      destruct (gamecardReadStorageArea hos s o p n f l) as [[ok2 st2] hdr]
  end.
  simpl in Hrd. apply session_heap_of in Hrd.
  rewrite <- Hh, <- Hrd. reflexivity.
Qed.

Lemma count_headers_upd :
  forall parts i v n a,
    count_headers (upd_partition parts i v) n a
    = count_headers parts n a
      + (if (a <=? i) && (i <? a + Z.of_nat n)
         then header_flag v - header_flag (parts i) else 0).
Proof.
  intros parts i v n. induction n as [|n IH]; intros a.
  - cbn [count_headers]. change (Z.of_nat 0) with 0.
    destruct (Z.leb_spec a i); destruct (Z.ltb_spec i (a + 0));
      cbn [andb]; lia.
  - cbn [count_headers]. rewrite IH. unfold upd_partition at 1.
    unfold header_flag.
    destruct (Z.eqb_spec a i) as [-> | Hne].
    + destruct (Z.leb_spec i i); [|lia].
      destruct (Z.ltb_spec i (i + Z.of_nat (S n))); [|lia].
      destruct (Z.leb_spec (i + 1) i); [lia|]. cbn [andb]. lia.
    + destruct (Z.leb_spec a i); destruct (Z.leb_spec (a + 1) i);
        destruct (Z.ltb_spec i (a + Z.of_nat (S n)));
        destruct (Z.ltb_spec i (a + 1 + Z.of_nat n)); cbn [andb]; lia.
Qed.

(** The loop over the partitions keeps the session not loaded, leaves the
    gamecard header, the capacity and the root header alone, and holds one
    more block for each partition header it has allocated. *)
Lemma gamecardLoadInfo_partitions_spec :
  forall hos n i root parts st,
    g_gameCardInfoLoaded st = false ->
    g_gameCardHfsRootHeader st = Some root ->
    g_gameCardHfsPartitions st = Some parts ->
    0 <= i -> i + Z.of_nat n = hfs_entry_count root ->
    (forall j, i <= j -> pi_header (parts j) = None) ->
    let st' := snd (gamecardLoadInfo_partitions hos n i root parts st) in
    g_gameCardInfoLoaded st' = false
    /\ g_gameCardHfsRootHeader st' = Some root
    /\ g_gameCardHeader st' = g_gameCardHeader st
    /\ g_gameCardCapacity st' = g_gameCardCapacity st
    /\ exists parts',
         g_gameCardHfsPartitions st' = Some parts'
         /\ heap_live st'
            - count_headers parts' (Z.to_nat (hfs_entry_count root)) 0
            = heap_live st
              - count_headers parts (Z.to_nat (hfs_entry_count root)) 0.
Proof.
  intros hos n. induction n as [|n IH];
    intros i root parts st Hload Hroot Hparts Hi Hn Htail; cbv zeta.
  - simpl. repeat split; auto. exists parts. auto.
  - cbn [gamecardLoadInfo_partitions].
    rewrite entry_by_index_in_range by lia.
    destruct (hfs_entry_size root (hfs_entry_at i) =? 0);
      [simpl; repeat split; auto; exists parts; auto|].
    cbv zeta.
    set (p_offset := u64 (u64 (_ + _) + hfs_entry_offset root (hfs_entry_at i))).
    set (p_size := hfs_entry_size root (hfs_entry_at i)).
    set (parts1 := upd_partition parts i _).
    assert (count_headers parts1 (Z.to_nat (hfs_entry_count root)) 0
            = count_headers parts (Z.to_nat (hfs_entry_count root)) 0) as Hc1.
    { subst parts1. rewrite count_headers_upd. unfold header_flag at 1.
      cbn [pi_header]. fold (header_flag (parts i)).
      destruct ((0 <=? i) && _); lia. }
    assert (pi_header (parts1 i) = None) as Hnone1.
    { subst parts1. unfold upd_partition. rewrite Z.eqb_refl. simpl.
      apply Htail. lia. }
    set (st1 := set_g_gameCardHfsPartitions (Some parts1) st).
    match goal with
    | |- context [gamecardReadStorageArea hos ?s ?o ?p ?m ?f ?l] =>
        pose proof (session_of_gamecardReadStorageArea hos s o p m f l) as Hrd;
        destruct (gamecardReadStorageArea hos s o p m f l) as [[ok2 st2] ph]
    end.
    simpl in Hrd. session_fields Hrd.
    assert (g_gameCardInfoLoaded st2 = false
            /\ g_gameCardHfsRootHeader st2 = Some root
            /\ g_gameCardHeader st2 = g_gameCardHeader st
            /\ g_gameCardCapacity st2 = g_gameCardCapacity st
            /\ exists parts',
                 g_gameCardHfsPartitions st2 = Some parts'
                 /\ heap_live st2
                    - count_headers parts' (Z.to_nat (hfs_entry_count root)) 0
                    = heap_live st
                      - count_headers parts (Z.to_nat (hfs_entry_count root)) 0)
      as Hst2.
    { subst st1. simpl in *. repeat split; try congruence.
      exists parts1. split; [congruence|]. rewrite Hc1. congruence. }
    destruct ok2; simpl negb; cbv iota; [|exact Hst2].
    destruct (negb (_ =? GAMECARD_HFS0_MAGIC)); [exact Hst2|].
    destruct (hfs_name_table_size ph =? 0); [exact Hst2|].
    cbv zeta. unfold calloc.
    set (header_size := ALIGN_UP _ GAMECARD_MEDIA_UNIT_SIZE).
    destruct (alloc_succeeds hos (trace st2) header_size) eqn:Halloc.
    + set (parts2 := upd_partition parts1 i
                       (mkPartitionInfo p_offset p_size header_size
                          (Some zeroed))).
      assert (count_headers parts2 (Z.to_nat (hfs_entry_count root)) 0
              = count_headers parts (Z.to_nat (hfs_entry_count root)) 0 + 1)
        as Hc2.
      { subst parts2. rewrite count_headers_upd, Hc1.
        unfold header_flag. rewrite Hnone1. cbn [pi_header].
        rewrite hfs_entry_count_nat.
        destruct (Z.leb_spec 0 i); [|lia].
        destruct (Z.ltb_spec i (0 + hfs_entry_count root)); [|lia].
        simpl. lia. }
      match goal with
      | |- context [gamecardReadStorageArea hos ?s ?o ?p ?m ?f ?l] =>
          pose proof (session_of_gamecardReadStorageArea hos s o p m f l)
            as Hrd3;
          destruct (gamecardReadStorageArea hos s o p m f l)
            as [[ok3 st3] b']
      end.
      simpl in Hrd3. session_fields Hrd3.
      set (parts3 := upd_partition parts2 i
                       (mkPartitionInfo p_offset p_size header_size
                          (Some b'))).
      assert (count_headers parts3 (Z.to_nat (hfs_entry_count root)) 0
              = count_headers parts (Z.to_nat (hfs_entry_count root)) 0 + 1)
        as Hc3.
      { assert (pi_header (parts2 i) = Some zeroed) as Hsome2
          by (subst parts2; unfold upd_partition; rewrite Z.eqb_refl;
              reflexivity).
        subst parts3. rewrite count_headers_upd, Hc2.
        unfold header_flag. rewrite Hsome2. cbn [pi_header].
        destruct ((0 <=? i) && _); lia. }
      set (st4 := set_g_gameCardHfsPartitions (Some parts3) st3).
      assert (g_gameCardInfoLoaded st4 = false
              /\ g_gameCardHfsRootHeader st4 = Some root
              /\ g_gameCardHeader st4 = g_gameCardHeader st
              /\ g_gameCardCapacity st4 = g_gameCardCapacity st
              /\ heap_live st4 = heap_live st + 1) as (L4 & R4 & D4 & C4 & Hp4).
      { subst st4 st1. simpl in *. repeat split; congruence. }
      destruct ok3; simpl negb; cbv iota.
      * assert (forall j, i + 1 <= j -> pi_header (parts3 j) = None) as Htail3.
        { intros j Hj. subst parts3 parts2 parts1. unfold upd_partition.
          destruct (Z.eqb_spec j i); [lia|]. apply Htail. lia. }
        assert (g_gameCardHfsPartitions st4 = Some parts3) as P4
          by (subst st4; st_simpl; reflexivity).
        assert (0 <= i + 1) as Hi1 by lia.
        assert (i + 1 + Z.of_nat n = hfs_entry_count root) as Hn1 by lia.
        destruct (IH (i + 1) root parts3 st4 L4 R4 P4 Hi1 Hn1 Htail3)
          as (L5 & R5 & D5 & C5 & parts5 & P5 & Hp5).
        cbv zeta in L5, R5, D5, C5, P5, Hp5.
        repeat split; try congruence.
        exists parts5. split; [exact P5|]. lia.
      * simpl snd. repeat split; try assumption.
        exists parts3. split; [reflexivity|]. lia.
    + set (parts2 := upd_partition parts1 i
                       (mkPartitionInfo p_offset p_size header_size None)).
      simpl snd.
      assert (count_headers parts2 (Z.to_nat (hfs_entry_count root)) 0
              = count_headers parts (Z.to_nat (hfs_entry_count root)) 0)
        as Hc2.
      { subst parts2. rewrite count_headers_upd, Hc1.
        unfold header_flag. rewrite Hnone1. cbn [pi_header].
        destruct ((0 <=? i) && _); lia. }
      subst st1. simpl in *. repeat split; try congruence.
      exists parts2. split; [reflexivity|]. rewrite Hc2. congruence.
Qed.

Lemma info_released_heap :
  forall st0 st1 st,
    info_released st0 st -> heap_live st1 = heap_live st0 ->
    info_released st1 st.
Proof.
  unfold info_released. intros st0 st1 st H Hh.
  repeat match goal with H : _ /\ _ |- _ => destruct H end.
  repeat split; try assumption. congruence.
Qed.

Lemma count_headers_zero :
  forall n i, count_headers (fun _ : Z => zero_partition_info) n i = 0.
Proof.
  induction n as [|n IH]; intros i; [reflexivity|].
  cbn [count_headers]. rewrite IH. reflexivity.
Qed.

(** The second half of [gamecardLoadInfo]: the blocks allocated are the
    blocks the cache holds, and the session becomes loaded only with a
    root header that passes its checks. *)
Lemma gamecardLoadInfo_root_spec :
  forall hos st,
    g_gameCardInfoLoaded st = false ->
    g_gameCardHfsRootHeader st = None ->
    g_gameCardHfsPartitions st = None ->
    let st' := gamecardLoadInfo_root hos st in
    g_gameCardHeader st' = g_gameCardHeader st
    /\ g_gameCardCapacity st' = g_gameCardCapacity st
    /\ heap_live st' = heap_live st + held_blocks st'
    /\ (g_gameCardInfoLoaded st' = true ->
        exists root,
          g_gameCardHfsRootHeader st' = Some root
          /\ __builtin_bswap32 (hfs_magic root) = GAMECARD_HFS0_MAGIC
          /\ hfs_entry_count root <> 0
          /\ hfs_name_table_size root <> 0
          /\ sizeof_GameCardHashFileSystemHeader
             + hfs_entry_count root * sizeof_GameCardHashFileSystemEntry
             + hfs_name_table_size root
             <= header_partition_fs_header_size (g_gameCardHeader st)).
Proof.
  intros hos st Hload Hroot Hparts. cbv zeta.
  unfold gamecardLoadInfo_root, calloc.
  destruct (alloc_succeeds hos (trace st) _).
  - match goal with
    | |- context [gamecardReadStorageArea hos ?s ?o ?p ?m ?f ?l] =>
        pose proof (session_of_gamecardReadStorageArea hos s o p m f l) as Hrd;
        destruct (gamecardReadStorageArea hos s o p m f l) as [[ok st2] r']
    end.
    simpl in Hrd. session_fields Hrd. st_simpl.
    set (st3 := set_g_gameCardHfsRootHeader (Some r') st2).
    assert (g_gameCardHeader st3 = g_gameCardHeader st
            /\ g_gameCardCapacity st3 = g_gameCardCapacity st
            /\ heap_live st3 = heap_live st + held_blocks st3
            /\ g_gameCardInfoLoaded st3 = false) as Hst3.
    { subst st3. unfold held_blocks. st_simpl.
      repeat split; try congruence.
      replace (g_gameCardHfsPartitions st2) with (@None (Z -> GameCardHashFileSystemPartitionInfo))
        by congruence.
      lia. }
    assert (forall P : Prop, g_gameCardInfoLoaded st3 = true -> P) as Hno.
    { intros P Habs. destruct Hst3 as (_ & _ & _ & E). congruence. }
    destruct ok; simpl negb; cbv iota;
      [|repeat split; try apply Hst3; apply Hno].
    destruct (negb (_ =? GAMECARD_HFS0_MAGIC)) eqn:Hmagic;
      [repeat split; try apply Hst3; apply Hno|].
    destruct ((hfs_entry_count r' =? 0) || _ || _) eqn:Hsize;
      [repeat split; try apply Hst3; apply Hno|].
    apply negb_false_iff in Hmagic. apply Z.eqb_eq in Hmagic.
    apply orb_false_elim in Hsize. destruct Hsize as [Hsize Hover].
    apply orb_false_elim in Hsize. destruct Hsize as [Hcount Hnts].
    apply Z.eqb_neq in Hcount. apply Z.eqb_neq in Hnts.
    rewrite Z.gtb_ltb in Hover. apply Z.ltb_ge in Hover.
    destruct (alloc_succeeds hos _ _).
    + set (parts0 := fun _ : Z => zero_partition_info).
      set (st4 := set_g_gameCardHfsPartitions (Some parts0) _).
      assert (g_gameCardInfoLoaded st4 = false) as L4
        by (subst st4 st3; st_simpl; congruence).
      assert (g_gameCardHfsRootHeader st4 = Some r') as R4
        by (subst st4 st3; st_simpl; reflexivity).
      assert (forall j, 0 <= j -> pi_header (parts0 j) = None) as T4
        by (intros; reflexivity).
      assert (g_gameCardHfsPartitions st4 = Some parts0) as P4
        by (subst st4; st_simpl; reflexivity).
      assert (0 + Z.of_nat (Z.to_nat (hfs_entry_count r'))
              = hfs_entry_count r') as N4
        by (rewrite hfs_entry_count_nat; lia).
      pose proof (gamecardLoadInfo_partitions_spec hos
                    (Z.to_nat (hfs_entry_count r')) 0 r' parts0 st4
                    L4 R4 P4 (Z.le_refl 0) N4 T4) as Hloop.
      cbv zeta in Hloop.
      destruct Hloop as (L5 & R5 & D5 & C5 & parts5 & P5 & Hp5).
      destruct (gamecardLoadInfo_partitions hos _ 0 r' parts0 st4)
        as [ok5 st5].
      simpl snd in *.
      subst parts0. rewrite count_headers_zero in Hp5.
      assert (g_gameCardHeader st5 = g_gameCardHeader st
              /\ g_gameCardCapacity st5 = g_gameCardCapacity st
              /\ heap_live st5 = heap_live st + held_blocks st5)
        as (D6 & C6 & Hp6).
      { unfold held_blocks. rewrite R5, P5.
        subst st4 st3. st_simpl. repeat split; try congruence. lia. }
      destruct ok5; simpl negb; cbv iota.
      * unfold held_blocks in *. st_simpl.
        split; [exact D6|]. split; [exact C6|]. split; [exact Hp6|].
        intros _. exists r'. repeat split; assumption.
      * repeat split; try assumption. intros Habs. congruence.
    + set (st4 := set_g_gameCardHfsPartitions None _).
      assert (g_gameCardInfoLoaded st4 = false) as L4
        by (subst st4 st3; st_simpl; congruence).
      subst st4 st3. unfold held_blocks in *. st_simpl.
      destruct Hst3 as (D3 & C3 & _ & _).
      split; [exact D3|]. split; [exact C3|]. split; [lia|].
      intros Habs. congruence.
  - unfold held_blocks. st_simpl. rewrite Hparts.
    repeat split; try lia. intros Habs. congruence.
Qed.

Lemma gamecardLoadInfo_checked_spec :
  forall hos st,
    g_gameCardInfoLoaded st = false ->
    g_gameCardHfsRootHeader st = None ->
    g_gameCardHfsPartitions st = None ->
    let st' := gamecardLoadInfo_checked hos st in
    heap_live st' = heap_live st + held_blocks st'
    /\ (g_gameCardInfoLoaded st' = true ->
        info_validated st' /\ g_gameCardHeader st' = g_gameCardHeader st).
Proof.
  intros hos st Hload Hroot Hparts. cbv zeta.
  unfold gamecardLoadInfo_checked.
  destruct (negb (_ =? GAMECARD_HEAD_MAGIC)) eqn:Hmagic.
  - unfold held_blocks. rewrite Hroot, Hparts.
    split; [lia | congruence].
  - apply negb_false_iff in Hmagic. apply Z.eqb_eq in Hmagic.
    cbv zeta.
    destruct (gamecardGetCapacityFromRomSizeValue _ =? 0) eqn:Hcap.
    + unfold held_blocks. st_simpl. rewrite Hroot, Hparts.
      split; [lia | congruence].
    + apply Z.eqb_neq in Hcap.
      match goal with
      | |- context [gamecardLoadInfo_root hos ?s] =>
          assert (g_gameCardInfoLoaded s = false
                  /\ g_gameCardHfsRootHeader s = None
                  /\ g_gameCardHfsPartitions s = None
                  /\ g_gameCardHeader s = g_gameCardHeader st
                  /\ heap_live s = heap_live st
                  /\ g_gameCardCapacity s
                     = gamecardGetCapacityFromRomSizeValue
                         (header_rom_size (g_gameCardHeader st)))
            as (L & R & P & D & Hh & C)
            by (destruct (utilsGetCustomFirmwareType_is_SXOS hos);
                st_simpl; auto 10);
          destruct (gamecardLoadInfo_root_spec hos s L R P)
            as (D' & C' & H' & V');
          set (st' := gamecardLoadInfo_root hos s) in *
      end.
      split; [lia|].
      intros Hl. destruct (V' Hl) as (root & Hr & Hm & Hc & Hn & Hs).
      split; [|congruence].
      unfold info_validated. rewrite D', D, C', C.
      repeat split; try assumption.
      exists root. rewrite D in Hs. auto 10.
Qed.

Lemma gamecardFreeInfo_not_loaded :
  forall st, g_gameCardInfoLoaded (gamecardFreeInfo st) = false.
Proof.
  intros st. exact (proj1 (gamecardFreeInfo_spec st)).
Qed.

(** [gamecardLoadInfo] on a session that holds nothing: either the session
    becomes loaded, with a header and a root header that pass the checks,
    or everything is released. *)
Lemma gamecardLoadInfo_outcome :
  forall hos st,
    g_gameCardInfoLoaded st = false ->
    g_gameCardHfsRootHeader st = None ->
    g_gameCardHfsPartitions st = None ->
    (g_gameCardInfoLoaded (gamecardLoadInfo hos st) = true ->
     info_validated (gamecardLoadInfo hos st)
     /\ g_gameCardHeader (gamecardLoadInfo hos st)
        = g_gameCardHeader (snd (gamecardLoadInfo_header hos st)))
    /\ (g_gameCardInfoLoaded (gamecardLoadInfo hos st) = false ->
        info_released st (gamecardLoadInfo hos st)).
Proof.
  intros hos st Hload Hroot Hparts. unfold gamecardLoadInfo. rewrite Hload.
  pose proof (gamecardLoadInfo_header_keeps hos st) as Hk.
  destruct (gamecardLoadInfo_header hos st) as [ok st1]. simpl snd in *.
  unfold heap_of in Hk. injection Hk as L1 C1 R1 P1 Hp1.
  rewrite Hload in L1. rewrite Hroot in R1. rewrite Hparts in P1.
  destruct ok; simpl negb; cbv iota.
  - destruct (gamecardLoadInfo_checked_spec hos st1 L1 R1 P1) as [Hh Hv].
    cbv zeta in Hh, Hv.
    destruct (g_gameCardInfoLoaded (gamecardLoadInfo_checked hos st1)) eqn:Hl;
      simpl negb; cbv iota.
    + split; [intros _; apply Hv; reflexivity | congruence].
    + split; [rewrite gamecardFreeInfo_not_loaded; discriminate|].
      intros _. eapply info_released_heap; [apply gamecardFreeInfo_spec|].
      st_simpl. lia.
  - rewrite L1. simpl negb. cbv iota.
    split; [rewrite gamecardFreeInfo_not_loaded; discriminate|].
    intros _. eapply info_released_heap; [apply gamecardFreeInfo_spec|].
    unfold held_blocks. rewrite R1, P1. st_simpl. lia.
Qed.

(** A header whose capacity byte is not in the table, or whose magic is
    wrong, is rejected. *)
Lemma gamecardLoadInfo_rejects :
  forall hos st,
    g_gameCardInfoLoaded st = false ->
    __builtin_bswap32
      (header_magic (g_gameCardHeader (snd (gamecardLoadInfo_header hos st))))
    <> GAMECARD_HEAD_MAGIC
    \/ gamecardGetCapacityFromRomSizeValue
         (header_rom_size
            (g_gameCardHeader (snd (gamecardLoadInfo_header hos st)))) = 0 ->
    g_gameCardInfoLoaded (gamecardLoadInfo hos st) = false.
Proof.
  intros hos st Hload Hbad. unfold gamecardLoadInfo. rewrite Hload.
  pose proof (gamecardLoadInfo_header_keeps hos st) as Hk.
  destruct (gamecardLoadInfo_header hos st) as [ok st1]. simpl snd in *.
  unfold heap_of in Hk. injection Hk as L1 _ _ _ _. rewrite Hload in L1.
  assert (forall s, g_gameCardInfoLoaded s = false ->
                    g_gameCardInfoLoaded
                      (if negb (g_gameCardInfoLoaded s)
                       then gamecardFreeInfo s else s) = false) as Hout.
  { intros s Hs. rewrite Hs. apply gamecardFreeInfo_not_loaded. }
  destruct ok; simpl negb; cbv iota; [|apply Hout; exact L1].
  apply Hout. unfold gamecardLoadInfo_checked.
  destruct Hbad as [Hmagic | Hcap].
  - apply Z.eqb_neq in Hmagic. rewrite Hmagic. exact L1.
  - destruct (negb (_ =? GAMECARD_HEAD_MAGIC)); [exact L1|].
    cbv zeta. rewrite Hcap. exact L1.
Qed.

(** The thread turn taken while the card was already seen inserted only
    runs [gamecardFreeInfo]. *)
Lemma gamecardDetectionThreadFunc_iteration_inserted :
  forall hos st,
    snd (gamecardDetectionThreadFunc_iteration hos true st)
    = gamecardFreeInfo
        (set_g_gameCardInserted (fst (gamecardIsInserted hos st))
           (snd (gamecardIsInserted hos st))).
Proof.
  intros hos st. unfold gamecardDetectionThreadFunc_iteration.
  destruct (gamecardIsInserted hos st) as [inserted st1]. reflexivity.
Qed.

Lemma gamecardDetectionThreadFunc_iterations_inserted :
  forall hos n st,
    g_gameCardInfoLoaded st = false ->
    (forall k, (k < n)%nat ->
               fst (gamecardDetectionThreadFunc_iterations hos (S k) true st)
               = true) ->
    g_gameCardInfoLoaded
      (snd (gamecardDetectionThreadFunc_iterations hos n true st)) = false.
Proof.
  intros hos n. induction n as [|n IH]; intros st Hload Hseen.
  - exact Hload.
  - cbn [gamecardDetectionThreadFunc_iterations].
    pose proof (Hseen O ltac:(lia)) as H0.
    cbn [gamecardDetectionThreadFunc_iterations] in H0.
    pose proof (gamecardDetectionThreadFunc_iteration_inserted hos st) as Hit.
    destruct (gamecardDetectionThreadFunc_iteration hos true st)
      as [prev st1] eqn:Hstep.
    simpl in H0, Hit. subst prev.
    apply IH.
    + rewrite Hit. apply gamecardFreeInfo_not_loaded.
    + intros k Hk. pose proof (Hseen (S k) ltac:(lia)) as Hk'.
      cbn [gamecardDetectionThreadFunc_iterations] in Hk'.
      rewrite Hstep in Hk'. exact Hk'.
Qed.

(** ** gamecardLoadInfo: failed validation *)

(** C5.  Let [gamecardLoadInfo] run on a session that holds no card
    information.  The session ends up loaded only if the header and the
    root hash file system header it read pass every check: header magic
    "HEAD", a [rom_size] of the capacity table, root magic "HFS0", an
    [entry_count] and a [name_table_size] that are not zero, and a root
    header (header, entries and name table) no larger than the declared
    [partition_fs_header_size].  Otherwise [g_gameCardInfoLoaded] stays
    [false] and everything is released: header zeroed, sizes and capacity
    zero, every heap block freed, storage area and handle closed.  No retry
    follows: as long as the detection thread keeps seeing the card
    inserted, each of its turns only runs [gamecardFreeInfo] and the
    session stays not loaded. *)
Theorem gamecardLoadInfo_failure_releases_everything :
  forall (hos : Platform) (st : GcState),
    g_gameCardInfoLoaded st = false ->
    g_gameCardHfsRootHeader st = None ->
    g_gameCardHfsPartitions st = None ->
    (g_gameCardInfoLoaded (gamecardLoadInfo hos st) = true ->
     info_validated (gamecardLoadInfo hos st)
     /\ g_gameCardHeader (gamecardLoadInfo hos st)
        = g_gameCardHeader (snd (gamecardLoadInfo_header hos st)))
    /\ (g_gameCardInfoLoaded (gamecardLoadInfo hos st) = false ->
        info_released st (gamecardLoadInfo hos st)
        /\ forall hos' n,
             (forall k, (k < n)%nat ->
                fst (gamecardDetectionThreadFunc_iterations hos' (S k) true
                       (gamecardLoadInfo hos st)) = true) ->
             g_gameCardInfoLoaded
               (snd (gamecardDetectionThreadFunc_iterations hos' n true
                       (gamecardLoadInfo hos st))) = false)
    /\ (__builtin_bswap32
          (header_magic
             (g_gameCardHeader (snd (gamecardLoadInfo_header hos st))))
        <> GAMECARD_HEAD_MAGIC
        \/ gamecardGetCapacityFromRomSizeValue
             (header_rom_size
                (g_gameCardHeader (snd (gamecardLoadInfo_header hos st)))) = 0 ->
        g_gameCardInfoLoaded (gamecardLoadInfo hos st) = false).
Proof.
  intros hos st Hload Hroot Hparts.
  destruct (gamecardLoadInfo_outcome hos st Hload Hroot Hparts) as [Hok Hko].
  split; [exact Hok|]. split.
  - intros Hfail. split; [exact (Hko Hfail)|].
    intros hos' n Hseen.
    apply gamecardDetectionThreadFunc_iterations_inserted; assumption.
  - apply gamecardLoadInfo_rejects. exact Hload.
Qed.

(** On the card whose header has the capacity byte 0x42 the load fails,
    everything is released, and three more card events with the card still
    inserted leave the session not loaded. *)
Lemma gamecardLoadInfo_failure_releases_everything_witness :
  g_gameCardInfoLoaded (gamecardLoadInfo odd_capacity_platform inserted_state)
  = false
  /\ info_released inserted_state
       (gamecardLoadInfo odd_capacity_platform inserted_state)
  /\ g_gameCardInfoLoaded
       (snd (gamecardDetectionThreadFunc_iterations odd_capacity_platform 3
               true (gamecardLoadInfo odd_capacity_platform inserted_state)))
     = false.
Proof.
  assert (g_gameCardInfoLoaded
            (gamecardLoadInfo odd_capacity_platform inserted_state) = false)
    as Hfail by (vm_compute; reflexivity).
  split; [exact Hfail|].
  destruct (gamecardLoadInfo_failure_releases_everything odd_capacity_platform
              inserted_state eq_refl eq_refl eq_refl) as (_ & Hko & _).
  destruct (Hko Hfail) as [Hrel Hretry].
  split; [exact Hrel|].
  apply Hretry. intros k Hk.
  destruct k as [|[|[|k]]]; try lia; vm_compute; reflexivity.
Defined.

(** A card without a header: the magic word read at 0x100 is not "HEAD",
    the load fails and the session is the one [gamecardFreeInfo] leaves. *)
Example gamecardLoadInfo_blank_card :
  __builtin_bswap32
    (header_magic
       (g_gameCardHeader (snd (gamecardLoadInfo_header blank_platform
                                 inserted_state))))
  <> GAMECARD_HEAD_MAGIC
  /\ g_gameCardInfoLoaded (gamecardLoadInfo blank_platform inserted_state)
     = false
  /\ g_gameCardHandle (gamecardLoadInfo blank_platform inserted_state) = 0
  /\ heap_live (gamecardLoadInfo blank_platform inserted_state)
     = heap_live inserted_state.
Proof.
  split; [vm_compute; discriminate|].
  repeat split; vm_compute; reflexivity.
Qed.

(** ** gamecardGetCapacityFromRomSizeValue *)

(** C2.  [gamecardGetCapacityFromRomSizeValue] maps 0xFA, 0xF8, 0xF0, 0xE0,
    0xE1 and 0xE2 to 1, 2, 4, 8, 16 and 32 GiB and every other value to
    zero; when the [rom_size] byte of the header that [gamecardLoadInfo]
    has read maps to zero, the card is rejected: the session is not loaded
    afterwards. *)
Theorem gamecardGetCapacityFromRomSizeValue_table :
  gamecardGetCapacityFromRomSizeValue 0xFA = 0x40000000
  /\ gamecardGetCapacityFromRomSizeValue 0xF8 = 2 * 0x40000000
  /\ gamecardGetCapacityFromRomSizeValue 0xF0 = 4 * 0x40000000
  /\ gamecardGetCapacityFromRomSizeValue 0xE0 = 8 * 0x40000000
  /\ gamecardGetCapacityFromRomSizeValue 0xE1 = 16 * 0x40000000
  /\ gamecardGetCapacityFromRomSizeValue 0xE2 = 32 * 0x40000000
  /\ (forall rom_size,
        rom_size <> 0xFA -> rom_size <> 0xF8 -> rom_size <> 0xF0 ->
        rom_size <> 0xE0 -> rom_size <> 0xE1 -> rom_size <> 0xE2 ->
        gamecardGetCapacityFromRomSizeValue rom_size = 0)
  /\ (forall hos st,
        g_gameCardInfoLoaded st = false ->
        gamecardGetCapacityFromRomSizeValue
          (header_rom_size
             (g_gameCardHeader (snd (gamecardLoadInfo_header hos st)))) = 0 ->
        g_gameCardInfoLoaded (gamecardLoadInfo hos st) = false).
Proof.
  repeat split; try reflexivity.
  - intros rom_size H1 H2 H3 H4 H5 H6.
    unfold gamecardGetCapacityFromRomSizeValue, GameCardRomSize_1GiB,
      GameCardRomSize_2GiB, GameCardRomSize_4GiB, GameCardRomSize_8GiB,
      GameCardRomSize_16GiB, GameCardRomSize_32GiB.
    repeat match goal with
           | |- context [?a =? ?b] =>
               destruct (Z.eqb_spec a b); [contradiction|]
           end.
    reflexivity.
  - intros hos st Hload Hcap. apply gamecardLoadInfo_rejects; auto.
Qed.

(** The byte 0x42 is not in the table, and the card that carries it is
    rejected. *)
Lemma gamecardGetCapacityFromRomSizeValue_table_witness :
  gamecardGetCapacityFromRomSizeValue 0x42 = 0
  /\ g_gameCardInfoLoaded (gamecardLoadInfo odd_capacity_platform inserted_state)
     = false.
Proof.
  destruct gamecardGetCapacityFromRomSizeValue_table
    as (_ & _ & _ & _ & _ & _ & Hother & Hreject).
  split.
  - apply Hother; discriminate.
  - apply Hreject; [reflexivity | vm_compute; reflexivity].
Defined.

(** ** gamecardReadStorageArea: bounds *)

(** X2.  A request whose end, computed without wrap-around, lies past the
    end of the secure area is refused when the 64-bit sum does not wrap:
    [false] is returned, and neither the session nor the destination
    changes. *)
Lemma gamecardReadStorageArea_rejects_request_past_the_end :
  forall hos st obj out read_size offset lock,
    0 <= offset -> 0 <= read_size ->
    offset + read_size < 2 ^ 64 ->
    0 <= g_gameCardStorageNormalAreaSize st + g_gameCardStorageSecureAreaSize st
      < 2 ^ 64 ->
    offset + read_size
    > g_gameCardStorageNormalAreaSize st + g_gameCardStorageSecureAreaSize st ->
    gamecardReadStorageArea hos st obj out read_size offset lock
    = (false, st, obj).
Proof.
  intros hos st obj out read_size offset lock Hoff Hrs Hsum Hsizes Hpast.
  unfold gamecardReadStorageArea.
  destruct (read_fuel_S read_size) as [n ->].
  cbn [gamecardReadStorageArea_rec].
  destruct out as [out_u8|]; [|reflexivity].
  cbv zeta.
  rewrite (u64_small (offset + read_size)) by lia.
  rewrite (u64_small (g_gameCardStorageNormalAreaSize st
                      + g_gameCardStorageSecureAreaSize st)) by lia.
  assert ((offset + read_size
           >? g_gameCardStorageNormalAreaSize st
              + g_gameCardStorageSecureAreaSize st) = true) as ->
    by (rewrite Z.gtb_ltb; apply Z.ltb_lt; lia).
  rewrite orb_true_r. reflexivity.
Qed.

(** On the demo card, two bytes asked for at the last byte of the secure
    area. *)
Lemma gamecardReadStorageArea_rejects_request_past_the_end_witness :
  gamecardReadStorageArea demo_platform ready_state zeroed (Some 0) 2
    0x2FFFFFF true
  = (false, ready_state, zeroed).
Proof.
  apply gamecardReadStorageArea_rejects_request_past_the_end.
  - lia.
  - lia.
  - vm_compute. reflexivity.
  - vm_compute. split; [intros H; discriminate H | reflexivity].
  - vm_compute. reflexivity.
Defined.

(** C4 fails on the code when the sum wraps.  With the demo card loaded
    (48 MiB in all), the request of 2^64 - 0x1FE bytes at offset 0x3FF ends
    far past the card, but the 64-bit sum is 0x201: the request is
    accepted, one sector is read, 2^64 - 0x1FE bytes are copied from the
    read buffer to the destination, and [true] is returned. *)
Theorem gamecardRead_serves_request_whose_end_wraps :
  0x3FF + (2 ^ 64 - 0x1FE)
  > g_gameCardStorageNormalAreaSize ready_state
    + g_gameCardStorageSecureAreaSize ready_state
  /\ u64 (0x3FF + (2 ^ 64 - 0x1FE)) = 0x201
  /\ fst (fst (gamecardRead demo_platform ready_state zeroed (Some 0)
                 (2 ^ 64 - 0x1FE) 0x3FF)) = true
  /\ trace (snd (fst (gamecardRead demo_platform ready_state zeroed (Some 0)
                        (2 ^ 64 - 0x1FE) 0x3FF)))
     = trace ready_state
       ++ [EvStorageRead (Some 0) 0x200 0x200 0;
           EvMemcpy 0 (2 ^ 64 - 0x1FE)]
  /\ snd (gamecardRead demo_platform ready_state zeroed (Some 0)
            (2 ^ 64 - 0x1FE) 0x3FF) 0 = demo_card_byte 0x3FF
  /\ demo_card_byte 0x3FF <> zeroed 0.
Proof.
  split; [vm_compute; reflexivity|].
  split; [vm_compute; reflexivity|].
  unfold gamecardRead, gamecardReadStorageArea.
  destruct (read_fuel_S (2 ^ 64 - 0x1FE)) as [n ->].
  split; [vm_compute; reflexivity|].
  split; [vm_compute; reflexivity|].
  split; [vm_compute; reflexivity|].
  vm_compute. discriminate.
Qed.

(** ** gamecardReadStorageArea: data *)

(** *** Requests the code serves as specified

    On a console that works, every request inside the card is served from
    the linear address space, across the area boundary and whatever its
    alignment, as long as the part of it that lies in the secure area needs
    one read of the storage only. *)

Section GoodConsoleReads.

Variable hos : Platform.
Variables handle normal_size secure_size : Z.
Variable area_data : Z -> Z -> Z.
Hypothesis good : GoodConsole hos handle normal_size secure_size area_data.

Lemma gamecardGetHandle_good :
  forall st,
    g_gameCardInserted st = true ->
    g_gameCardHandle st = 0 ->
    exists st',
      gamecardGetHandle hos st = (true, st')
      /\ g_gameCardHandle st' = handle
      /\ session_of st' = session_of st
      /\ g_gameCardReadBuf st' = g_gameCardReadBuf st
      /\ g_gameCardStorage st' = g_gameCardStorage st
      /\ g_gameCardStorageCurrentArea st' = g_gameCardStorageCurrentArea st.
Proof.
  intros st Hins Hh.
  unfold gamecardGetHandle. rewrite Hins. cbn [negb].
  change 10%nat with (S (S 8)).
  generalize 8%nat; intro n.
  cbn [gamecardGetHandle_loop].
  rewrite Hh.
  assert (H0 : 0 <> handle) by (intro E; apply (good_handle _ _ _ _ _ good); auto).
  pose proof (good_open_only _ _ _ _ _ good (trace st) 0 0 H0) as Hbad.
  unfold R_SUCCEEDED at 1.
  destruct (fsOpenGameCardStorage hos (trace st) 0 0 =? 0) eqn:E1;
    [apply Z.eqb_eq in E1; contradiction|].
  rewrite (good_get_handle _ _ _ _ _ good).
  st_simpl.
  rewrite (good_open _ _ _ _ _ good).
  cbn [R_SUCCEEDED R_FAILED Z.eqb negb orb].
  eexists. split; [reflexivity|].
  st_simpl. repeat split; reflexivity.
Qed.

Lemma gamecardOpenStorageArea_good :
  forall area st,
    readable_state normal_size secure_size st ->
    area = GameCardStorageArea_Normal \/ area = GameCardStorageArea_Secure ->
    exists st',
      gamecardOpenStorageArea hos area st = (true, st')
      /\ g_gameCardStorage st' = Some (area - 1)
      /\ readable_state normal_size secure_size st'
      /\ g_gameCardReadBuf st' = g_gameCardReadBuf st.
Proof.
  intros area st (Hins & HN & HS & Hbuf & Hcoh) Harea.
  unfold gamecardOpenStorageArea. rewrite Hins. cbn [negb orb].
  assert (Ha : negb (area =? GameCardStorageArea_Normal)
               && negb (area =? GameCardStorageArea_Secure) = false).
  { destruct Harea as [-> | ->]; reflexivity. }
  rewrite Ha.
  destruct (negb (g_gameCardHandle st =? 0)
            && serviceIsActive (g_gameCardStorage st)
            && (g_gameCardStorageCurrentArea st =? area)) eqn:Eopen.
  - apply andb_prop in Eopen. destruct Eopen as [Eopen Ecur].
    apply andb_prop in Eopen. destruct Eopen as [_ Eact].
    apply Z.eqb_eq in Ecur.
    exists st. split; [reflexivity|].
    destruct (g_gameCardStorage st) as [p|] eqn:Est; [|discriminate].
    split; [f_equal; lia|].
    split; [|reflexivity].
    unfold readable_state. rewrite Est. auto.
  - destruct (gamecardGetHandle_good (gamecardCloseStorageArea st))
      as (st1 & Hget & Hh1 & Hs1 & Hb1 & Hst1 & Hc1).
    { rewrite <- Hins.
      pose proof (session_of_gamecardCloseStorageArea st) as Hs.
      session_fields Hs. assumption. }
    { unfold gamecardCloseStorageArea. st_simpl. reflexivity. }
    rewrite Hget. cbn [negb].
    rewrite Hh1, (good_open _ _ _ _ _ good).
    cbn [R_FAILED Z.eqb negb].
    eexists. split; [reflexivity|].
    assert (Hu : u32 (area - 1) = area - 1)
      by (destruct Harea as [-> | ->]; reflexivity).
    st_simpl. rewrite Hu.
    split; [reflexivity|].
    pose proof (session_of_gamecardCloseStorageArea st) as Hs.
    rewrite <- Hs1 in Hs. session_fields Hs.
    split.
    + unfold readable_state. st_simpl.
      repeat split; try congruence.
      * rewrite Hb1. unfold gamecardCloseStorageArea.
        destruct (serviceIsActive (g_gameCardStorage st)); st_simpl; assumption.
      * lia.
    + rewrite Hb1. unfold gamecardCloseStorageArea.
      destruct (serviceIsActive (g_gameCardStorage st)); st_simpl; reflexivity.
Qed.

Lemma readable_state_log :
  forall e st,
    readable_state normal_size secure_size st ->
    readable_state normal_size secure_size (log e st).
Proof. intros e st H. unfold readable_state in *. st_simpl. exact H. Qed.

Lemma readable_state_set_g_gameCardReadBuf :
  forall b st,
    readable_state normal_size secure_size st ->
    readable_state normal_size secure_size (set_g_gameCardReadBuf (Some b) st).
Proof.
  intros b st (H1 & H2 & H3 & _ & H5). unfold readable_state. st_simpl.
  repeat split; try assumption. discriminate.
Qed.

Lemma area_size_bound :
  forall partition, 0 < area_size normal_size secure_size partition <= 2 ^ 64 - 512.
Proof.
  intro p.
  pose proof (good_normal_size _ _ _ _ _ good) as [HN1 HN2].
  pose proof (good_secure_size _ _ _ _ _ good) as [HS1 HS2].
  pose proof (good_total_size _ _ _ _ _ good) as HT.
  unfold GAMECARD_MEDIA_UNIT_SIZE in *.
  unfold area_size. destruct (p =? 0); Z.div_mod_to_equations; lia.
Qed.

Lemma area_size_aligned :
  forall partition, area_size normal_size secure_size partition mod 512 = 0.
Proof.
  intro p.
  pose proof (good_normal_size _ _ _ _ _ good) as [HN1 HN2].
  pose proof (good_secure_size _ _ _ _ _ good) as [HS1 HS2].
  unfold area_size. destruct (p =? 0); assumption.
Qed.

Lemma storage_read_into_good :
  forall st dst d off size partition,
    readable_state normal_size secure_size st ->
    g_gameCardStorage st = Some partition ->
    0 <= off -> 0 <= size ->
    off mod GAMECARD_MEDIA_UNIT_SIZE = 0 ->
    size mod GAMECARD_MEDIA_UNIT_SIZE = 0 ->
    off + size <= area_size normal_size secure_size partition ->
    exists st' data,
      storage_read_into hos st dst d off size
      = (0, st', memcpy dst d data 0 size)
      /\ (forall j, 0 <= j < size -> data j = area_data partition (off + j))
      /\ readable_state normal_size secure_size st'
      /\ g_gameCardReadBuf st' = g_gameCardReadBuf st.
Proof.
  intros st dst d off size p Hr Hst Hoff Hsize Ha1 Ha2 Hin.
  unfold storage_read_into. rewrite Hst.
  destruct (good_read _ _ _ _ _ good (trace st) p off size Hoff Hsize Ha1 Ha2 Hin)
    as [Hrc Hdata].
  destruct (fsStorageRead hos (trace st) (Some p) off size) as [rc data].
  cbn [fst snd] in Hrc, Hdata. subst rc.
  cbn [R_SUCCEEDED Z.eqb].
  eexists. exists data. split; [reflexivity|].
  split; [exact Hdata|].
  split; [apply readable_state_log; exact Hr|].
  st_simpl. reflexivity.
Qed.

Lemma read_within_area_good :
  forall self st1 obj1 out rs off area partition base,
    readable_state normal_size secure_size st1 ->
    (area = GameCardStorageArea_Normal /\ partition = 0 /\ base = off)
    \/ (area = GameCardStorageArea_Secure /\ partition = 1
        /\ base = off - normal_size) ->
    0 <= base -> 0 < rs -> base + rs <= area_size normal_size secure_size partition ->
    0 <= off < 2 ^ 64 ->
    (forall st4 obj2 oc,
        readable_state normal_size secure_size st4 ->
        GAMECARD_READ_BUFFER_SIZE
        < (base + rs + 511) / 512 * 512 - base / 512 * 512 ->
        ~ (base mod GAMECARD_MEDIA_UNIT_SIZE = 0
           /\ rs mod GAMECARD_MEDIA_UNIT_SIZE = 0) ->
        oc = GAMECARD_READ_BUFFER_SIZE - (base - base / 512 * 512) ->
        (forall i, 0 <= i < oc -> obj2 (out + i) = area_data partition (base + i)) ->
        (forall k, k < out \/ out + oc <= k -> obj2 k = obj1 k) ->
        exists st' obj',
          self st4 obj2 (Some (out + oc)) (u64 (rs - oc)) (u64 (base + oc))
          = Some (true, st', obj')
          /\ readable_state normal_size secure_size st'
          /\ (forall i, 0 <= i < rs ->
                obj' (out + i) = area_data partition (base + i))
          /\ (forall k, k < out \/ out + rs <= k -> obj' k = obj1 k)) ->
    exists st' obj',
      read_within_area hos self st1 obj1 out rs off area
      = Some (true, st', obj')
      /\ readable_state normal_size secure_size st'
      /\ (forall i, 0 <= i < rs ->
            obj' (out + i) = area_data partition (base + i))
      /\ (forall k, k < out \/ out + rs <= k -> obj' k = obj1 k).
Proof.
  intros self st1 obj1 out rs off area p base Hr Harea Hb0 Hrs Hin Hoff Hcont.
  pose proof (area_size_bound p) as Hsz.
  pose proof (area_size_aligned p) as Hal.
  unfold read_within_area.
  destruct (gamecardOpenStorageArea_good area st1 Hr) as (st2 & Hopen & Hst2 & Hr2 & Hb2).
  { destruct Harea as [(-> & _) | (-> & _)]; auto. }
  rewrite Hopen. cbn [negb].
  assert (Hbase : (if area =? GameCardStorageArea_Normal then off
                   else u64 (off - g_gameCardStorageNormalAreaSize st2)) = base).
  { destruct Harea as [(-> & _ & ->) | (-> & _ & ->)]; cbn [Z.eqb GameCardStorageArea_Normal GameCardStorageArea_Secure Pos.eqb].
    - reflexivity.
    - destruct Hr2 as (_ & -> & _). apply u64_small. lia. }
  rewrite Hbase.
  assert (Hp : area - 1 = p).
  { destruct Harea as [(-> & -> & _) | (-> & -> & _)]; reflexivity. }
  rewrite Hp in Hst2.
  destruct ((base mod GAMECARD_MEDIA_UNIT_SIZE =? 0)
            && (rs mod GAMECARD_MEDIA_UNIT_SIZE =? 0)) eqn:Ealigned.
  - apply andb_prop in Ealigned. destruct Ealigned as [E1 E2].
    apply Z.eqb_eq in E1, E2.
    destruct (storage_read_into_good st2 obj1 out base rs p Hr2 Hst2)
      as (st3 & data & Hread & Hdata & Hr3 & _); try lia; try assumption.
    rewrite Hread. cbn [R_FAILED Z.eqb negb].
    eexists. eexists. split; [reflexivity|].
    split; [exact Hr3|].
    split.
    + intros i Hi. unfold memcpy.
      replace ((out <=? out + i) && (out + i <? out + rs)) with true
        by (symmetry; apply andb_true_intro; split;
            [apply Z.leb_le | apply Z.ltb_lt]; lia).
      rewrite Hdata by lia. f_equal. lia.
    + intros k Hk. unfold memcpy.
      replace ((out <=? k) && (k <? out + rs)) with false; [reflexivity|].
      symmetry. apply andb_false_iff.
      destruct Hk; [left; apply Z.leb_gt | right; apply Z.ltb_ge]; lia.
  - assert (Hunaligned : ~ (base mod GAMECARD_MEDIA_UNIT_SIZE = 0
                             /\ rs mod GAMECARD_MEDIA_UNIT_SIZE = 0)).
    { intros [A B]. rewrite A, B in Ealigned. discriminate. }
    clear Ealigned.
    rewrite ALIGN_DOWN_unit, ALIGN_UP_unit.
    rewrite (u64_small (base + rs)) by lia.
    rewrite (u64_small (base + rs + 511)) by lia.
    set (bs := base / 512 * 512) in *.
    set (be := (base + rs + 511) / 512 * 512) in *.
    assert (Hbs : bs <= base < bs + 512 /\ 0 <= bs /\ bs mod 512 = 0).
    { unfold bs. Z.div_mod_to_equations. lia. }
    assert (Hbe : base + rs <= be < base + rs + 512 /\ be mod 512 = 0
                  /\ be <= area_size normal_size secure_size p).
    { unfold be. Z.div_mod_to_equations. lia. }
    rewrite (u64_small (be - bs)) by lia.
    rewrite (u64_small (base - bs)) by lia.
    assert (HBUF : GAMECARD_READ_BUFFER_SIZE = 8388608) by reflexivity.
    destruct (g_gameCardReadBuf st2) as [scratch|] eqn:Ebuf.
    2:{ destruct Hr2 as (_ & _ & _ & Hn & _). contradiction. }
    destruct (be - bs >? GAMECARD_READ_BUFFER_SIZE) eqn:Ebig.
    + apply Z.gtb_lt in Ebig.
      rewrite (u64_small (GAMECARD_READ_BUFFER_SIZE - (base - bs))) by lia.
      destruct (storage_read_into_good st2 scratch 0 bs GAMECARD_READ_BUFFER_SIZE
                  p Hr2 Hst2)
        as (st3 & data & Hread & Hdata & Hr3 & _); try lia;
        try (unfold GAMECARD_MEDIA_UNIT_SIZE; tauto);
        try (rewrite HBUF; reflexivity).
      rewrite Hread. cbn [R_FAILED Z.eqb negb].
      apply Hcont.
      * apply readable_state_log, readable_state_set_g_gameCardReadBuf, Hr3.
      * lia.
      * exact Hunaligned.
      * reflexivity.
      * intros i Hi. unfold memcpy.
        replace ((out <=? out + i)
                 && (out + i <? out + (GAMECARD_READ_BUFFER_SIZE - (base - bs))))
          with true
          by (symmetry; apply andb_true_intro; split;
              [apply Z.leb_le | apply Z.ltb_lt]; lia).
        replace ((0 <=? base - bs + (out + i - out))
                 && (base - bs + (out + i - out) <? 0 + GAMECARD_READ_BUFFER_SIZE))
          with true
          by (symmetry; apply andb_true_intro; split;
              [apply Z.leb_le | apply Z.ltb_lt]; lia).
        rewrite Hdata by lia. f_equal. lia.
      * intros k Hk. unfold memcpy at 1.
        replace ((out <=? k)
                 && (k <? out + (GAMECARD_READ_BUFFER_SIZE - (base - bs))))
          with false; [reflexivity|].
        symmetry. apply andb_false_iff.
        destruct Hk; [left; apply Z.leb_gt | right; apply Z.ltb_ge]; lia.
    + rewrite Z.gtb_ltb in Ebig. apply Z.ltb_ge in Ebig.
      destruct (storage_read_into_good st2 scratch 0 bs (be - bs) p Hr2 Hst2)
        as (st3 & data & Hread & Hdata & Hr3 & _); try lia;
        try (unfold GAMECARD_MEDIA_UNIT_SIZE; tauto).
      { unfold GAMECARD_MEDIA_UNIT_SIZE. Z.div_mod_to_equations. lia. }
      rewrite Hread. cbn [R_FAILED Z.eqb negb].
      eexists. eexists. split; [reflexivity|].
      split.
      { apply readable_state_log, readable_state_set_g_gameCardReadBuf, Hr3. }
      split.
      * intros i Hi. unfold memcpy.
        replace ((out <=? out + i) && (out + i <? out + rs)) with true
          by (symmetry; apply andb_true_intro; split;
              [apply Z.leb_le | apply Z.ltb_lt]; lia).
        replace ((0 <=? base - bs + (out + i - out))
                 && (base - bs + (out + i - out) <? 0 + (be - bs)))
          with true
          by (symmetry; apply andb_true_intro; split;
              [apply Z.leb_le | apply Z.ltb_lt]; lia).
        rewrite Hdata by lia. f_equal. lia.
      * intros k Hk. unfold memcpy at 1.
        replace ((out <=? k) && (k <? out + rs)) with false; [reflexivity|].
        symmetry. apply andb_false_iff.
        destruct Hk; [left; apply Z.leb_gt | right; apply Z.ltb_ge]; lia.
Qed.

Lemma read_guard_passes :
  forall st rs off,
    readable_state normal_size secure_size st ->
    0 <= off -> 0 < rs -> off + rs <= normal_size + secure_size ->
    negb (g_gameCardInserted st)
    || (g_gameCardStorageNormalAreaSize st =? 0)
    || (g_gameCardStorageSecureAreaSize st =? 0)
    || (rs =? 0)
    || (off >=?
        u64 (g_gameCardStorageNormalAreaSize st
             + g_gameCardStorageSecureAreaSize st))
    || (u64 (off + rs) >?
        u64 (g_gameCardStorageNormalAreaSize st
             + g_gameCardStorageSecureAreaSize st)) = false.
Proof.
  intros st rs off (Hins & HN & HS & _) Hoff Hrs Hin.
  pose proof (good_normal_size _ _ _ _ _ good) as [HN1 _].
  pose proof (good_secure_size _ _ _ _ _ good) as [HS1 _].
  pose proof (good_total_size _ _ _ _ _ good) as HT.
  rewrite Hins, HN, HS.
  rewrite (u64_small (normal_size + secure_size)) by lia.
  rewrite (u64_small (off + rs)) by lia.
  repeat (apply orb_false_intro); try reflexivity.
  - apply Z.eqb_neq. lia.
  - apply Z.eqb_neq. lia.
  - apply Z.eqb_neq. lia.
  - rewrite Z.geb_leb. apply Z.leb_gt. lia.
  - rewrite Z.gtb_ltb. apply Z.ltb_ge. lia.
Qed.

Lemma gamecardReadStorageArea_rec_normal_good :
  forall fuel st obj out rs off,
    readable_state normal_size secure_size st ->
    0 <= off -> 0 < rs -> off + rs <= normal_size ->
    rs / (GAMECARD_READ_BUFFER_SIZE - GAMECARD_MEDIA_UNIT_SIZE)
    < Z.of_nat fuel ->
    exists st' obj',
      gamecardReadStorageArea_rec hos fuel st obj (Some out) rs off
      = Some (true, st', obj')
      /\ readable_state normal_size secure_size st'
      /\ (forall i, 0 <= i < rs -> obj' (out + i) = area_data 0 (off + i))
      /\ (forall k, k < out \/ out + rs <= k -> obj' k = obj k).
Proof.
  pose proof (good_normal_size _ _ _ _ _ good) as [HN1 HN2].
  pose proof (good_secure_size _ _ _ _ _ good) as [HS1 HS2].
  pose proof (good_total_size _ _ _ _ _ good) as HT.
  pose proof chunk_floor as Hfloor.
  assert (HBUF : GAMECARD_READ_BUFFER_SIZE = 8388608) by reflexivity.
  induction fuel as [|fuel IH]; intros st obj out rs off Hr Hoff Hrs Hin Hfuel.
  { exfalso. assert (0 <= rs / (GAMECARD_READ_BUFFER_SIZE - GAMECARD_MEDIA_UNIT_SIZE)).
    { apply Z.div_pos; lia. }
    lia. }
  cbn [gamecardReadStorageArea_rec].
  rewrite (read_guard_passes st rs off Hr) by lia.
  pose proof Hr as (_ & HN & _).
  rewrite HN.
  replace (off <? normal_size) with true by (symmetry; apply Z.ltb_lt; lia).
  rewrite (u64_small (off + rs)) by lia.
  replace (off + rs >? normal_size) with false
    by (symmetry; rewrite Z.gtb_ltb; apply Z.ltb_ge; lia).
  rewrite andb_false_r.
  apply (read_within_area_good _ st obj out rs off _ 0 off Hr);
    [left; auto | lia | lia | | lia |].
  - unfold area_size. cbn [Z.eqb]. lia.
  - intros st4 obj2 oc Hr4 Hbig _ Hoc Hfirst Hframe.
    assert (Hbs : off / 512 * 512 <= off < off / 512 * 512 + 512)
      by (Z.div_mod_to_equations; lia).
    assert (Hbe : (off + rs + 511) / 512 * 512 < off + rs + 512
                  /\ ((off + rs + 511) / 512 * 512) mod 512 = 0
                  /\ (off / 512 * 512) mod 512 = 0)
      by (Z.div_mod_to_equations; lia).
    assert (Hprog : GAMECARD_READ_BUFFER_SIZE - GAMECARD_MEDIA_UNIT_SIZE < oc < rs).
    { unfold GAMECARD_MEDIA_UNIT_SIZE. rewrite HBUF in *.
      Z.div_mod_to_equations. lia. }
    rewrite (u64_small (rs - oc)) by lia.
    rewrite (u64_small (off + oc)) by lia.
    destruct (IH st4 obj2 (out + oc) (rs - oc) (off + oc) Hr4)
      as (st' & obj' & Hrec & Hr' & Hdata & Hfr); try lia.
    { pose proof (fuel_step rs oc Hprog). lia. }
    exists st', obj'. split; [exact Hrec|]. split; [exact Hr'|].
    split.
    + intros i Hi. destruct (Z_lt_ge_dec i oc) as [Hlt | Hge].
      * rewrite Hfr by lia. apply Hfirst. lia.
      * replace (out + i) with (out + oc + (i - oc)) by lia.
        rewrite Hdata by lia. f_equal. lia.
    + intros k Hk. rewrite Hfr by lia. apply Hframe. lia.
Qed.

Lemma gamecardReadStorageArea_rec_good :
  forall fuel st obj out rs off,
    readable_state normal_size secure_size st ->
    0 <= off -> 0 < rs -> off + rs <= normal_size + secure_size ->
    secure_part_in_one_read normal_size rs off ->
    rs / (GAMECARD_READ_BUFFER_SIZE - GAMECARD_MEDIA_UNIT_SIZE) + 1
    < Z.of_nat fuel ->
    exists st' obj',
      gamecardReadStorageArea_rec hos fuel st obj (Some out) rs off
      = Some (true, st', obj')
      /\ readable_state normal_size secure_size st'
      /\ (forall i, 0 <= i < rs ->
            obj' (out + i) = linear_byte normal_size area_data (off + i))
      /\ (forall k, k < out \/ out + rs <= k -> obj' k = obj k).
Proof.
  pose proof (good_normal_size _ _ _ _ _ good) as [HN1 HN2].
  pose proof (good_secure_size _ _ _ _ _ good) as [HS1 HS2].
  pose proof (good_total_size _ _ _ _ _ good) as HT.
  pose proof chunk_floor as Hfloor.
  intros fuel st obj out rs off Hr Hoff Hrs Hin Hone Hfuel.
  assert (Hq : 0 <= rs / (GAMECARD_READ_BUFFER_SIZE - GAMECARD_MEDIA_UNIT_SIZE))
    by (apply Z.div_pos; lia).
  destruct (Z_le_gt_dec (off + rs) normal_size) as [Hnormal | Hreach].
  { (* the request lies in the normal area *)
    destruct (gamecardReadStorageArea_rec_normal_good fuel st obj out rs off Hr)
      as (st' & obj' & Hrec & Hr' & Hdata & Hfr); try lia.
    exists st', obj'. split; [exact Hrec|]. split; [exact Hr'|].
    split; [|exact Hfr].
    intros i Hi. rewrite Hdata by lia. unfold linear_byte.
    replace (off + i <? normal_size) with true
      by (symmetry; apply Z.ltb_lt; lia).
    reflexivity. }
  destruct Hone as [Hone | Hone]; [lia|].
  cbv zeta in Hone.
  destruct fuel as [|fuel]; [lia|].
  cbn [gamecardReadStorageArea_rec].
  rewrite (read_guard_passes st rs off Hr) by lia.
  pose proof Hr as (_ & HN & _).
  rewrite HN.
  rewrite (u64_small (off + rs)) by lia.
  replace (off + rs >? normal_size) with true
    by (symmetry; rewrite Z.gtb_ltb; apply Z.ltb_lt; lia).
  rewrite andb_true_r.
  destruct (off <? normal_size) eqn:Earea.
  - (* the request spans both areas *)
    apply Z.ltb_lt in Earea.
    cbn [Z.eqb GameCardStorageArea_Normal Pos.eqb].
    rewrite (u64_small (normal_size - off)) by lia.
    rewrite (u64_small (rs - (normal_size - off))) by lia.
    destruct (gamecardReadStorageArea_rec_normal_good fuel st obj out
                (normal_size - off) off Hr)
      as (st1 & obj1 & Hrec & Hr1 & Hdata1 & Hfr1); try lia.
    { pose proof (fuel_mono (normal_size - off) rs). lia. }
    rewrite Hrec. cbn [negb].
    pose proof Hr1 as (_ & HN' & _).
    rewrite HN'.
    rewrite Z.max_r in Hone by lia.
    replace (normal_size - normal_size) with 0 in Hone by lia.
    replace (off + rs - normal_size) with (rs - (normal_size - off)) in Hone by lia.
    destruct (read_within_area_good (gamecardReadStorageArea_rec hos fuel)
                st1 obj1 (out + (normal_size - off)) (rs - (normal_size - off))
                normal_size GameCardStorageArea_Secure 1 0 Hr1)
      as (st' & obj' & Hread & Hr' & Hdata & Hfr);
      [right; repeat split; lia | lia | lia
      | unfold area_size; cbn [Z.eqb]; lia | lia | |].
    { intros st4 obj2 oc _ Hbig Hunaligned _ _ _. exfalso.
      destruct Hone as [Hone | Hone]; [contradiction|]. lia. }
    exists st', obj'. split; [exact Hread|]. split; [exact Hr'|].
    split.
    + intros i Hi. unfold linear_byte.
      destruct (Z_lt_ge_dec i (normal_size - off)) as [Hlt | Hge].
      * replace (off + i <? normal_size) with true
          by (symmetry; apply Z.ltb_lt; lia).
        rewrite Hfr by lia. apply Hdata1. lia.
      * replace (off + i <? normal_size) with false
          by (symmetry; apply Z.ltb_ge; lia).
        replace (out + i)
          with (out + (normal_size - off) + (i - (normal_size - off))) by lia.
        rewrite Hdata by lia. f_equal. lia.
    + intros k Hk. rewrite Hfr by lia. apply Hfr1. lia.
  - (* the request lies in the secure area *)
    apply Z.ltb_ge in Earea.
    cbn [Z.eqb GameCardStorageArea_Secure GameCardStorageArea_Normal Pos.eqb andb].
    rewrite Z.max_l in Hone by lia.
    replace (off + rs - off) with rs in Hone by lia.
    destruct (read_within_area_good (gamecardReadStorageArea_rec hos fuel)
                st obj out rs off GameCardStorageArea_Secure 1
                (off - normal_size) Hr)
      as (st' & obj' & Hread & Hr' & Hdata & Hfr);
      [right; repeat split; lia | lia | lia
      | unfold area_size; cbn [Z.eqb]; lia | lia | |].
    { intros st4 obj2 oc _ Hbig Hunaligned _ _ _. exfalso.
      destruct Hone as [Hone | Hone]; [contradiction|]. lia. }
    exists st', obj'. split; [exact Hread|]. split; [exact Hr'|].
    split; [|exact Hfr].
    intros i Hi. unfold linear_byte.
    replace (off + i <? normal_size) with false
      by (symmetry; apply Z.ltb_ge; lia).
    rewrite Hdata by lia. f_equal. lia.
Qed.

(** X1.  On a console that works, [gamecardRead] serves every request that lies
    inside the card and whose part in the secure area is read in one go:
    it returns true, writes to the [read_size] bytes at [out] the bytes of
    the linear address space from [offset] on, whichever storage area they
    are in and however the request is aligned, and writes nothing else. *)
Theorem gamecardRead_linear_address_space :
  forall st obj out read_size offset,
    readable_state normal_size secure_size st ->
    0 <= offset -> 0 < read_size ->
    offset + read_size <= normal_size + secure_size ->
    secure_part_in_one_read normal_size read_size offset ->
    exists st' obj',
      gamecardRead hos st obj (Some out) read_size offset = (true, st', obj')
      /\ readable_state normal_size secure_size st'
      /\ (forall i, 0 <= i < read_size ->
            obj' (out + i) = linear_byte normal_size area_data (offset + i))
      /\ (forall k, k < out \/ out + read_size <= k -> obj' k = obj k).
Proof.
  intros st obj out rs off Hr Hoff Hrs Hin Hone.
  assert (Hq : 0 <= rs / (GAMECARD_READ_BUFFER_SIZE - GAMECARD_MEDIA_UNIT_SIZE)).
  { pose proof chunk_floor. apply Z.div_pos; lia. }
  destruct (gamecardReadStorageArea_rec_good (read_fuel rs) st obj out rs off
              Hr Hoff Hrs Hin Hone)
    as (st' & obj' & Hrec & Hrest).
  { unfold read_fuel. rewrite !Nat2Z.inj_succ, Z2Nat.id by exact Hq. lia. }
  exists st', obj'. split; [|exact Hrest].
  unfold gamecardRead, gamecardReadStorageArea. rewrite Hrec. reflexivity.
Qed.

End GoodConsoleReads.

Lemma demo_platform_good :
  GoodConsole demo_platform demo_handle demo_normal_size demo_secure_size
    (image (demo_card_segments GameCardRomSize_1GiB)).
Proof.
  constructor.
  - discriminate.
  - reflexivity.
  - reflexivity.
  - intros evs h p Hh. cbn [fsOpenGameCardStorage demo_platform demo_platform_with].
    destruct (h =? demo_handle) eqn:E; [apply Z.eqb_eq in E; contradiction|].
    discriminate.
  - intros evs p off size Hoff Hsize Ha1 Ha2 Hin.
    cbn [fsStorageRead demo_platform demo_platform_with].
    replace ((0 <=? off) && (0 <=? size) && (off + size <=? demo_area_size p)
             && (off mod 0x200 =? 0) && (size mod 0x200 =? 0)) with true.
    + split; [reflexivity|]. intros j _. reflexivity.
    + symmetry. repeat (apply andb_true_intro; split).
      * apply Z.leb_le; assumption.
      * apply Z.leb_le; assumption.
      * apply Z.leb_le; exact Hin.
      * apply Z.eqb_eq; exact Ha1.
      * apply Z.eqb_eq; exact Ha2.
  - split; reflexivity.
  - split; reflexivity.
  - reflexivity.
Qed.

Lemma ready_state_readable :
  readable_state demo_normal_size demo_secure_size ready_state.
Proof.
  unfold readable_state.
  split; [vm_compute; reflexivity|].
  split; [vm_compute; reflexivity|].
  split; [vm_compute; reflexivity|].
  split.
  - intro H.
    apply (f_equal (fun b => match b with Some _ => true | None => false end))
      in H.
    vm_compute in H. discriminate.
  - vm_compute. reflexivity.
Qed.


(** For instance, on the demo card, an unaligned request that starts at
    the last byte of the normal area and ends 0x401 bytes into the secure
    area. *)
Lemma gamecardRead_across_the_boundary_demo :
  exists st' obj',
    gamecardRead demo_platform ready_state zeroed (Some 0) 0x402 0xFFFFFF
    = (true, st', obj')
    /\ forall i, 0 <= i < 0x402 -> obj' i = demo_card_byte (0xFFFFFF + i).
Proof.
  destruct (gamecardRead_linear_address_space _ _ _ _ _ demo_platform_good
              ready_state zeroed 0 0x402 0xFFFFFF ready_state_readable)
    as (st' & obj' & Hread & _ & Hdata & _).
  - lia.
  - lia.
  - vm_compute. discriminate.
  - right. right. vm_compute. discriminate.
  - exists st', obj'. split; [exact Hread|].
    intros i Hi. apply (Hdata i Hi).
Defined.

(** *** The continuation of a request in the secure area *)

(** C1 fails on the code for an unaligned request in the secure area whose
    aligned block exceeds the read buffer.  With the demo card loaded, the
    request of 8 MiB at the second byte of the secure area lies within
    bounds; [true] is returned, but the call that continues the request is
    given the offset relative to the secure area as if it were an offset of
    the linear address space, reads the normal area, and the last byte
    delivered is the byte at 0x800000 of the normal area instead of the
    byte at 0x800000 of the secure area. *)
Theorem gamecardRead_continues_secure_request_in_normal_area :
  0 < 0x800000
  /\ (demo_normal_size + 1) + 0x800000
     <= g_gameCardStorageNormalAreaSize ready_state
        + g_gameCardStorageSecureAreaSize ready_state
  /\ fst (fst (gamecardRead demo_platform ready_state zeroed (Some 0)
                 0x800000 (demo_normal_size + 1))) = true
  /\ snd (gamecardRead demo_platform ready_state zeroed (Some 0)
            0x800000 (demo_normal_size + 1)) 0x7FFFFF
     = demo_card_byte 0x800000
  /\ demo_card_byte 0x800000
     <> demo_card_byte (demo_normal_size + 1 + 0x7FFFFF)
  /\ In (EvStorageRead (Some 0) 0x800000 0x200 0)
        (trace (snd (fst (gamecardRead demo_platform ready_state zeroed
                            (Some 0) 0x800000 (demo_normal_size + 1))))).
Proof.
  split; [reflexivity|].
  split; [vm_compute; discriminate|].
  split; [vm_compute; reflexivity|].
  split; [vm_compute; reflexivity|].
  split; [vm_compute; discriminate|].
  vm_compute. tauto.
Qed.

(** ** gamecardReadStorageArea: depth of the recursion *)

Lemma read_within_area_mono :
  forall hos (self1 self2 : GcState -> Bytes -> option Z -> Z -> Z
                            -> option ReadResult)
         st1 obj1 out_u8 read_size offset area r,
    (forall st obj out rs off r',
        self1 st obj out rs off = Some r' -> self2 st obj out rs off = Some r') ->
    read_within_area hos self1 st1 obj1 out_u8 read_size offset area = Some r ->
    read_within_area hos self2 st1 obj1 out_u8 read_size offset area = Some r.
Proof.
  intros hos self1 self2 st1 obj1 out_u8 read_size offset area r Hself.
  unfold read_within_area.
  destruct (gamecardOpenStorageArea hos area st1) as [ok st2].
  destruct (negb ok); [auto|].
  cbv zeta.
  destruct ((_ mod GAMECARD_MEDIA_UNIT_SIZE =? 0)
            && (read_size mod GAMECARD_MEDIA_UNIT_SIZE =? 0)); [auto|].
  destruct (g_gameCardReadBuf st2) as [scratch|]; [|auto].
  destruct (storage_read_into hos st2 scratch 0 _ _) as [[rc st3] scratch'].
  destruct (R_FAILED rc); [auto|].
  destruct (_ >? GAMECARD_READ_BUFFER_SIZE); [apply Hself | auto].
Qed.

Lemma gamecardReadStorageArea_rec_mono :
  forall hos fuel st obj out read_size offset r,
    gamecardReadStorageArea_rec hos fuel st obj out read_size offset = Some r ->
    gamecardReadStorageArea_rec hos (S fuel) st obj out read_size offset
    = Some r.
Proof.
  intros hos fuel. induction fuel as [|fuel IH];
    intros st obj out read_size offset r H; [discriminate|].
  assert (Hstep : forall st0 obj0 out0 rs0 off0 r',
             gamecardReadStorageArea_rec hos fuel st0 obj0 out0 rs0 off0
             = Some r' ->
             gamecardReadStorageArea_rec hos (S fuel) st0 obj0 out0 rs0 off0
             = Some r') by exact IH.
  clear IH. revert Hstep. generalize (S fuel) at 1 2. intros fuel1 Hstep.
  cbn [gamecardReadStorageArea_rec] in H |- *.
  destruct out as [out_u8|]; [|exact H].
  destruct (negb (g_gameCardInserted st) || _ || _ || _ || _ || _);
    [exact H|].
  cbv zeta in *.
  destruct ((_ =? GameCardStorageArea_Normal) && _).
  - destruct (gamecardReadStorageArea_rec hos fuel st obj (Some out_u8) _ offset)
      as [[[ok1 st1] obj1]|] eqn:Hrec; [|discriminate].
    rewrite (Hstep _ _ _ _ _ _ Hrec).
    destruct (negb ok1); [exact H|].
    revert H. apply read_within_area_mono. exact Hstep.
  - revert H. apply read_within_area_mono. exact Hstep.
Qed.

Lemma gamecardReadStorageArea_rec_more_fuel :
  forall hos fuel fuel' st obj out read_size offset r,
    (fuel <= fuel')%nat ->
    gamecardReadStorageArea_rec hos fuel st obj out read_size offset = Some r ->
    gamecardReadStorageArea_rec hos fuel' st obj out read_size offset = Some r.
Proof.
  intros hos fuel fuel' st obj out read_size offset r Hle H.
  induction Hle as [|fuel' Hle IH]; [exact H|].
  apply gamecardReadStorageArea_rec_mono. exact IH.
Qed.

(** X3.  The recursion of [gamecardReadStorageArea] is bounded: for 64-bit
    arguments, the nested calls are never more than
    [read_size / (GAMECARD_READ_BUFFER_SIZE - GAMECARD_MEDIA_UNIT_SIZE) + 2]
    deep.  With that many levels the function returns, and the result is
    the same whatever larger bound is allowed. *)
Theorem gamecardReadStorageArea_recursion_depth :
  forall (hos : Platform) (st : GcState) (obj : Bytes) (out : option Z)
         (read_size offset : Z) (fuel : nat),
    0 <= offset < 2 ^ 64 -> 0 <= read_size < 2 ^ 64 ->
    0 <= g_gameCardStorageNormalAreaSize st < 2 ^ 64 ->
    (read_fuel read_size <= fuel)%nat ->
    Z.of_nat (read_fuel read_size)
    = read_size / (GAMECARD_READ_BUFFER_SIZE - GAMECARD_MEDIA_UNIT_SIZE) + 2
    /\ gamecardReadStorageArea_rec hos fuel st obj out read_size offset
       = Some (gamecardReadStorageArea hos st obj out read_size offset true).
Proof.
  intros hos st obj out read_size offset fuel Hoff Hrs Hn Hfuel.
  split.
  - unfold read_fuel. rewrite !Nat2Z.inj_succ, Z2Nat.id; [lia|].
    apply Z.div_pos; [lia | reflexivity].
  - destruct (gamecardReadStorageArea_rec_total hos st obj out read_size offset
                Hoff Hrs Hn) as (r & Hr & Hpub).
    rewrite (Hpub true).
    exact (gamecardReadStorageArea_rec_more_fuel _ _ _ _ _ _ _ _ _ Hfuel Hr).
Qed.

(** With the demo card loaded, five levels are more than the two the
    request of 0x402 bytes across the area boundary needs. *)
Lemma gamecardReadStorageArea_recursion_depth_witness :
  Z.of_nat (read_fuel 0x402)
  = 0x402 / (GAMECARD_READ_BUFFER_SIZE - GAMECARD_MEDIA_UNIT_SIZE) + 2
  /\ gamecardReadStorageArea_rec demo_platform 5 ready_state zeroed (Some 0)
       0x402 0xFFFFFF
     = Some (gamecardReadStorageArea demo_platform ready_state zeroed (Some 0)
               0x402 0xFFFFFF true).
Proof.
  apply (gamecardReadStorageArea_recursion_depth demo_platform ready_state
           zeroed (Some 0) 0x402 0xFFFFFF 5).
  - lia.
  - lia.
  - vm_compute. split; [discriminate | reflexivity].
  - vm_compute. repeat constructor.
Defined.

(** ** gamecardRead and the cached card information *)

(** X4.  A read, whether it succeeds or not, changes nothing of what the
    accessors report: [gamecardIsReady], the header, the total, trimmed and
    ROM capacity sizes are the same after [gamecardRead] as before, the
    hash file system headers are the same blocks, and no heap block is
    allocated or freed. *)
Theorem gamecardRead_keeps_card_info :
  forall (hos : Platform) (st : GcState) (obj : Bytes) (out : option Z)
         (read_size offset : Z) (o : bool),
    let st' := snd (fst (gamecardRead hos st obj out read_size offset)) in
    gamecardIsReady st' = gamecardIsReady st
    /\ gamecardGetHeader st' o = gamecardGetHeader st o
    /\ gamecardGetTotalSize st' o = gamecardGetTotalSize st o
    /\ gamecardGetTrimmedSize st' o = gamecardGetTrimmedSize st o
    /\ gamecardGetRomCapacity st' o = gamecardGetRomCapacity st o
    /\ g_gameCardHfsRootHeader st' = g_gameCardHfsRootHeader st
    /\ g_gameCardHfsPartitions st' = g_gameCardHfsPartitions st
    /\ heap_live st' = heap_live st.
Proof.
  intros hos st obj out read_size offset o st'.
  pose proof (session_of_gamecardReadStorageArea hos st obj out read_size
                offset true) as Hs.
  fold (gamecardRead hos st obj out read_size offset) in Hs.
  fold st' in Hs. clearbody st'.
  session_fields Hs.
  unfold gamecardIsReady, gamecardGetHeader, gamecardGetTotalSize,
    gamecardGetTrimmedSize, gamecardGetRomCapacity.
  repeat match goal with H : _ st' = _ st |- _ => rewrite H; clear H end.
  repeat split; reflexivity.
Qed.

(** ** gamecardOpenStorageArea *)

Lemma gamecardGetHandle_loop_keeps_storage :
  forall hos tries rc1 rc2 st,
    g_gameCardStorage (snd (gamecardGetHandle_loop hos tries rc1 rc2 st))
    = g_gameCardStorage st
    /\ g_gameCardStorageCurrentArea
         (snd (gamecardGetHandle_loop hos tries rc1 rc2 st))
       = g_gameCardStorageCurrentArea st.
Proof.
  intros hos tries. induction tries as [|tries IH]; intros rc1 rc2 st.
  - split; reflexivity.
  - cbn [gamecardGetHandle_loop].
    destruct (R_SUCCEEDED _); [split; reflexivity|].
    destruct (fsDeviceOperatorGetGameCardHandle hos _) as [rc2' h].
    destruct (IH (fsOpenGameCardStorage hos (trace st) (g_gameCardHandle st) 0)
                 rc2'
                 (set_g_gameCardHandle h
                    (log (EvGetGameCardHandle rc2' h)
                       (gamecardCloseHandle
                          (log (EvOpenGameCardStorage (g_gameCardHandle st) 0
                                  (fsOpenGameCardStorage hos (trace st)
                                     (g_gameCardHandle st) 0)) st)))))
      as [H1 H2].
    rewrite H1, H2. split; reflexivity.
Qed.

(** X5.  [gamecardOpenStorageArea] returns [true] only for the normal or
    the secure area with a card inserted, and then the storage is open and
    recorded as open on that area.  When it fails although a card is
    inserted and the area is valid, nothing is left open: the storage is
    closed, the gamecard handle is zero and no area is current. *)
Theorem gamecardOpenStorageArea_outcome :
  forall (hos : Platform) (area : Z) (st : GcState),
    let r := gamecardOpenStorageArea hos area st in
    (fst r = true ->
     g_gameCardInserted st = true
     /\ (area = GameCardStorageArea_Normal \/ area = GameCardStorageArea_Secure)
     /\ serviceIsActive (g_gameCardStorage (snd r)) = true
     /\ g_gameCardStorageCurrentArea (snd r) = area)
    /\ (fst r = false ->
        g_gameCardInserted st = true ->
        area = GameCardStorageArea_Normal \/ area = GameCardStorageArea_Secure ->
        g_gameCardStorage (snd r) = None
        /\ g_gameCardHandle (snd r) = 0
        /\ g_gameCardStorageCurrentArea (snd r) = GameCardStorageArea_None).
Proof.
  intros hos area st r. subst r. unfold gamecardOpenStorageArea.
  destruct (g_gameCardInserted st) eqn:Hins; cbn [negb orb].
  2:{ cbn [fst snd]. split; [discriminate | intros _ H; discriminate]. }
  destruct (negb (area =? GameCardStorageArea_Normal)
            && negb (area =? GameCardStorageArea_Secure)) eqn:Earea.
  { cbn [fst snd]. split; [discriminate|]. intros _ _ Hor. exfalso.
    destruct Hor as [-> | ->]; discriminate. }
  assert (Harea : area = GameCardStorageArea_Normal
                  \/ area = GameCardStorageArea_Secure).
  { destruct (Z.eqb_spec area GameCardStorageArea_Normal); [auto|].
    destruct (Z.eqb_spec area GameCardStorageArea_Secure); [auto|].
    discriminate. }
  clear Earea.
  destruct (negb (g_gameCardHandle st =? 0)
            && serviceIsActive (g_gameCardStorage st)
            && (g_gameCardStorageCurrentArea st =? area)) eqn:Eopen.
  { apply andb_prop in Eopen. destruct Eopen as [Eopen Ecur].
    apply andb_prop in Eopen. destruct Eopen as [_ Eact].
    apply Z.eqb_eq in Ecur. cbn [fst snd].
    split; [auto | discriminate]. }
  clear Eopen.
  assert (Hclosed : g_gameCardStorage (gamecardCloseStorageArea st) = None
                    /\ g_gameCardStorageCurrentArea (gamecardCloseStorageArea st)
                       = GameCardStorageArea_None
                    /\ g_gameCardInserted (gamecardCloseStorageArea st) = true).
  { unfold gamecardCloseStorageArea.
    destruct (g_gameCardStorage st) eqn:Est; st_simpl; auto. }
  destruct Hclosed as (Hc1 & Hc2 & Hc3).
  generalize dependent (gamecardCloseStorageArea st). intros st1 Hc1 Hc2 Hc3.
  unfold gamecardGetHandle. rewrite Hc3. cbn [negb].
  pose proof (gamecardGetHandle_loop_keeps_storage hos 10 0 0 st1) as Hk.
  destruct (gamecardGetHandle_loop hos 10 0 0 st1) as [[rc1 rc2] st2].
  cbn [snd] in Hk. destruct Hk as (Hk1 & Hk2).
  destruct (R_FAILED rc1 || R_FAILED rc2); cbn [negb fst snd].
  { split; [discriminate|]. intros _ _ _. st_simpl.
    rewrite Hk1, Hk2. auto. }
  destruct (R_FAILED _); cbn [fst snd]; st_simpl.
  - split; [discriminate|]. intros _ _ _. rewrite Hk1, Hk2. auto.
  - split; [intros _; auto | discriminate].
Qed.

(** ** gamecardGetStorageAreasSizes *)

Lemma gamecardCloseStorageArea_closed :
  forall st,
    g_gameCardStorage (gamecardCloseStorageArea st) = None
    /\ g_gameCardHandle (gamecardCloseStorageArea st) = 0
    /\ g_gameCardStorageCurrentArea (gamecardCloseStorageArea st)
       = GameCardStorageArea_None.
Proof.
  intros st. unfold gamecardCloseStorageArea.
  destruct (g_gameCardStorage st) eqn:Est; st_simpl; auto.
Qed.

(** X6.  [gamecardGetStorageAreasSizes] returns [true] only with a card
    inserted and with both area sizes set to non-zero 64-bit values; the
    storage it opened to query them is closed again, with the gamecard
    handle, and no heap block is allocated or freed. *)
Theorem gamecardGetStorageAreasSizes_outcome :
  forall (hos : Platform) (st : GcState),
    let r := gamecardGetStorageAreasSizes hos st in
    (fst r = true ->
     g_gameCardInserted st = true
     /\ 0 < g_gameCardStorageNormalAreaSize (snd r) < 2 ^ 64
     /\ 0 < g_gameCardStorageSecureAreaSize (snd r) < 2 ^ 64
     /\ g_gameCardStorage (snd r) = None
     /\ g_gameCardHandle (snd r) = 0
     /\ g_gameCardStorageCurrentArea (snd r) = GameCardStorageArea_None)
    /\ heap_live (snd r) = heap_live st.
Proof.
  intros hos st r. subst r. split.
  2:{ unfold gamecardGetStorageAreasSizes.
      destruct (negb (g_gameCardInserted st)); [reflexivity|].
      pose proof (heap_of_gamecardGetStorageAreasSizes_loop hos 2 0 st) as [H _].
      unfold heap_of in H. injection H as _ _ _ _ H. exact H. }
  unfold gamecardGetStorageAreasSizes.
  destruct (g_gameCardInserted st) eqn:Hins; cbn [negb]; [|discriminate].
  cbn [gamecardGetStorageAreasSizes_loop Z.eqb Z.add Pos.add].
  destruct (gamecardOpenStorageArea hos GameCardStorageArea_Normal st)
    as [ok1 st1].
  destruct ok1; cbn [negb]; [|discriminate].
  destruct (fsStorageGetSize hos (trace st1) (g_gameCardStorage st1))
    as [rc1 sz1].
  destruct (R_FAILED rc1 || (u64 sz1 =? 0)) eqn:E1; [discriminate|].
  apply orb_false_elim in E1. destruct E1 as [_ E1]. apply Z.eqb_neq in E1.
  cbn [Z.eqb GameCardStorageArea_Normal Pos.eqb].
  match goal with
  | |- context [gamecardOpenStorageArea hos GameCardStorageArea_Secure ?s] =>
      assert (HN : g_gameCardStorageNormalAreaSize s = u64 sz1)
        by reflexivity;
      generalize dependent s; intros st2 HN
  end.
  pose proof (session_of_gamecardOpenStorageArea hos
                GameCardStorageArea_Secure st2) as Hs.
  destruct (gamecardOpenStorageArea hos GameCardStorageArea_Secure st2)
    as [ok2 st3].
  cbn [snd] in Hs. apply session_normal_size in Hs.
  destruct ok2; cbn [negb]; [|discriminate].
  destruct (fsStorageGetSize hos (trace st3) (g_gameCardStorage st3))
    as [rc2 sz2].
  destruct (R_FAILED rc2 || (u64 sz2 =? 0)) eqn:E2; [discriminate|].
  apply orb_false_elim in E2. destruct E2 as [_ E2]. apply Z.eqb_neq in E2.
  cbn [Z.eqb GameCardStorageArea_Normal GameCardStorageArea_Secure Pos.eqb
       fst snd].
  intros _.
  match goal with
  | |- context [gamecardCloseStorageArea ?s] =>
      pose proof (gamecardCloseStorageArea_closed s) as (Hc1 & Hc2 & Hc3);
      pose proof (session_of_gamecardCloseStorageArea s) as Hs';
      apply session_normal_size in Hs';
      generalize dependent (gamecardCloseStorageArea s); intros st4 Hc1 Hc2 Hc3 Hs'
  end.
  st_simpl.
  pose proof (u64_range sz1). pose proof (u64_range sz2).
  split; [reflexivity|].
  split; [rewrite Hs'; st_simpl; rewrite Hs, HN; lia|].
  split; [lia|]. auto.
Qed.

(** ** What a successful gamecardLoadInfo caches *)

Lemma ALIGN_UP_unit_aligned :
  forall x, ALIGN_UP x GAMECARD_MEDIA_UNIT_SIZE mod GAMECARD_MEDIA_UNIT_SIZE = 0.
Proof.
  intros x. rewrite ALIGN_UP_unit. unfold GAMECARD_MEDIA_UNIT_SIZE.
  apply Z.mod_mul. discriminate.
Qed.

Lemma gamecardLoadInfo_partitions_cached :
  forall hos n i root parts st,
    g_gameCardHfsPartitions st = Some parts ->
    0 <= i -> i + Z.of_nat n = hfs_entry_count root ->
    fst (gamecardLoadInfo_partitions hos n i root parts st) = true ->
    let st' := snd (gamecardLoadInfo_partitions hos n i root parts st) in
    exists parts',
      g_gameCardHfsPartitions st' = Some parts'
      /\ (forall j, j < i -> parts' j = parts j)
      /\ (forall j, i <= j < hfs_entry_count root ->
            partition_cached (g_gameCardHeader st) root parts' j).
Proof.
  intros hos n. induction n as [|n IH];
    intros i root parts st Hparts Hi Hn Hok; cbv zeta.
  - cbn [gamecardLoadInfo_partitions snd]. exists parts.
    split; [exact Hparts|]. split; [reflexivity|].
    intros j Hj. exfalso. change (Z.of_nat 0) with 0 in Hn. lia.
  - cbn [gamecardLoadInfo_partitions] in Hok |- *.
    rewrite entry_by_index_in_range in Hok |- * by lia.
    destruct (hfs_entry_size root (hfs_entry_at i) =? 0) eqn:Hsz;
      [discriminate|].
    apply Z.eqb_neq in Hsz.
    cbv zeta in Hok |- *.
    set (p_offset := u64 (u64 (_ + _) + hfs_entry_offset root (hfs_entry_at i)))
      in *.
    set (p_size := hfs_entry_size root (hfs_entry_at i)) in *.
    set (parts1 := upd_partition parts i _) in *.
    set (st1 := set_g_gameCardHfsPartitions (Some parts1) st) in *.
    match goal with
    | |- context [gamecardReadStorageArea hos ?s ?o ?p ?m ?f ?l] =>
        pose proof (session_of_gamecardReadStorageArea hos s o p m f l) as Hrd;
        destruct (gamecardReadStorageArea hos s o p m f l) as [[ok2 st2] ph]
    end.
    cbn [fst snd] in Hrd. apply session_header in Hrd.
    destruct ok2; cbn [negb] in Hok |- *; [|discriminate].
    destruct (negb (_ =? GAMECARD_HFS0_MAGIC)); [discriminate|].
    destruct (hfs_name_table_size ph =? 0); [discriminate|].
    cbv zeta in Hok |- *. unfold calloc in Hok |- *.
    set (header_size := ALIGN_UP _ GAMECARD_MEDIA_UNIT_SIZE) in *.
    destruct (alloc_succeeds hos (trace st2) header_size); [|discriminate].
    set (parts2 := upd_partition parts1 i _) in *.
    match goal with
    | |- context [gamecardReadStorageArea hos ?s ?o ?p ?m ?f ?l] =>
        pose proof (session_of_gamecardReadStorageArea hos s o p m f l)
          as Hrd3;
        destruct (gamecardReadStorageArea hos s o p m f l)
          as [[ok3 st3] b']
    end.
    cbn [fst snd] in Hrd3. apply session_header in Hrd3.
    set (parts3 := upd_partition parts2 i
                     (mkPartitionInfo p_offset p_size header_size (Some b')))
      in *.
    set (st4 := set_g_gameCardHfsPartitions (Some parts3) st3) in *.
    destruct ok3; cbn [negb] in Hok |- *; [|discriminate].
    assert (P4 : g_gameCardHfsPartitions st4 = Some parts3) by reflexivity.
    assert (D4 : g_gameCardHeader st4 = g_gameCardHeader st).
    { subst st4. st_simpl. rewrite Hrd3. st_simpl. rewrite Hrd. reflexivity. }
    destruct (IH (i + 1) root parts3 st4 P4 ltac:(lia) ltac:(lia) Hok)
      as (parts5 & P5 & Hbelow & Hfrom).
    exists parts5. split; [exact P5|]. split.
    + intros j Hj. rewrite Hbelow by lia.
      subst parts3 parts2 parts1. unfold upd_partition.
      destruct (Z.eqb_spec j i); [lia | reflexivity].
    + intros j Hj. destruct (Z.eq_dec j i) as [-> | Hne].
      * unfold partition_cached. rewrite Hbelow by lia.
        subst parts3. unfold upd_partition. rewrite Z.eqb_refl.
        cbn [pi_offset pi_size pi_header_size pi_header].
        split; [reflexivity|]. split; [reflexivity|]. split; [exact Hsz|].
        split; [apply ALIGN_UP_unit_aligned | discriminate].
      * rewrite <- D4. apply Hfrom. lia.
Qed.

Lemma gamecardLoadInfo_partitions_not_loaded :
  forall hos n i root parts st,
    g_gameCardInfoLoaded
      (snd (gamecardLoadInfo_partitions hos n i root parts st))
    = g_gameCardInfoLoaded st.
Proof.
  intros hos n. induction n as [|n IH]; intros i root parts st.
  - reflexivity.
  - cbn [gamecardLoadInfo_partitions].
    destruct (gamecardGetHashFileSystemEntryByIndex (Some root) i);
      [|reflexivity].
    destruct (_ =? 0); [reflexivity|].
    cbv zeta.
    match goal with
    | |- context [gamecardReadStorageArea hos ?s ?o ?p ?m ?f ?l] =>
        pose proof (session_of_gamecardReadStorageArea hos s o p m f l) as Hrd;
        destruct (gamecardReadStorageArea hos s o p m f l) as [[ok2 st2] ph]
    end.
    cbn [fst snd] in Hrd. session_fields Hrd.
    destruct ok2; cbn [negb snd]; [|assumption].
    destruct (negb (_ =? GAMECARD_HFS0_MAGIC)); [assumption|].
    destruct (hfs_name_table_size ph =? 0); [assumption|].
    cbv zeta. unfold calloc.
    destruct (alloc_succeeds hos (trace st2) _); [|st_simpl; assumption].
    match goal with
    | |- context [gamecardReadStorageArea hos ?s ?o ?p ?m ?f ?l] =>
        pose proof (session_of_gamecardReadStorageArea hos s o p m f l)
          as Hrd3;
        destruct (gamecardReadStorageArea hos s o p m f l)
          as [[ok3 st3] b']
    end.
    cbn [fst snd] in Hrd3. session_fields Hrd3.
    destruct ok3; cbn [negb snd].
    + rewrite IH. st_simpl. congruence.
    + st_simpl. congruence.
Qed.

Lemma gamecardLoadInfo_root_cached :
  forall hos st,
    g_gameCardInfoLoaded st = false ->
    g_gameCardInfoLoaded (gamecardLoadInfo_root hos st) = true ->
    info_cached (gamecardLoadInfo_root hos st).
Proof.
  intros hos st Hload. unfold gamecardLoadInfo_root, calloc.
  destruct (alloc_succeeds hos (trace st) _);
    [|st_simpl; congruence].
  match goal with
  | |- context [gamecardReadStorageArea hos ?s ?o ?p ?m ?f ?l] =>
      pose proof (session_of_gamecardReadStorageArea hos s o p m f l) as Hrd;
      destruct (gamecardReadStorageArea hos s o p m f l) as [[ok st2] r']
  end.
  cbn [fst snd] in Hrd. session_fields Hrd. st_simpl.
  assert (L2 : g_gameCardInfoLoaded st2 = false) by congruence.
  destruct ok; cbn [negb]; [|st_simpl; congruence].
  destruct (negb (_ =? GAMECARD_HFS0_MAGIC)); [st_simpl; congruence|].
  destruct ((hfs_entry_count r' =? 0) || _ || _); [st_simpl; congruence|].
  destruct (alloc_succeeds hos _ _); [|st_simpl; congruence].
  set (parts0 := fun _ : Z => zero_partition_info).
  set (st4 := set_g_gameCardHfsPartitions (Some parts0) _).
  assert (P4 : g_gameCardHfsPartitions st4 = Some parts0) by reflexivity.
  assert (N4 : 0 + Z.of_nat (Z.to_nat (hfs_entry_count r'))
               = hfs_entry_count r')
    by (rewrite hfs_entry_count_nat; lia).
  assert (L4 : g_gameCardInfoLoaded st4 = false)
    by (subst st4; st_simpl; exact L2).
  assert (R4 : g_gameCardHfsRootHeader st4 = Some r') by reflexivity.
  pose proof (gamecardLoadInfo_partitions_cached hos
                (Z.to_nat (hfs_entry_count r')) 0 r' parts0 st4 P4
                (Z.le_refl 0) N4) as Hloop.
  pose proof (gamecardLoadInfo_partitions_not_loaded hos
                (Z.to_nat (hfs_entry_count r')) 0 r' parts0 st4) as Hnl.
  pose proof (gamecardLoadInfo_partitions_spec hos
                (Z.to_nat (hfs_entry_count r')) 0 r' parts0 st4
                L4 R4 P4 (Z.le_refl 0) N4 (fun _ _ => eq_refl)) as Hspec.
  cbv zeta in Hloop, Hspec.
  destruct Hspec as (_ & R5 & D5 & _).
  destruct (gamecardLoadInfo_partitions hos _ 0 r' parts0 st4) as [ok5 st5].
  cbn [fst snd] in *.
  destruct ok5; cbn [negb]; [|congruence].
  intros _. destruct (Hloop eq_refl) as (parts5 & P5 & _ & Hc).
  exists r', parts5. st_simpl.
  split; [exact R5|]. split; [exact P5|].
  intros i Hi. rewrite D5. apply Hc. exact Hi.
Qed.

Lemma gamecardLoadInfo_cached :
  forall hos st,
    g_gameCardInfoLoaded st = false ->
    g_gameCardInfoLoaded (gamecardLoadInfo hos st) = true ->
    info_cached (gamecardLoadInfo hos st).
Proof.
  intros hos st Hload. unfold gamecardLoadInfo. rewrite Hload.
  pose proof (gamecardLoadInfo_header_keeps hos st) as Hk.
  destruct (gamecardLoadInfo_header hos st) as [ok st1]. cbn [snd] in Hk.
  unfold heap_of in Hk. injection Hk as L1 _ _ _ _. rewrite Hload in L1.
  destruct ok; cbn [negb].
  2:{ rewrite L1. cbn [negb]. rewrite gamecardFreeInfo_not_loaded.
      discriminate. }
  destruct (g_gameCardInfoLoaded (gamecardLoadInfo_checked hos st1)) eqn:Hl;
    cbn [negb]; [|rewrite gamecardFreeInfo_not_loaded; discriminate].
  intros _. revert Hl. unfold gamecardLoadInfo_checked.
  destruct (negb (_ =? GAMECARD_HEAD_MAGIC)); [congruence|].
  cbv zeta.
  destruct (gamecardGetCapacityFromRomSizeValue _ =? 0);
    [st_simpl; congruence|].
  apply gamecardLoadInfo_root_cached.
  destruct (utilsGetCustomFirmwareType_is_SXOS hos); st_simpl; exact L1.
Qed.

Lemma count_headers_all :
  forall parts n a,
    (forall j, a <= j < a + Z.of_nat n -> pi_header (parts j) <> None) ->
    count_headers parts n a = Z.of_nat n.
Proof.
  intros parts n. induction n as [|n IH]; intros a H; [reflexivity|].
  cbn [count_headers]. rewrite IH by (intros j Hj; apply H; lia).
  specialize (H a ltac:(lia)).
  destruct (pi_header (parts a)); [lia | contradiction].
Qed.

Lemma info_cached_held_blocks :
  forall st root,
    info_cached st -> g_gameCardHfsRootHeader st = Some root ->
    held_blocks st = 2 + hfs_entry_count root.
Proof.
  intros st root (root' & parts & Hr & Hp & Hc) Hroot.
  rewrite Hr in Hroot. injection Hroot as ->.
  unfold held_blocks. rewrite Hr, Hp.
  rewrite count_headers_all.
  - rewrite hfs_entry_count_nat. lia.
  - intros j Hj. rewrite hfs_entry_count_nat in Hj.
    apply (Hc j). lia.
Qed.


(** ** The read buffer and the flags of the interface *)

Lemma has_read_buffer_gamecardCloseStorageArea :
  forall st,
    g_gameCardReadBuf (gamecardCloseStorageArea st) = g_gameCardReadBuf st.
Proof.
  intros st. unfold gamecardCloseStorageArea.
  destruct (serviceIsActive (g_gameCardStorage st)); reflexivity.
Qed.

Lemma has_read_buffer_gamecardGetHandle_loop :
  forall hos tries rc1 rc2 st,
    g_gameCardReadBuf (snd (gamecardGetHandle_loop hos tries rc1 rc2 st))
    = g_gameCardReadBuf st.
Proof.
  intros hos tries. induction tries as [|tries IH]; intros rc1 rc2 st.
  - reflexivity.
  - cbn [gamecardGetHandle_loop].
    destruct (R_SUCCEEDED _); [reflexivity|].
    destruct (fsDeviceOperatorGetGameCardHandle hos _) as [rc2' h].
    rewrite IH. reflexivity.
Qed.

Lemma has_read_buffer_gamecardGetHandle :
  forall hos st,
    g_gameCardReadBuf (snd (gamecardGetHandle hos st)) = g_gameCardReadBuf st.
Proof.
  intros hos st. unfold gamecardGetHandle.
  destruct (negb (g_gameCardInserted st)); [reflexivity|].
  pose proof (has_read_buffer_gamecardGetHandle_loop hos 10 0 0 st) as H.
  destruct (gamecardGetHandle_loop hos 10 0 0 st) as [[rc1 rc2] st'].
  destruct (R_FAILED rc1 || R_FAILED rc2); exact H.
Qed.

Lemma has_read_buffer_gamecardOpenStorageArea :
  forall hos area st,
    g_gameCardReadBuf (snd (gamecardOpenStorageArea hos area st))
    = g_gameCardReadBuf st.
Proof.
  intros hos area st. unfold gamecardOpenStorageArea.
  destruct (negb (g_gameCardInserted st) || _); [reflexivity|].
  destruct (negb (g_gameCardHandle st =? 0) && _ && _); [reflexivity|].
  pose proof (has_read_buffer_gamecardGetHandle hos
                (gamecardCloseStorageArea st)) as H.
  rewrite has_read_buffer_gamecardCloseStorageArea in H.
  destruct (gamecardGetHandle hos (gamecardCloseStorageArea st)) as [ok st'].
  destruct ok; simpl negb; cbv iota; [|exact H].
  destruct (R_FAILED _); exact H.
Qed.

Lemma has_read_buffer_storage_read_into :
  forall hos st dst d off size,
    g_gameCardReadBuf (snd (fst (storage_read_into hos st dst d off size)))
    = g_gameCardReadBuf st.
Proof.
  intros. unfold storage_read_into.
  destruct (fsStorageRead hos (trace st) (g_gameCardStorage st) off size).
  reflexivity.
Qed.

Lemma has_read_buffer_read_within_area :
  forall hos self st1 obj1 out_u8 read_size offset area ok st' obj',
    (forall st obj out rs off ok st' obj',
        self st obj out rs off = Some (ok, st', obj') ->
        has_read_buffer st' = has_read_buffer st) ->
    read_within_area hos self st1 obj1 out_u8 read_size offset area
    = Some (ok, st', obj') ->
    has_read_buffer st' = has_read_buffer st1.
Proof.
  intros hos self st1 obj1 out_u8 read_size offset area ok st' obj' Hself H.
  unfold read_within_area in H.
  pose proof (has_read_buffer_gamecardOpenStorageArea hos area st1) as Hopen.
  destruct (gamecardOpenStorageArea hos area st1) as [ok2 st2].
  simpl snd in Hopen.
  assert (Hst2 : has_read_buffer st2 = has_read_buffer st1)
    by (unfold has_read_buffer; rewrite Hopen; reflexivity).
  rewrite <- Hst2. clear Hopen Hst2.
  destruct ok2; simpl negb in H; cbv iota in H;
    [|inversion H; subst; reflexivity].
  cbv zeta in H.
  destruct ((_ mod GAMECARD_MEDIA_UNIT_SIZE =? 0)
            && (read_size mod GAMECARD_MEDIA_UNIT_SIZE =? 0)).
  - match type of H with
    | context [storage_read_into hos ?s ?d ?p ?b ?n] =>
        pose proof (has_read_buffer_storage_read_into hos s d p b n) as Hrd;
        destruct (storage_read_into hos s d p b n) as [[rc st3] obj2]
    end.
    simpl in Hrd. unfold has_read_buffer.
    destruct (R_FAILED rc); inversion H; subst; rewrite Hrd; reflexivity.
  - destruct (g_gameCardReadBuf st2) as [scratch|] eqn:Ebuf;
      [|inversion H; subst; reflexivity].
    match type of H with
    | context [storage_read_into hos ?s ?d ?p ?b ?n] =>
        destruct (storage_read_into hos s d p b n) as [[rc st3] scratch']
    end.
    assert (Hsome : has_read_buffer st2 = true)
      by (unfold has_read_buffer; rewrite Ebuf; reflexivity).
    rewrite Hsome.
    destruct (R_FAILED rc); [inversion H; subst; reflexivity|].
    destruct (_ >? GAMECARD_READ_BUFFER_SIZE).
    + apply Hself in H. rewrite H. reflexivity.
    + inversion H; subst. reflexivity.
Qed.

Lemma has_read_buffer_gamecardReadStorageArea_rec :
  forall hos fuel st obj out read_size offset ok st' obj',
    gamecardReadStorageArea_rec hos fuel st obj out read_size offset
    = Some (ok, st', obj') ->
    has_read_buffer st' = has_read_buffer st.
Proof.
  intros hos fuel. induction fuel as [|fuel IH];
    intros st obj out read_size offset ok st' obj' H; [discriminate|].
  cbn [gamecardReadStorageArea_rec] in H.
  destruct out as [out_u8|]; [|inversion H; reflexivity].
  destruct (negb (g_gameCardInserted st) || _ || _ || _ || _ || _);
    [inversion H; reflexivity|].
  cbv zeta in H.
  destruct ((_ =? GameCardStorageArea_Normal) && _).
  - destruct (gamecardReadStorageArea_rec hos fuel st obj (Some out_u8) _ offset)
      as [[[ok1 st1] obj1]|] eqn:Hrec; [|discriminate].
    apply IH in Hrec.
    destruct ok1; simpl negb in H; cbv iota in H.
    + apply has_read_buffer_read_within_area in H; [congruence | exact IH].
    + inversion H; subst. exact Hrec.
  - apply has_read_buffer_read_within_area in H; [exact H | exact IH].
Qed.

Lemma has_read_buffer_gamecardReadStorageArea :
  forall hos st obj out read_size offset lock,
    has_read_buffer
      (snd (fst (gamecardReadStorageArea hos st obj out read_size offset lock)))
    = has_read_buffer st.
Proof.
  intros. unfold gamecardReadStorageArea.
  destruct (gamecardReadStorageArea_rec hos (read_fuel read_size) st obj out
              read_size offset) as [[[ok st'] obj']|] eqn:H; [|reflexivity].
  exact (has_read_buffer_gamecardReadStorageArea_rec _ _ _ _ _ _ _ _ _ _ H).
Qed.

Lemma resources_of_gamecardReadStorageArea :
  forall hos st obj out read_size offset lock,
    resources_of
      (snd (fst (gamecardReadStorageArea hos st obj out read_size offset lock)))
    = resources_of st.
Proof.
  intros. unfold resources_of.
  rewrite has_read_buffer_gamecardReadStorageArea.
  pose proof (session_of_gamecardReadStorageArea hos st obj out read_size
                offset lock) as Hs.
  session_fields Hs. congruence.
Qed.

Lemma kept_of_session :
  forall st st',
    session_of st' = session_of st ->
    g_gameCardReadBuf st' = g_gameCardReadBuf st ->
    kept_of st' = kept_of st.
Proof.
  intros st st' Hs Hb. session_fields Hs.
  unfold kept_of, resources_of, has_read_buffer.
  repeat match goal with H : _ st' = _ st |- _ => rewrite H; clear H end.
  reflexivity.
Qed.

Lemma kept_of_gamecardCloseStorageArea :
  forall st, kept_of (gamecardCloseStorageArea st) = kept_of st.
Proof.
  intros st. apply kept_of_session.
  - apply session_of_gamecardCloseStorageArea.
  - apply has_read_buffer_gamecardCloseStorageArea.
Qed.

Lemma kept_of_gamecardOpenStorageArea :
  forall hos area st,
    kept_of (snd (gamecardOpenStorageArea hos area st)) = kept_of st.
Proof.
  intros. apply kept_of_session.
  - apply session_of_gamecardOpenStorageArea.
  - apply has_read_buffer_gamecardOpenStorageArea.
Qed.

Lemma kept_of_gamecardReadStorageArea :
  forall hos st obj out read_size offset lock,
    kept_of
      (snd (fst (gamecardReadStorageArea hos st obj out read_size offset lock)))
    = kept_of st.
Proof.
  intros. unfold kept_of. rewrite resources_of_gamecardReadStorageArea.
  pose proof (session_of_gamecardReadStorageArea hos st obj out read_size
                offset lock) as Hs.
  session_fields Hs. congruence.
Qed.

Lemma kept_of_free_partition_headers :
  forall parts n i st,
    kept_of (free_partition_headers parts n i st) = kept_of st.
Proof.
  intros parts n. induction n as [|n IH]; intros i st; [reflexivity|].
  cbn [free_partition_headers].
  destruct (pi_header (parts i)); rewrite IH; reflexivity.
Qed.

Lemma kept_of_gamecardFreeInfo :
  forall st, kept_of (gamecardFreeInfo st) = kept_of st.
Proof.
  intros st. unfold gamecardFreeInfo.
  set (st3 := set_g_gameCardCapacity 0 _).
  assert (H3 : kept_of st3 = kept_of st) by reflexivity.
  clearbody st3. rewrite <- H3. clear H3 st.
  cbv zeta.
  set (st4 := match g_gameCardHfsRootHeader st3 with
              | Some _ => _ | None => _ end).
  assert (H4 : kept_of st4 = kept_of st3).
  { subst st4. destruct (g_gameCardHfsRootHeader st3) as [root|];
      [|reflexivity].
    destruct (g_gameCardHfsPartitions st3) as [parts|]; [|reflexivity].
    change (kept_of (free_partition_headers parts
                       (Z.to_nat (hfs_entry_count root)) 0 st3)
            = kept_of st3).
    apply kept_of_free_partition_headers. }
  clearbody st4. rewrite <- H4. clear H4 st3.
  set (st5 := match g_gameCardHfsPartitions st4 with
              | Some _ => _ | None => _ end).
  assert (H5 : kept_of st5 = kept_of st4)
    by (subst st5; destruct (g_gameCardHfsPartitions st4); reflexivity).
  clearbody st5. rewrite <- H5. clear H5 st4.
  change (kept_of (gamecardCloseStorageArea st5) = kept_of st5).
  apply kept_of_session.
  - apply session_of_gamecardCloseStorageArea.
  - unfold gamecardCloseStorageArea.
    destruct (serviceIsActive (g_gameCardStorage st5)); reflexivity.
Qed.

Lemma kept_of_gamecardGetStorageAreasSizes_loop :
  forall hos n i st,
    kept_of (snd (gamecardGetStorageAreasSizes_loop hos n i st)) = kept_of st.
Proof.
  intros hos n. induction n as [|n IH]; intros i st; [reflexivity|].
  cbn [gamecardGetStorageAreasSizes_loop].
  match goal with
  | |- context [gamecardOpenStorageArea hos ?a st] =>
      pose proof (kept_of_gamecardOpenStorageArea hos a st) as Hopen;
      destruct (gamecardOpenStorageArea hos a st) as [ok st1]
  end.
  simpl snd in Hopen.
  destruct ok; simpl negb; cbv iota; [|assumption].
  destruct (fsStorageGetSize hos (trace st1) (g_gameCardStorage st1))
    as [rc sz].
  match goal with
  | |- context [gamecardCloseStorageArea ?s] =>
      pose proof (kept_of_gamecardCloseStorageArea s) as Hclose;
      set (st2 := gamecardCloseStorageArea s) in *
  end.
  assert (Hk2 : kept_of st2 = kept_of st) by (rewrite Hclose; exact Hopen).
  destruct (R_FAILED rc || (u64 sz =? 0)); [exact Hk2|].
  rewrite IH. destruct (_ =? GameCardStorageArea_Normal); exact Hk2.
Qed.

Lemma kept_of_gamecardLoadInfo_header :
  forall hos st, kept_of (snd (gamecardLoadInfo_header hos st)) = kept_of st.
Proof.
  intros hos st. unfold gamecardLoadInfo_header, gamecardGetStorageAreasSizes.
  destruct (negb (g_gameCardInserted st)); [reflexivity|].
  pose proof (kept_of_gamecardGetStorageAreasSizes_loop hos 2 0 st) as Hh.
  destruct (gamecardGetStorageAreasSizes_loop hos 2 0 st) as [ok st1].
  simpl snd in Hh.
  destruct ok; simpl negb; cbv iota; [|exact Hh].
  match goal with
  | |- context [gamecardReadStorageArea hos ?s ?o ?p ?n ?f ?l] =>
      pose proof (kept_of_gamecardReadStorageArea hos s o p n f l) as Hrd;
      destruct (gamecardReadStorageArea hos s o p n f l) as [[ok2 st2] hdr]
  end.
  simpl in Hrd. rewrite <- Hh, <- Hrd. reflexivity.
Qed.

Lemma kept_of_gamecardLoadInfo_partitions :
  forall hos n i root parts st,
    kept_of (snd (gamecardLoadInfo_partitions hos n i root parts st))
    = kept_of st.
Proof.
  intros hos n. induction n as [|n IH]; intros i root parts st.
  - reflexivity.
  - cbn [gamecardLoadInfo_partitions].
    destruct (gamecardGetHashFileSystemEntryByIndex (Some root) i);
      [|reflexivity].
    destruct (_ =? 0); [reflexivity|].
    cbv zeta.
    match goal with
    | |- context [gamecardReadStorageArea hos ?s ?o ?p ?m ?f ?l] =>
        pose proof (kept_of_gamecardReadStorageArea hos s o p m f l) as Hrd;
        destruct (gamecardReadStorageArea hos s o p m f l) as [[ok2 st2] ph]
    end.
    cbn [fst snd] in Hrd.
    assert (Hk2 : kept_of st2 = kept_of st) by exact Hrd.
    clear Hrd.
    destruct ok2; cbn [negb snd]; [|assumption].
    destruct (negb (_ =? GAMECARD_HFS0_MAGIC)); [assumption|].
    destruct (hfs_name_table_size ph =? 0); [assumption|].
    cbv zeta. unfold calloc.
    destruct (alloc_succeeds hos (trace st2) _); [|exact Hk2].
    match goal with
    | |- context [gamecardReadStorageArea hos ?s ?o ?p ?m ?f ?l] =>
        pose proof (kept_of_gamecardReadStorageArea hos s o p m f l)
          as Hrd3;
        destruct (gamecardReadStorageArea hos s o p m f l)
          as [[ok3 st3] b']
    end.
    cbn [fst snd] in Hrd3.
    assert (Hk3 : kept_of st3 = kept_of st) by (rewrite Hrd3; exact Hk2).
    destruct ok3; cbn [negb snd].
    + rewrite IH. exact Hk3.
    + exact Hk3.
Qed.

Lemma kept_of_gamecardLoadInfo_root :
  forall hos st, kept_of (gamecardLoadInfo_root hos st) = kept_of st.
Proof.
  intros hos st. unfold gamecardLoadInfo_root, calloc.
  destruct (alloc_succeeds hos (trace st) _); [|reflexivity].
  match goal with
  | |- context [gamecardReadStorageArea hos ?s ?o ?p ?m ?f ?l] =>
      pose proof (kept_of_gamecardReadStorageArea hos s o p m f l) as Hrd;
      destruct (gamecardReadStorageArea hos s o p m f l) as [[ok st2] r']
  end.
  cbn [fst snd] in Hrd.
  assert (Hk2 : kept_of st2 = kept_of st) by exact Hrd.
  clear Hrd.
  destruct ok; cbn [negb]; [|exact Hk2].
  destruct (negb (_ =? GAMECARD_HFS0_MAGIC)); [exact Hk2|].
  destruct ((hfs_entry_count r' =? 0) || _ || _); [exact Hk2|].
  destruct (alloc_succeeds hos _ _); [|exact Hk2].
  match goal with
  | |- context [gamecardLoadInfo_partitions hos ?n ?i ?r ?p ?s] =>
      pose proof (kept_of_gamecardLoadInfo_partitions hos n i r p s) as Hl;
      destruct (gamecardLoadInfo_partitions hos n i r p s) as [ok5 st5]
  end.
  cbn [snd] in Hl.
  assert (Hk5 : kept_of st5 = kept_of st) by (rewrite Hl; exact Hk2).
  destruct ok5; exact Hk5.
Qed.

Lemma kept_of_gamecardLoadInfo :
  forall hos st, kept_of (gamecardLoadInfo hos st) = kept_of st.
Proof.
  intros hos st. unfold gamecardLoadInfo.
  destruct (g_gameCardInfoLoaded st); [reflexivity|].
  pose proof (kept_of_gamecardLoadInfo_header hos st) as Hh.
  destruct (gamecardLoadInfo_header hos st) as [ok st1]. cbn [snd] in Hh.
  assert (Hc : kept_of (if negb ok then st1
                        else gamecardLoadInfo_checked hos st1) = kept_of st).
  { destruct ok; cbn [negb]; [|exact Hh].
    unfold gamecardLoadInfo_checked.
    destruct (negb (_ =? GAMECARD_HEAD_MAGIC)); [exact Hh|].
    cbv zeta.
    destruct (gamecardGetCapacityFromRomSizeValue _ =? 0); [exact Hh|].
    rewrite kept_of_gamecardLoadInfo_root.
    destruct (utilsGetCustomFirmwareType_is_SXOS hos); exact Hh. }
  destruct (negb (g_gameCardInfoLoaded _)); [|exact Hc].
  rewrite kept_of_gamecardFreeInfo. exact Hc.
Qed.

(** ** The session between two operations *)

Lemma gamecardLoadInfo_heap :
  forall hos st,
    g_gameCardInfoLoaded st = false ->
    g_gameCardHfsRootHeader st = None ->
    g_gameCardHfsPartitions st = None ->
    heap_live (gamecardLoadInfo hos st)
    = heap_live st + held_blocks (gamecardLoadInfo hos st).
Proof.
  intros hos st Hload Hroot Hparts.
  destruct (g_gameCardInfoLoaded (gamecardLoadInfo hos st)) eqn:Hl.
  - revert Hl. unfold gamecardLoadInfo. rewrite Hload.
    pose proof (gamecardLoadInfo_header_keeps hos st) as Hk.
    destruct (gamecardLoadInfo_header hos st) as [ok st1]. simpl snd in *.
    unfold heap_of in Hk. injection Hk as L1 C1 R1 P1 Hp1.
    rewrite Hload in L1. rewrite Hroot in R1. rewrite Hparts in P1.
    destruct ok; simpl negb; cbv iota.
    + destruct (gamecardLoadInfo_checked_spec hos st1 L1 R1 P1) as [Hh _].
      cbv zeta in Hh.
      destruct (g_gameCardInfoLoaded (gamecardLoadInfo_checked hos st1));
        simpl negb; cbv iota.
      * intros _. lia.
      * rewrite gamecardFreeInfo_not_loaded. discriminate.
    + rewrite L1. simpl negb. cbv iota.
      rewrite gamecardFreeInfo_not_loaded. discriminate.
  - destruct (gamecardLoadInfo_outcome hos st Hload Hroot Hparts) as [_ Hko].
    destruct (Hko Hl) as (_ & _ & _ & _ & _ & R & P & Hh & _).
    unfold held_blocks. rewrite R, P. lia.
Qed.

Lemma info_released_nothing_cached :
  forall st0 st, info_released st0 st -> nothing_cached st.
Proof.
  intros st0 st (L & _ & N & S & _ & R & P & _ & Sto & Hd & _).
  unfold nothing_cached. auto 10.
Qed.

Lemma nothing_cached_held_blocks :
  forall st, nothing_cached st -> held_blocks st = 0.
Proof.
  intros st (_ & R & P & _). unfold held_blocks. rewrite R, P. reflexivity.
Qed.

Lemma kept_of_inserted :
  forall st st', kept_of st' = kept_of st ->
                 g_gameCardInserted st' = g_gameCardInserted st.
Proof.
  intros st st' H. apply (f_equal snd) in H. exact H.
Qed.

Lemma gamecardRead_without_sizes :
  forall hos st obj out read_size offset,
    g_gameCardStorageNormalAreaSize st = 0 ->
    gamecardRead hos st obj out read_size offset = (false, st, obj).
Proof.
  intros hos st obj out read_size offset HN.
  unfold gamecardRead, gamecardReadStorageArea.
  destruct (read_fuel_S read_size) as [n ->].
  cbn [gamecardReadStorageArea_rec].
  destruct out as [out_u8|]; [|reflexivity].
  rewrite HN. cbn [Z.eqb]. rewrite orb_true_r. reflexivity.
Qed.

Lemma session_invariant_session_of :
  forall h0 prev st st',
    session_of st' = session_of st ->
    g_gameCardInfoLoaded st = true ->
    session_invariant h0 (prev, st) ->
    session_invariant h0 (prev, st').
Proof.
  intros h0 prev st st' Hs Hl (Hprev & Hheap & Hloaded & _).
  cbn [fst snd] in *. session_fields Hs.
  destruct (Hloaded Hl) as (Hins & Hval & Hcache).
  assert (Hheld : held_blocks st' = held_blocks st)
    by (unfold held_blocks;
        repeat match goal with
               | H : _ st' = _ st |- _ => rewrite H; clear H
               end; reflexivity).
  unfold session_invariant. cbn [fst snd].
  split; [congruence|]. split; [congruence|]. split; [|congruence].
  intros _. split; [congruence|]. split.
  - destruct Hval as (V1 & V2 & V3 & root & V4 & V5).
    unfold info_validated.
    repeat match goal with H : _ st' = _ st |- _ => rewrite H; clear H end.
    split; [exact V1|]. split; [exact V2|]. split; [exact V3|].
    exists root. split; [exact V4 | exact V5].
  - destruct Hcache as (root & parts & C1 & C2 & C3).
    exists root, parts.
    repeat match goal with H : _ st' = _ st |- _ => rewrite H; clear H end.
    auto.
Qed.

Lemma session_invariant_released :
  forall h0 st0 st,
    info_released st0 st -> heap_live st0 = h0 ->
    session_invariant h0 (g_gameCardInserted st, st).
Proof.
  intros h0 st0 st Hrel Hh.
  pose proof (info_released_nothing_cached _ _ Hrel) as Hn.
  destruct Hrel as (L & _ & _ & _ & _ & _ & _ & Hheap & _).
  unfold session_invariant. cbn [fst snd].
  split; [reflexivity|].
  split; [rewrite (nothing_cached_held_blocks _ Hn); lia|].
  split; [congruence | auto].
Qed.

Lemma session_invariant_gamecardLoadInfo :
  forall hos h0 st,
    nothing_cached st -> heap_live st = h0 ->
    g_gameCardInserted st = true ->
    session_invariant h0 (true, gamecardLoadInfo hos st).
Proof.
  intros hos h0 st Hn Hh Hins.
  pose proof Hn as (L & R & P & _).
  pose proof (kept_of_inserted _ _ (kept_of_gamecardLoadInfo hos st)) as Hi.
  rewrite Hins in Hi.
  destruct (g_gameCardInfoLoaded (gamecardLoadInfo hos st)) eqn:Hl.
  - unfold session_invariant. cbn [fst snd].
    split; [congruence|].
    split; [rewrite (gamecardLoadInfo_heap hos st L R P); lia|].
    split; [|congruence].
    intros _. split; [exact Hi|].
    destruct (gamecardLoadInfo_outcome hos st L R P) as [Hok _].
    split; [apply Hok; exact Hl|].
    apply gamecardLoadInfo_cached; assumption.
  - destruct (gamecardLoadInfo_outcome hos st L R P) as [_ Hko].
    rewrite <- Hi.
    apply (session_invariant_released h0 st); [apply Hko; exact Hl | exact Hh].
Qed.

Lemma session_invariant_gamecardFreeInfo :
  forall h0 st,
    heap_live st = h0 + held_blocks st ->
    session_invariant h0
      (g_gameCardInserted (gamecardFreeInfo st), gamecardFreeInfo st).
Proof.
  intros h0 st Hheap.
  apply (session_invariant_released h0
           (set_heap_live (heap_live st - held_blocks st) st)).
  - apply gamecardFreeInfo_spec.
  - st_simpl. lia.
Qed.

Lemma session_invariant_run_op :
  forall hos h0 op s,
    session_invariant h0 s -> session_invariant h0 (run_op hos op s).
Proof.
  intros hos h0 op [prev st] Hinv.
  destruct op as [|obj out read_size offset|out|out]; cbn [run_op fst snd].
  - (* a turn of the detection thread *)
    unfold gamecardDetectionThreadFunc_iteration, gamecardIsInserted.
    destruct (fsDeviceOperatorIsGameCardInserted hos (trace st))
      as [rc inserted].
    set (ins := R_SUCCEEDED rc && inserted).
    set (st1 := set_g_gameCardInserted ins _).
    destruct Hinv as (Hp & Hheap & Hloaded & Hnot). cbn [fst snd] in *.
    destruct (negb prev && ins) eqn:Hturn.
    + apply andb_prop in Hturn. destruct Hturn as [Hprev Hins].
      apply negb_true_iff in Hprev. rewrite Hprev in Hp. rewrite Hins.
      assert (Hl : g_gameCardInfoLoaded st = false).
      { destruct (g_gameCardInfoLoaded st); [|reflexivity].
        destruct (Hloaded eq_refl) as (Hi & _). congruence. }
      apply session_invariant_gamecardLoadInfo.
      * exact (Hnot Hl).
      * rewrite (nothing_cached_held_blocks _ (Hnot Hl)) in Hheap.
        subst st1. st_simpl. lia.
      * subst st1. st_simpl. exact Hins.
    + replace ins with (g_gameCardInserted (gamecardFreeInfo st1)) at 1
        by (rewrite (kept_of_inserted _ _ (kept_of_gamecardFreeInfo st1));
            reflexivity).
      apply session_invariant_gamecardFreeInfo. exact Hheap.
  - (* a read *)
    destruct (g_gameCardInfoLoaded st) eqn:Hl.
    + apply (session_invariant_session_of h0 prev st); [|exact Hl | exact Hinv].
      apply session_of_gamecardReadStorageArea.
    + destruct Hinv as (Hp & Hheap & Hloaded & Hnot). cbn [fst snd] in *.
      destruct (Hnot Hl) as (_ & _ & _ & HN & _).
      rewrite gamecardRead_without_sizes by exact HN.
      cbn [fst snd]. unfold session_invariant. cbn [fst snd]. auto.
  - (* the certificate *)
    unfold gamecardGetCertificate.
    destruct (_ && _ && out); exact Hinv.
  - (* the version of the bundled update *)
    unfold gamecardGetBundledFirmwareUpdateVersion.
    destruct (_ && _ && out); [|exact Hinv].
    destruct (fsDeviceOperatorUpdatePartitionInfo hos _ _) as [[rc v] id].
    exact Hinv.
Qed.

Lemma session_invariant_run_ops :
  forall hos h0 ops s,
    session_invariant h0 s -> session_invariant h0 (run_ops hos ops s).
Proof.
  intros hos h0 ops. unfold run_ops.
  induction ops as [|op ops IH]; intros s H; [exact H|].
  cbn [fold_left]. apply IH. apply session_invariant_run_op. exact H.
Qed.

Lemma session_invariant_start :
  forall hos st0,
    nothing_cached st0 ->
    session_invariant (heap_live st0)
      (gamecardDetectionThreadFunc_start hos st0).
Proof.
  intros hos st0 Hn.
  unfold gamecardDetectionThreadFunc_start, gamecardIsInserted.
  destruct (fsDeviceOperatorIsGameCardInserted hos (trace st0))
    as [rc inserted].
  destruct (R_SUCCEEDED rc && inserted) eqn:Hins.
  - apply session_invariant_gamecardLoadInfo; [exact Hn | reflexivity |].
    st_simpl. reflexivity.
  - unfold session_invariant. cbn [fst snd].
    split; [reflexivity|].
    pose proof Hn as (L & R & P & Hn').
    split; [unfold held_blocks; st_simpl; rewrite R, P; lia|].
    split; [st_simpl; congruence|].
    intros _. exact Hn.
Qed.

(** ** gamecardLoadInfo and gamecardFreeInfo *)

(** X7.  When [gamecardLoadInfo], run on a session that caches nothing,
    ends with the information loaded: a card is inserted; the header and
    the root header pass the checks; the root header and the partition
    table are allocated and every entry of the root header has its
    partition cached, with the offset
    [partition_fs_header_address + partition_fs_header_size + entry offset],
    the size of the entry, which is not zero, a header size that is a
    multiple of the media unit, and a header block; the heap holds two
    blocks more than before, plus one for each partition. *)
Theorem gamecardLoadInfo_success_caches_every_partition :
  forall (hos : Platform) (st : GcState),
    g_gameCardInfoLoaded st = false ->
    g_gameCardHfsRootHeader st = None ->
    g_gameCardHfsPartitions st = None ->
    g_gameCardInfoLoaded (gamecardLoadInfo hos st) = true ->
    g_gameCardInserted (gamecardLoadInfo hos st) = true
    /\ info_validated (gamecardLoadInfo hos st)
    /\ info_cached (gamecardLoadInfo hos st)
    /\ exists root,
         g_gameCardHfsRootHeader (gamecardLoadInfo hos st) = Some root
         /\ heap_live (gamecardLoadInfo hos st)
            = heap_live st + 2 + hfs_entry_count root.
Proof.
  intros hos st L R P Hl.
  pose proof (gamecardLoadInfo_cached hos st L Hl) as Hc.
  destruct (gamecardLoadInfo_outcome hos st L R P) as [Hok _].
  destruct (Hok Hl) as [Hv _].
  split.
  { rewrite (kept_of_inserted _ _ (kept_of_gamecardLoadInfo hos st)).
    destruct (g_gameCardInserted st) eqn:Hins; [reflexivity|]. exfalso.
    revert Hl. unfold gamecardLoadInfo, gamecardLoadInfo_header,
      gamecardGetStorageAreasSizes.
    rewrite L, Hins. cbn [negb]. rewrite L. cbn [negb].
    rewrite gamecardFreeInfo_not_loaded. discriminate. }
  split; [exact Hv|]. split; [exact Hc|].
  pose proof Hc as (root & parts & Hr & _).
  exists root. split; [exact Hr|].
  rewrite (gamecardLoadInfo_heap hos st L R P).
  rewrite (info_cached_held_blocks _ root Hc Hr). lia.
Qed.

(** The demo card: a root header with two entries, hence four blocks. *)
Lemma gamecardLoadInfo_success_caches_every_partition_witness :
  g_gameCardInserted (gamecardLoadInfo demo_platform inserted_state) = true
  /\ info_validated (gamecardLoadInfo demo_platform inserted_state)
  /\ info_cached (gamecardLoadInfo demo_platform inserted_state)
  /\ exists root,
       g_gameCardHfsRootHeader (gamecardLoadInfo demo_platform inserted_state)
       = Some root
       /\ heap_live (gamecardLoadInfo demo_platform inserted_state)
          = heap_live inserted_state + 2 + hfs_entry_count root.
Proof.
  apply (gamecardLoadInfo_success_caches_every_partition demo_platform
           inserted_state); vm_compute; reflexivity.
Defined.

(** X9.  [gamecardFreeInfo] gives back every block of the cache and no
    other: the heap holds [held_blocks] blocks fewer, the cache is empty
    (not loaded, header zeroed, sizes and capacity zero, no root header, no
    partition table), the storage and the handle are closed, and the
    insertion status, the flags of the interface and the read buffer are
    left alone.  Called again, it frees nothing. *)
Theorem gamecardFreeInfo_frees_the_cache_once :
  forall st : GcState,
    info_released (set_heap_live (heap_live st - held_blocks st) st)
      (gamecardFreeInfo st)
    /\ held_blocks (gamecardFreeInfo st) = 0
    /\ kept_of (gamecardFreeInfo st) = kept_of st
    /\ heap_live (gamecardFreeInfo (gamecardFreeInfo st))
       = heap_live (gamecardFreeInfo st).
Proof.
  intros st.
  pose proof (gamecardFreeInfo_spec st) as H1.
  pose proof (nothing_cached_held_blocks _
                (info_released_nothing_cached _ _ H1)) as H2.
  split; [exact H1|]. split; [exact H2|].
  split; [apply kept_of_gamecardFreeInfo|].
  pose proof (gamecardFreeInfo_spec (gamecardFreeInfo st))
    as (_ & _ & _ & _ & _ & _ & _ & H3 & _).
  rewrite H3. st_simpl. lia.
Qed.

(** ** A session, one operation at a time *)

Lemma kept_of_resources :
  forall st st', kept_of st' = kept_of st -> resources_of st' = resources_of st.
Proof.
  intros st st' H. apply (f_equal fst) in H. exact H.
Qed.

Lemma resources_of_run_op :
  forall hos op s,
    resources_of (snd (run_op hos op s)) = resources_of (snd s).
Proof.
  intros hos op [prev st].
  destruct op as [|obj out read_size offset|out|out]; cbn [run_op fst snd].
  - unfold gamecardDetectionThreadFunc_iteration, gamecardIsInserted.
    destruct (fsDeviceOperatorIsGameCardInserted hos (trace st))
      as [rc inserted].
    destruct (negb prev && _); cbn [snd].
    + rewrite (kept_of_resources _ _ (kept_of_gamecardLoadInfo hos _)). reflexivity.
    + rewrite (kept_of_resources _ _ (kept_of_gamecardFreeInfo _)). reflexivity.
  - apply resources_of_gamecardReadStorageArea.
  - unfold gamecardGetCertificate. destruct (_ && _ && out); reflexivity.
  - unfold gamecardGetBundledFirmwareUpdateVersion.
    destruct (_ && _ && out); [|reflexivity].
    destruct (fsDeviceOperatorUpdatePartitionInfo hos _ _) as [[rc v] id].
    reflexivity.
Qed.

Lemma resources_of_run_ops :
  forall hos ops s,
    resources_of (snd (run_ops hos ops s)) = resources_of (snd s).
Proof.
  intros hos ops. unfold run_ops.
  induction ops as [|op ops IH]; intros s; [reflexivity|].
  cbn [fold_left]. rewrite IH. apply resources_of_run_op.
Qed.

Lemma resources_of_session_after :
  forall hos st0 ops,
    resources_of (snd (session_after hos st0 ops)) = resources_of st0.
Proof.
  intros hos st0 ops. unfold session_after.
  rewrite resources_of_run_ops.
  unfold gamecardDetectionThreadFunc_start, gamecardIsInserted.
  destruct (fsDeviceOperatorIsGameCardInserted hos (trace st0))
    as [rc inserted].
  destruct (R_SUCCEEDED rc && inserted); cbn [snd]; [|reflexivity].
  rewrite (kept_of_resources _ _ (kept_of_gamecardLoadInfo hos _)). reflexivity.
Qed.

(** X10.  Let the detection thread start on a session that caches nothing,
    and let turns of the thread, reads and the two accessors that call the
    console follow in any number and order, one at a time.  Then the card
    information is loaded only while a card is inserted, and then the
    header and root header pass the checks and every partition is cached;
    while no card is ready nothing is cached, the storage and the gamecard
    handle are closed and both accessors fail without calling the console;
    the heap blocks held are those of the cache; the flags of the interface
    and the read buffer are as at the start. *)
Theorem session_cache_is_consistent :
  forall (hos : Platform) (st0 : GcState) (ops : list SessionOp),
    nothing_cached st0 ->
    let st := snd (session_after hos st0 ops) in
    (g_gameCardInfoLoaded st = true ->
     g_gameCardInserted st = true /\ info_validated st /\ info_cached st)
    /\ (gamecardIsReady st = false ->
        nothing_cached st
        /\ forall out,
             gamecardGetCertificate hos st out = (false, st)
             /\ gamecardGetBundledFirmwareUpdateVersion hos st out
                = (false, None, st))
    /\ heap_live st = heap_live st0 + held_blocks st
    /\ resources_of st = resources_of st0.
Proof.
  intros hos st0 ops Hn st.
  pose proof (session_invariant_run_ops hos (heap_live st0) ops _
                (session_invariant_start hos st0 Hn)) as Hinv.
  fold (session_after hos st0 ops) in Hinv.
  destruct Hinv as (_ & Hheap & Hloaded & Hnot). fold st in Hheap, Hloaded, Hnot.
  split; [exact Hloaded|]. split.
  - intros Hready. unfold gamecardIsReady in Hready.
    assert (Hl : g_gameCardInfoLoaded st = false).
    { destruct (g_gameCardInfoLoaded st); [|reflexivity].
      destruct (Hloaded eq_refl) as (Hi & _). rewrite Hi in Hready.
      discriminate. }
    pose proof (Hnot Hl) as Hc. split; [exact Hc|].
    destruct Hc as (_ & _ & _ & _ & _ & _ & Hh).
    intros out.
    unfold gamecardGetCertificate, gamecardGetBundledFirmwareUpdateVersion.
    rewrite Hh. cbn [Z.eqb negb]. rewrite andb_false_r. cbn [andb].
    split; reflexivity.
  - split; [exact Hheap|]. apply resources_of_session_after.
Qed.

(** The demo console after [gamecardInitialize]: a read across the area
    boundary, a turn of the thread and a request for the certificate. *)
Lemma session_cache_is_consistent_witness :
  let st := snd (session_after demo_platform initialized_state
                   [OpRead zeroed (Some 0) 0x402 0xFFFFFF; OpThreadTurn;
                    OpGetCertificate true]) in
  (g_gameCardInfoLoaded st = true ->
   g_gameCardInserted st = true /\ info_validated st /\ info_cached st)
  /\ (gamecardIsReady st = false ->
      nothing_cached st
      /\ forall out,
           gamecardGetCertificate demo_platform st out = (false, st)
           /\ gamecardGetBundledFirmwareUpdateVersion demo_platform st out
              = (false, None, st))
  /\ heap_live st = heap_live initialized_state + held_blocks st
  /\ resources_of st = resources_of initialized_state.
Proof.
  apply (session_cache_is_consistent demo_platform initialized_state).
  repeat split; reflexivity.
Defined.

(** ** gamecardExit *)


Lemma gamecardExit_spec_no_thread :
  forall st,
    g_gameCardDetectionThreadCreated st = false ->
    let st' := snd (gamecardExit st) in
    resources_of st' = (false, false, false, false, false, false)
    /\ heap_live st' = heap_live st - (if has_read_buffer st then 1 else 0)
    /\ (nothing_cached st -> nothing_cached st')
    /\ g_gameCardInserted st' = g_gameCardInserted st.
Proof.
  intros st Hthread. cbv zeta. unfold gamecardExit. rewrite Hthread.
  unfold resources_of, has_read_buffer, nothing_cached.
  destruct st as [a1 a2 a3 a4 a5 a6 a7 h sto ar rb hd n sz cp root parts hl tr].
  cbn [g_loadKernelEvent g_openEventNotifier g_openDeviceOperator
       g_gameCardReadBuf g_gameCardDetectionThreadCreated] in *. subst a5.
  destruct a4, a3, a2, rb; st_norm; cbn [app snd fst].
  all: split; [reflexivity|]; split; [lia|]; split; [auto | reflexivity].
Qed.

Lemma gamecardExit_joins_the_thread :
  forall st,
    g_gameCardDetectionThreadCreated st = true ->
    snd (gamecardExit st)
    = snd (gamecardExit
             (set_g_gameCardDetectionThreadCreated false
                (gamecardDetectionThreadFunc_exit st))).
Proof.
  intros st Hthread. unfold gamecardExit. rewrite Hthread.
  cbn [gamecardDestroyDetectionThread].
  set (st2 := set_g_gameCardDetectionThreadCreated false
                (gamecardDetectionThreadFunc_exit st)).
  change (g_gameCardDetectionThreadCreated st2) with false. cbv iota.
  destruct (g_loadKernelEvent st2);
    match goal with |- context [g_openEventNotifier ?s] =>
      destruct (g_openEventNotifier s) end;
    match goal with |- context [g_openDeviceOperator ?s] =>
      destruct (g_openDeviceOperator s) end;
    match goal with |- context [g_gameCardReadBuf ?s] =>
      destruct (g_gameCardReadBuf s) end;
    reflexivity.
Qed.

Lemma gamecardFreeInfo_heap :
  forall st,
    heap_live (gamecardFreeInfo st) = heap_live st - held_blocks st.
Proof.
  intros st.
  destruct (gamecardFreeInfo_spec st) as (_ & _ & _ & _ & _ & _ & _ & H & _).
  exact H.
Qed.

Lemma kept_of_has_read_buffer :
  forall st st',
    kept_of st' = kept_of st -> has_read_buffer st' = has_read_buffer st.
Proof.
  intros st st' H. apply kept_of_resources in H.
  apply (f_equal snd) in H. exact H.
Qed.

Lemma gamecardExit_spec :
  forall st,
    let st' := snd (gamecardExit st) in
    resources_of st' = (false, false, false, false, false, false)
    /\ heap_live st'
       = heap_live st
         - (if g_gameCardDetectionThreadCreated st then held_blocks st else 0)
         - (if has_read_buffer st then 1 else 0)
    /\ (g_gameCardDetectionThreadCreated st = true ->
        nothing_cached st' /\ g_gameCardInserted st' = false)
    /\ (g_gameCardDetectionThreadCreated st = false ->
        (nothing_cached st -> nothing_cached st')
        /\ g_gameCardInserted st' = g_gameCardInserted st).
Proof.
  intros st. cbv zeta.
  destruct (g_gameCardDetectionThreadCreated st) eqn:Hthread.
  - rewrite (gamecardExit_joins_the_thread st Hthread).
    unfold gamecardDetectionThreadFunc_exit.
    pose proof (info_released_nothing_cached _ _ (gamecardFreeInfo_spec st))
      as Hn1.
    pose proof (kept_of_has_read_buffer _ _ (kept_of_gamecardFreeInfo st))
      as Hbuf.
    pose proof (gamecardFreeInfo_heap st) as Hheap.
    generalize dependent (gamecardFreeInfo st). intros st1 Hn1 Hbuf Hheap.
    destruct (gamecardExit_spec_no_thread
                (set_g_gameCardDetectionThreadCreated false
                   (set_g_gameCardInserted false st1)) eq_refl)
      as (R & Hh & Hn & Hi).
    cbv zeta in R, Hh, Hn, Hi.
    split; [exact R|]. split.
    + rewrite Hh. unfold has_read_buffer in *. st_simpl. rewrite Hheap.
      destruct (g_gameCardReadBuf st1), (g_gameCardReadBuf st);
        try discriminate; lia.
    + split; [|discriminate]. intros _. split.
      * apply Hn. exact Hn1.
      * rewrite Hi. reflexivity.
  - destruct (gamecardExit_spec_no_thread st Hthread) as (R & Hh & Hn & Hi).
    cbv zeta in R, Hh, Hn, Hi.
    split; [exact R|]. split; [lia|]. split; [discriminate|].
    intros _. split; assumption.
Qed.

Lemma gamecardExit_events :
  forall st,
    fst (gamecardExit st)
    = (if g_gameCardDetectionThreadCreated st
       then [EvExitEventSignal; EvThreadJoin] else [])
      ++ (if g_loadKernelEvent st then [EvKernelEventClose] else [])
      ++ (if g_openEventNotifier st then [EvEventNotifierClose] else [])
      ++ (if g_openDeviceOperator st then [EvDeviceOperatorClose] else []).
Proof.
  intros st. unfold gamecardExit.
  assert (Hrest : forall evs st1,
             g_loadKernelEvent st1 = g_loadKernelEvent st ->
             g_openEventNotifier st1 = g_openEventNotifier st ->
             g_openDeviceOperator st1 = g_openDeviceOperator st ->
             fst (let '(evs2, st2) :=
                    if g_loadKernelEvent st1
                    then ([EvKernelEventClose], set_g_loadKernelEvent false st1)
                    else ([], st1) in
                  let '(evs3, st3) :=
                    if g_openEventNotifier st2
                    then ([EvEventNotifierClose],
                          set_g_openEventNotifier false st2)
                    else ([], st2) in
                  let '(evs4, st4) :=
                    if g_openDeviceOperator st3
                    then ([EvDeviceOperatorClose],
                          set_g_openDeviceOperator false st3)
                    else ([], st3) in
                  let st5 :=
                    match g_gameCardReadBuf st4 with
                    | Some _ => set_g_gameCardReadBuf None (free st4)
                    | None => st4
                    end in
                  (evs ++ evs2 ++ evs3 ++ evs4,
                   set_g_gamecardInterfaceInit false st5))
             = evs
               ++ (if g_loadKernelEvent st then [EvKernelEventClose] else [])
               ++ (if g_openEventNotifier st
                   then [EvEventNotifierClose] else [])
               ++ (if g_openDeviceOperator st
                   then [EvDeviceOperatorClose] else [])).
  { intros evs st1 K4 K3 K2. rewrite <- K4, <- K3, <- K2.
    destruct (g_loadKernelEvent st1); st_simpl;
      destruct (g_openEventNotifier st1); st_simpl;
        destruct (g_openDeviceOperator st1); reflexivity. }
  destruct (g_gameCardDetectionThreadCreated st) eqn:Hthread.
  - unfold gamecardDestroyDetectionThread, gamecardDetectionThreadFunc_exit.
    pose proof (kept_of_resources _ _ (kept_of_gamecardFreeInfo st)) as Hk.
    unfold resources_of in Hk.
    generalize dependent (gamecardFreeInfo st). intros st1 Hk.
    injection Hk as _ K2 K3 K4 _ _.
    apply Hrest; st_simpl; assumption.
  - apply Hrest; reflexivity.
Qed.

Lemma gamecardInitialize_from_closed :
  forall hos st0,
    session_closed st0 ->
    let r := gamecardInitialize hos st0 in
    nothing_cached (snd r)
    /\ g_gameCardInserted (snd r) = false
    /\ heap_live (snd r)
       = heap_live st0 + (if has_read_buffer (snd r) then 1 else 0)
    /\ (fst r = true ->
        resources_of (snd r) = (true, true, true, true, true, true))
    /\ (fst r = false -> g_gameCardDetectionThreadCreated (snd r) = false).
Proof.
  intros hos st0 (Hres & Hins & Hn). cbv zeta.
  unfold resources_of, has_read_buffer in Hres.
  injection Hres as R1 R2 R3 R4 R5 R6.
  assert (Hbuf : g_gameCardReadBuf st0 = None)
    by (destruct (g_gameCardReadBuf st0); [discriminate | reflexivity]).
  unfold gamecardInitialize, calloc, gamecardCreateDetectionThread.
  rewrite R1.
  unfold nothing_cached, resources_of, has_read_buffer in *.
  destruct (alloc_succeeds hos (trace st0) GAMECARD_READ_BUFFER_SIZE).
  2:{ cbn [fst snd]. st_simpl. rewrite ?Hbuf.
      repeat split; try apply Hn; auto; try lia; try discriminate. }
  repeat match goal with
         | |- context [if R_FAILED ?rc then _ else _] =>
             destruct (R_FAILED rc)
         | |- context [if negb ?b then _ else _] =>
             destruct b; cbn [negb]
         end; cbn [fst snd]; st_simpl;
    (repeat split; try apply Hn; auto; try lia; try discriminate).
Qed.

(** X11.  A whole session gives back what it took.  Let
    [gamecardInitialize] run on an interface that is not initialised; when
    it succeeds let the detection thread start and turns of the thread,
    reads and accessor calls follow, one at a time; then let [gamecardExit]
    run.  Whatever the console answered, the interface is again not
    initialised: the five flags are false, the read buffer is freed,
    nothing is cached, no storage or handle is open, no card is recorded
    and the heap holds as many blocks as before.  After a successful
    initialisation the thread is stopped and joined and the kernel event,
    the event notifier and the device operator are closed, in that
    order. *)
Theorem whole_session_releases_everything :
  forall (hos : Platform) (st0 : GcState) (ops : list SessionOp),
    session_closed st0 ->
    session_closed (snd (whole_session hos st0 ops))
    /\ heap_live (snd (whole_session hos st0 ops)) = heap_live st0
    /\ (fst (gamecardInitialize hos st0) = true ->
        fst (whole_session hos st0 ops)
        = [EvExitEventSignal; EvThreadJoin; EvKernelEventClose;
           EvEventNotifierClose; EvDeviceOperatorClose]).
Proof.
  intros hos st0 ops Hclosed.
  pose proof (gamecardInitialize_from_closed hos st0 Hclosed) as Hinit.
  cbv zeta in Hinit. unfold whole_session.
  destruct (gamecardInitialize hos st0) as [ok st1]. cbn [fst snd] in *.
  destruct Hinit as (Hn1 & Hi1 & Hh1 & Hok & Hko).
  destruct ok.
  - pose proof (session_invariant_run_ops hos (heap_live st1) ops _
                  (session_invariant_start hos st1 Hn1)) as Hinv.
    fold (session_after hos st1 ops) in Hinv.
    pose proof (resources_of_session_after hos st1 ops) as Hres.
    rewrite (Hok eq_refl) in Hres.
    assert (Hb1 : has_read_buffer st1 = true)
      by (specialize (Hok eq_refl); unfold resources_of in Hok;
          injection Hok as _ _ _ _ _ Hb; exact Hb).
    rewrite Hb1 in Hh1.
    destruct Hinv as (_ & Hheap & _).
    remember (snd (session_after hos st1 ops)) as st eqn:Est. clear Est.
    unfold resources_of in Hres. injection Hres as R1 R2 R3 R4 R5 R6.
    pose proof (gamecardExit_spec st) as (E1 & E2 & E3 & _).
    rewrite R5, R6 in E2. destruct (E3 R5) as (E4 & E5).
    split; [split; [exact E1 | split; [exact E5 | exact E4]]|].
    split.
    + rewrite E2. lia.
    + intros _. rewrite gamecardExit_events, R2, R3, R4, R5. reflexivity.
  - pose proof (gamecardExit_spec st1) as (E1 & E2 & _ & E3).
    specialize (Hko eq_refl). rewrite Hko in E2.
    destruct (E3 Hko) as (E4 & E5).
    split; [split; [exact E1 | split; [congruence | exact (E4 Hn1)]]|].
    split; [lia | discriminate].
Qed.

(** The demo console, from the state of a freshly loaded program. *)
Lemma whole_session_releases_everything_witness :
  session_closed
    (snd (whole_session demo_platform initial_state
            [OpRead zeroed (Some 0) 0x402 0xFFFFFF; OpThreadTurn]))
  /\ heap_live
       (snd (whole_session demo_platform initial_state
               [OpRead zeroed (Some 0) 0x402 0xFFFFFF; OpThreadTurn]))
     = heap_live initial_state
  /\ (fst (gamecardInitialize demo_platform initial_state) = true ->
      fst (whole_session demo_platform initial_state
             [OpRead zeroed (Some 0) 0x402 0xFFFFFF; OpThreadTurn])
      = [EvExitEventSignal; EvThreadJoin; EvKernelEventClose;
         EvEventNotifierClose; EvDeviceOperatorClose]).
Proof.
  apply (whole_session_releases_everything demo_platform initial_state).
  repeat split; reflexivity.
Defined.

(** ** gamecardGetHashFileSystemPartitionIndexByType *)

Lemma forallb_map_S :
  forall (f : nat -> bool) l,
    forallb f (map S l) = forallb (fun k => f (S k)) l.
Proof.
  intros f l. induction l as [|a l IH]; simpl; [reflexivity|].
  rewrite IH. reflexivity.
Qed.

(** [strcasecmp] against a string without a zero byte is zero exactly when
    the bytes compared start with the string, letter case ignored, and end
    where it ends. *)
Lemma strcasecmp_exact :
  forall name h p,
    (forall k, (k < List.length name)%nat -> char_at name k <> 0) ->
    (strcasecmp h p name =? 0)
    = prefix_of tolower name h p
      && (byte_at h (p + Z.of_nat (List.length name)) =? 0).
Proof.
  unfold prefix_of.
  induction name as [|c name IH]; intros h p Hnz.
  - cbn [strcasecmp List.length seq forallb andb].
    replace (p + Z.of_nat 0) with p by (simpl; lia).
    destruct (Z.eqb_spec (byte_at h p) 0) as [-> | Hne].
    + reflexivity.
    + apply Z.eqb_neq. intros H. apply tolower_zero in H. contradiction.
  - cbn [strcasecmp List.length]. cbn [seq forallb].
    assert (Hc : c mod 256 <> 0) by (apply (Hnz 0%nat); simpl; lia).
    replace (p + Z.of_nat 0) with p by (simpl; lia).
    change (char_at (c :: name) 0) with (c mod 256).
    destruct (tolower (byte_at h p) =? tolower (c mod 256)) eqn:Heq.
    + destruct (tolower (c mod 256) =? 0) eqn:Hz.
      { apply Z.eqb_eq in Hz. apply tolower_zero in Hz. contradiction. }
      cbn [andb]. rewrite IH.
      2:{ intros k Hk. apply (Hnz (S k)). simpl. lia. }
      rewrite <- seq_shift, forallb_map_S.
      replace (p + 1 + Z.of_nat (List.length name))
        with (p + Z.of_nat (S (List.length name))) by lia.
      f_equal. apply forallb_agree. intros k _.
      replace (p + 1 + Z.of_nat k) with (p + Z.of_nat (S k)) by lia.
      reflexivity.
    + cbn [andb]. apply Z.eqb_neq in Heq. apply Z.eqb_neq. lia.
Qed.

Lemma GAMECARD_HFS_PARTITION_NAME_no_zero :
  forall x k,
    (k < List.length (GAMECARD_HFS_PARTITION_NAME x))%nat ->
    char_at (GAMECARD_HFS_PARTITION_NAME x) k <> 0.
Proof.
  intros x k. unfold GAMECARD_HFS_PARTITION_NAME.
  destruct (x =? _); [|destruct (x =? _); [|destruct (x =? _);
    [|destruct (x =? _)]]];
    cbn [bytes_of_string List.length]; intros Hk;
    do 8 (destruct k as [|k];
          [first [ vm_compute; intros Habs; discriminate Habs
                 | simpl in Hk; lia ]|]);
    simpl in Hk; lia.
Qed.

Lemma partition_index_loop_find_first :
  forall h x n i,
    0 <= i -> i + Z.of_nat n <= hfs_entry_count h ->
    partition_index_loop h (GAMECARD_HFS_PARTITION_NAME x) n i
    = find_first (ci_name_equal h (GAMECARD_HFS_PARTITION_NAME x)) n i.
Proof.
  intros h x n. induction n as [|n IH]; intros i Hi Hn; [reflexivity|].
  cbn [partition_index_loop find_first].
  rewrite entry_by_index_in_range by lia.
  unfold gamecardGetHashFileSystemEntryName, ci_name_equal.
  destruct (Z.eqb_spec (hfs_entry_count h) 0) as [Hz | Hz]; [lia|].
  cbn [orb].
  destruct (Z.geb_spec (hfs_entry_name_offset h (hfs_entry_at i))
              (hfs_name_table_size h)) as [Hge | Hlt].
  - destruct (Z.ltb_spec (hfs_entry_name_offset h (hfs_entry_at i))
                (hfs_name_table_size h)); [lia|].
    cbn [andb]. apply IH; lia.
  - destruct (Z.ltb_spec (hfs_entry_name_offset h (hfs_entry_at i))
                (hfs_name_table_size h)); [|lia].
    cbn [andb].
    rewrite strcasecmp_exact by apply GAMECARD_HFS_PARTITION_NAME_no_zero.
    unfold hfs_stored_name.
    destruct (prefix_of tolower _ h _ && _); [reflexivity|].
    apply IH; lia.
Qed.

(** X12.  [gamecardGetHashFileSystemPartitionIndexByType] (older revision)
    refuses a type above [GameCardHashFileSystemPartitionType_Secure] and a
    NULL output pointer.  Otherwise it returns the index of the first entry
    of the root header, in entry order, whose name lies in the name table
    and is the name of the partition type ("update", "logo", "normal" or
    "secure"), letter case ignored, and fails exactly when the root header
    has no such entry. *)
Theorem gamecardGetHashFileSystemPartitionIndexByType_first_named :
  forall (st : GcState) (type : Z) (root : Bytes),
    g_gameCardHfsRootHeader st = Some root ->
    (type > GameCardHashFileSystemPartitionType_Secure ->
     gamecardGetHashFileSystemPartitionIndexByType st type true = Some None)
    /\ gamecardGetHashFileSystemPartitionIndexByType st type false = Some None
    /\ (type <= GameCardHashFileSystemPartitionType_Secure ->
        (forall i,
            first_match
              (ci_name_equal root (GAMECARD_HFS_PARTITION_NAME type))
              (hfs_entry_count root) i <->
            gamecardGetHashFileSystemPartitionIndexByType st type true
            = Some (Some i))
        /\ (no_match
              (ci_name_equal root (GAMECARD_HFS_PARTITION_NAME type))
              (hfs_entry_count root) <->
            gamecardGetHashFileSystemPartitionIndexByType st type true
            = Some None)).
Proof.
  intros st type root Hroot.
  assert (0 <= hfs_entry_count root) as Hc
    by (unfold hfs_entry_count; pose proof (le32_range root 4); lia).
  unfold gamecardGetHashFileSystemPartitionIndexByType.
  split; [|split].
  - intros Hgt.
    replace (type >? GameCardHashFileSystemPartitionType_Secure) with true
      by (symmetry; rewrite Z.gtb_ltb; apply Z.ltb_lt; lia).
    reflexivity.
  - rewrite orb_true_r. reflexivity.
  - intros Hle.
    replace (type >? GameCardHashFileSystemPartitionType_Secure) with false
      by (symmetry; rewrite Z.gtb_ltb; apply Z.ltb_ge; lia).
    cbn [negb orb]. rewrite Hroot.
    rewrite partition_index_loop_find_first
      by (rewrite ?hfs_entry_count_nat; lia).
    split.
    + intros i. rewrite first_match_find_first by exact Hc.
      destruct (find_first _ _ 0); split; intros H;
        try discriminate; congruence.
    + rewrite no_match_find_first by exact Hc.
      destruct (find_first _ _ 0); split; intros H;
        try discriminate; reflexivity.
Qed.

(** On the demo card "secure" is the second entry of the root header. *)
Lemma gamecardGetHashFileSystemPartitionIndexByType_first_named_witness :
  gamecardGetHashFileSystemPartitionIndexByType ready_state
    GameCardHashFileSystemPartitionType_Secure true = Some (Some 1).
Proof.
  refine (proj1 (proj1 (proj2 (proj2
            (gamecardGetHashFileSystemPartitionIndexByType_first_named
               ready_state GameCardHashFileSystemPartitionType_Secure
               demo_root_bytes eq_refl)) _) 1) _).
  - apply Z.le_refl.
  - split; [vm_compute; split; [discriminate | reflexivity]|].
    split; [reflexivity|].
    intros j Hj. assert (j = 0) as -> by lia. reflexivity.
Defined.

(** ** The lookup by name and the cache *)

Lemma gamecardGetOffsetAndSize_cached :
  forall st type name out_offset out_size,
    info_cached st ->
    exists r,
      gamecardGetOffsetAndSizeFromHashFileSystemPartitionEntryByName
        st type name out_offset out_size = Some r.
Proof.
  intros st type name out_offset out_size (root & parts & Hr & Hp & Hc).
  unfold gamecardGetOffsetAndSizeFromHashFileSystemPartitionEntryByName.
  destruct name as [nm|]; [|eexists; reflexivity].
  destruct (negb (g_gameCardInserted st) || _ || _ || _);
    [eexists; reflexivity|].
  unfold gamecardGetHashFileSystemPartitionIndexByType.
  destruct ((type >? GameCardHashFileSystemPartitionType_Secure) || negb true);
    [eexists; reflexivity|].
  rewrite Hr.
  assert (0 <= hfs_entry_count root) as Hcount
    by (unfold hfs_entry_count; pose proof (le32_range root 4); lia).
  rewrite partition_index_loop_find_first
    by (rewrite ?hfs_entry_count_nat; lia).
  destruct (find_first _ _ 0) as [idx|] eqn:Hfind; [|eexists; reflexivity].
  apply find_first_Some in Hfind. destruct Hfind as (Hrange & _).
  rewrite hfs_entry_count_nat in Hrange.
  rewrite Hp. cbv zeta.
  destruct (Hc idx ltac:(lia)) as (_ & _ & _ & _ & Hh).
  destruct (pi_header (parts idx)) as [h|]; [|contradiction].
  destruct (entry_by_name_loop h nm (strlen nm) _ 0); eexists; reflexivity.
Qed.

(** X13.  In a session run one operation at a time, after the start of
    the detection thread on a session that caches nothing and any turns of
    the thread, reads and accessor calls,
    [gamecardGetOffsetAndSizeFromHashFileSystemPartitionEntryByName]
    (older revision) never reads through a NULL pointer, whatever its
    arguments: the root header, the partition table and the header of the
    partition it looks into are allocated whenever it gets to read them. *)
Theorem gamecardGetOffsetAndSize_reads_no_null_pointer :
  forall (hos : Platform) (st0 : GcState) (ops : list SessionOp)
         (type : Z) (name : option (list Z)) (out_offset out_size : bool),
    nothing_cached st0 ->
    exists r,
      gamecardGetOffsetAndSizeFromHashFileSystemPartitionEntryByName
        (snd (session_after hos st0 ops)) type name out_offset out_size
      = Some r.
Proof.
  intros hos st0 ops type name out_offset out_size Hn.
  pose proof (session_invariant_run_ops hos (heap_live st0) ops _
                (session_invariant_start hos st0 Hn)) as Hinv.
  fold (session_after hos st0 ops) in Hinv.
  destruct Hinv as (_ & _ & Hloaded & _).
  destruct (g_gameCardInfoLoaded (snd (session_after hos st0 ops))) eqn:Hl.
  - apply gamecardGetOffsetAndSize_cached. apply Hloaded. reflexivity.
  - unfold gamecardGetOffsetAndSizeFromHashFileSystemPartitionEntryByName.
    rewrite Hl. cbn [negb]. rewrite orb_true_r. cbn [orb].
    destruct name; eexists; reflexivity.
Qed.

(** The demo card after a read: the entry "test.tik" of the "secure"
    partition. *)
Lemma gamecardGetOffsetAndSize_reads_no_null_pointer_witness :
  exists r,
    gamecardGetOffsetAndSizeFromHashFileSystemPartitionEntryByName
      (snd (session_after demo_platform initialized_state
              [OpRead zeroed (Some 0) 0x402 0xFFFFFF]))
      GameCardHashFileSystemPartitionType_Secure
      (Some (bytes_of_string "test.tik")) true true
    = Some r.
Proof.
  apply (gamecardGetOffsetAndSize_reads_no_null_pointer demo_platform
           initialized_state).
  repeat split; reflexivity.
Defined.

(** ** Partition lookups of the newer revision *)

Lemma hfs_entry_count_nonneg : forall h, 0 <= hfs_entry_count h.
Proof.
  intros h. unfold hfs_entry_count. pose proof (le32_range h 4). lia.
Qed.

(** [gamecardGetHashFileSystemEntryIndexByName] returns the first entry,
    in entry order, at whose name offset the bytes start with the query. *)
Lemma gamecardGetHashFileSystemEntryIndexByName_find_first :
  forall h nm,
    strlen nm <> O ->
    gamecardGetHashFileSystemEntryIndexByName (Some h) (Some nm) true
    = match find_first (cs_name_match h (query nm))
              (Z.to_nat (hfs_entry_count h)) 0 with
      | Some i => (true, Some i)
      | None => (false, None)
      end.
Proof.
  intros h nm Hlen.
  pose proof (hfs_entry_count_nonneg h) as Hc.
  unfold gamecardGetHashFileSystemEntryIndexByName,
    gamecardGetHashFileSystemNameTable.
  destruct (Z.eqb_spec (hfs_entry_count h) 0) as [Hz | Hz].
  - rewrite Hz. reflexivity.
  - assert (Nat.eqb (strlen nm) 0 = false) as ->
      by (apply Nat.eqb_neq; exact Hlen).
    cbn [negb orb].
    rewrite entry_index_loop_find_first
      by (rewrite ?hfs_entry_count_nat; lia).
    reflexivity.
Qed.

Section NewerPartitionLookups.

Variables partition_type_root partition_type_secure : Z.
Variable partition_name : Z -> list Z.

Lemma gamecardGetHashFileSystemPartitionHeader_cached :
  forall st type out,
    info_cached st ->
    exists r, gamecardGetHashFileSystemPartitionHeader partition_type_root
                partition_type_secure partition_name st type out = Some r
              /\ g_gameCardHfsPartitions st <> None.
Proof.
  intros st type out (root & parts & Hr & Hp & Hc).
  unfold gamecardGetHashFileSystemPartitionHeader.
  rewrite Hp.
  destruct (type >? partition_type_secure);
    [eexists; split; [reflexivity | discriminate]|].
  destruct (negb (type =? partition_type_root));
    [|eexists; split; [reflexivity | discriminate]].
  destruct (gamecardGetHashFileSystemEntryIndexByName _ _ true)
    as [[|] [i|]]; eexists; split; try reflexivity; discriminate.
Qed.

Lemma entry_offset_and_size_cached :
  forall st type h pidx idx e oo os,
    g_gameCardHfsPartitions st <> None ->
    exists r,
      entry_offset_and_size partition_type_root st type h pidx idx e oo os
      = Some r.
Proof.
  intros st type h pidx idx e oo os Hp. unfold entry_offset_and_size.
  destruct (g_gameCardHfsPartitions st); [|contradiction].
  eexists; reflexivity.
Qed.

Lemma newer_lookups_cached :
  forall st type idx name out_offset out_size out_count,
    info_cached st ->
    (exists r,
        gamecardGetEntryCountFromHashFileSystemPartition
          partition_type_root partition_type_secure partition_name
          st type out_count = Some r)
    /\ (exists r,
           gamecardGetEntryInfoFromHashFileSystemPartitionByIndex
             partition_type_root partition_type_secure partition_name
             st type idx out_offset out_size = Some r)
    /\ (exists r,
           gamecardGetEntryInfoFromHashFileSystemPartitionByName
             partition_type_root partition_type_secure partition_name
             st type name out_offset out_size = Some r).
Proof.
  intros st type idx name oo os oc Hc.
  split; [|split].
  - unfold gamecardGetEntryCountFromHashFileSystemPartition.
    destruct (_ && _ && oc); [|eexists; reflexivity].
    destruct (gamecardGetHashFileSystemPartitionHeader_cached st type false Hc)
      as ([[h|] o] & -> & _); eexists; reflexivity.
  - unfold gamecardGetEntryInfoFromHashFileSystemPartitionByIndex.
    destruct (_ && _ && (oo || os)); [|eexists; reflexivity].
    destruct (gamecardGetHashFileSystemPartitionHeader_cached st type true Hc)
      as ([[h|] o] & -> & Hp); [|eexists; reflexivity].
    cbv zeta.
    destruct (gamecardGetHashFileSystemEntryByIndex (Some h) idx);
      [|eexists; reflexivity].
    apply entry_offset_and_size_cached. exact Hp.
  - unfold gamecardGetEntryInfoFromHashFileSystemPartitionByName.
    destruct (_ && _ && (oo || os)); [|eexists; reflexivity].
    destruct (gamecardGetHashFileSystemPartitionHeader_cached st type true Hc)
      as ([[h|] o] & -> & Hp); [|eexists; reflexivity].
    cbv zeta.
    destruct (gamecardGetHashFileSystemEntryIndexByName (Some h) name true)
      as [[|] [i|]]; try (eexists; reflexivity).
    destruct (gamecardGetHashFileSystemEntryByIndex (Some h) i);
      [|eexists; reflexivity].
    apply entry_offset_and_size_cached. exact Hp.
Qed.

(** X14.  With a card ready, an output pointer and a query that is not
    empty, [gamecardGetEntryInfoFromHashFileSystemPartitionByName] (newer
    revision) returns what
    [gamecardGetEntryInfoFromHashFileSystemPartitionByIndex] returns for
    the first entry of the partition header, in entry order, at whose name
    offset the bytes start with the query, and then it succeeds: the index
    found is always below the entry count, so its check of the entry never
    fails.  It fails exactly when no entry matches. *)
Theorem newer_lookup_by_name_is_lookup_by_index :
  forall (st : GcState) (type : Z) (nm : list Z) (out_offset out_size : bool)
         (h : Bytes) (out_idx : option Z),
    g_gameCardInserted st = true ->
    g_gameCardInfoLoaded st = true ->
    out_offset || out_size = true ->
    strlen nm <> O ->
    gamecardGetHashFileSystemPartitionHeader partition_type_root
      partition_type_secure partition_name st type true
    = Some (Some h, out_idx) ->
    (forall i,
        first_match (cs_name_match h (query nm)) (hfs_entry_count h) i ->
        gamecardGetEntryInfoFromHashFileSystemPartitionByName
          partition_type_root partition_type_secure partition_name
          st type (Some nm) out_offset out_size
        = gamecardGetEntryInfoFromHashFileSystemPartitionByIndex
            partition_type_root partition_type_secure partition_name
            st type i out_offset out_size
        /\ gamecardGetEntryInfoFromHashFileSystemPartitionByName
             partition_type_root partition_type_secure partition_name
             st type (Some nm) out_offset out_size
           <> Some (false, None, None))
    /\ (no_match (cs_name_match h (query nm)) (hfs_entry_count h) <->
        gamecardGetEntryInfoFromHashFileSystemPartitionByName
          partition_type_root partition_type_secure partition_name
          st type (Some nm) out_offset out_size
        = Some (false, None, None)).
Proof.
  intros st type nm oo os h o Hins Hload Hout Hlen Hh.
  pose proof (hfs_entry_count_nonneg h) as Hc.
  unfold gamecardGetEntryInfoFromHashFileSystemPartitionByName,
    gamecardGetEntryInfoFromHashFileSystemPartitionByIndex.
  rewrite Hins, Hload, Hout, Hh. cbn [andb]. cbv zeta.
  rewrite gamecardGetHashFileSystemEntryIndexByName_find_first by exact Hlen.
  split.
  - intros i Hi. pose proof Hi as (Hrange & _).
    apply first_match_find_first in Hi; [|exact Hc]. rewrite Hi.
    rewrite entry_by_index_in_range by lia.
    split; [reflexivity|].
    unfold entry_offset_and_size.
    destruct (g_gameCardHfsPartitions st); [discriminate|].
    destruct oo; discriminate.
  - rewrite no_match_find_first by exact Hc.
    destruct (find_first _ _ 0) as [i|] eqn:Hfind.
    + split; [discriminate|]. intros Hres. exfalso.
      apply find_first_Some in Hfind. destruct Hfind as (Hrange & _).
      rewrite hfs_entry_count_nat in Hrange.
      rewrite entry_by_index_in_range in Hres by lia.
      unfold entry_offset_and_size in Hres.
      destruct (g_gameCardHfsPartitions st); [discriminate|].
      destruct oo; discriminate.
    + split; reflexivity.
Qed.

(** X15.  While a card is ready, in a session run one operation at a
    time, the lookups of the newer revision on the root partition return
    the entry count of the root header and, for an index below it, the size
    the root header gives for the entry and as offset the one
    [gamecardLoadInfo] cached for the partition, which is the address of
    the root header plus its size plus the offset of the entry, as the code
    computes it for the entries of the other partitions; an index that is
    not below the entry count is refused. *)
Theorem newer_root_lookup_returns_cached_offset :
  forall (hos : Platform) (st0 : GcState) (ops : list SessionOp) (idx : Z),
    nothing_cached st0 ->
    partition_type_root <= partition_type_secure ->
    let st := snd (session_after hos st0 ops) in
    gamecardIsReady st = true ->
    exists root,
      g_gameCardHfsRootHeader st = Some root
      /\ gamecardGetEntryCountFromHashFileSystemPartition partition_type_root
           partition_type_secure partition_name st partition_type_root true
         = Some (true, Some (hfs_entry_count root))
      /\ (0 <= idx < hfs_entry_count root ->
          gamecardGetEntryInfoFromHashFileSystemPartitionByIndex
            partition_type_root partition_type_secure partition_name
            st partition_type_root idx true true
          = Some (true,
                  Some (u64 (u64 (header_partition_fs_header_address
                                    (g_gameCardHeader st)
                                  + header_partition_fs_header_size
                                      (g_gameCardHeader st))
                             + hfs_entry_offset root (hfs_entry_at idx))),
                  Some (hfs_entry_size root (hfs_entry_at idx))))
      /\ (hfs_entry_count root <= idx ->
          gamecardGetEntryInfoFromHashFileSystemPartitionByIndex
            partition_type_root partition_type_secure partition_name
            st partition_type_root idx true true
          = Some (false, None, None)).
Proof.
  intros hos st0 ops idx Hn Hle st Hready.
  pose proof (session_invariant_run_ops hos (heap_live st0) ops _
                (session_invariant_start hos st0 Hn)) as Hinv.
  fold (session_after hos st0 ops) in Hinv.
  destruct Hinv as (_ & _ & Hloaded & _). fold st in Hloaded.
  unfold gamecardIsReady in Hready.
  apply andb_true_iff in Hready. destruct Hready as (Hins & Hload).
  destruct (Hloaded Hload) as (_ & _ & root & parts & Hr & Hp & Hc).
  exists root. split; [exact Hr|].
  assert (Hhdr : forall out,
             gamecardGetHashFileSystemPartitionHeader partition_type_root
               partition_type_secure partition_name st partition_type_root out
             = Some (Some root, None)).
  { intros out. unfold gamecardGetHashFileSystemPartitionHeader.
    replace (partition_type_root >? partition_type_secure) with false
      by (symmetry; rewrite Z.gtb_ltb; apply Z.ltb_ge; lia).
    rewrite Z.eqb_refl. cbn [negb]. rewrite Hr. reflexivity. }
  unfold gamecardGetEntryCountFromHashFileSystemPartition,
    gamecardGetEntryInfoFromHashFileSystemPartitionByIndex.
  rewrite Hins, Hload, !Hhdr. cbn [andb orb]. cbv zeta.
  split; [reflexivity|]. split.
  - intros Hidx. rewrite entry_by_index_in_range by lia.
    unfold entry_offset_and_size. rewrite Hp, Z.eqb_refl.
    destruct (Hc idx Hidx) as (Hoff & _). rewrite Hoff. reflexivity.
  - intros Hidx. unfold gamecardGetHashFileSystemEntryByIndex.
    destruct (Z.geb_spec idx (hfs_entry_count root)); [reflexivity | lia].
Qed.

(** X16.  In a session run one operation at a time, after the start of
    the detection thread on a session that caches nothing and any turns of
    the thread, reads and accessor calls, the three lookups of the newer
    revision never read through a NULL pointer:
    [gamecardGetEntryCountFromHashFileSystemPartition] and
    [gamecardGetEntryInfoFromHashFileSystemPartitionByName] whatever their
    arguments, [gamecardGetEntryInfoFromHashFileSystemPartitionByIndex]
    called with a NULL [out_name], whatever its other arguments. *)
Theorem newer_lookups_read_no_null_pointer :
  forall (hos : Platform) (st0 : GcState) (ops : list SessionOp)
         (type idx : Z) (name : option (list Z))
         (out_offset out_size out_count : bool),
    nothing_cached st0 ->
    let st := snd (session_after hos st0 ops) in
    (exists r,
        gamecardGetEntryCountFromHashFileSystemPartition
          partition_type_root partition_type_secure partition_name
          st type out_count = Some r)
    /\ (exists r,
           gamecardGetEntryInfoFromHashFileSystemPartitionByIndex
             partition_type_root partition_type_secure partition_name
             st type idx out_offset out_size = Some r)
    /\ (exists r,
           gamecardGetEntryInfoFromHashFileSystemPartitionByName
             partition_type_root partition_type_secure partition_name
             st type name out_offset out_size = Some r).
Proof.
  intros hos st0 ops type idx name oo os oc Hn st.
  pose proof (session_invariant_run_ops hos (heap_live st0) ops _
                (session_invariant_start hos st0 Hn)) as Hinv.
  fold (session_after hos st0 ops) in Hinv.
  destruct Hinv as (_ & _ & Hloaded & _). fold st in Hloaded.
  destruct (g_gameCardInfoLoaded st) eqn:Hl.
  - apply newer_lookups_cached. apply Hloaded. reflexivity.
  - unfold gamecardGetEntryCountFromHashFileSystemPartition,
      gamecardGetEntryInfoFromHashFileSystemPartitionByIndex,
      gamecardGetEntryInfoFromHashFileSystemPartitionByName.
    rewrite Hl, andb_false_r. cbn [andb].
    repeat split; eexists; reflexivity.
Qed.

End NewerPartitionLookups.

(** On the demo card, "test" finds "test.tik", the second entry of the
    "secure" partition. *)
Lemma newer_lookup_by_name_is_lookup_by_index_witness :
  (forall i,
      first_match (cs_name_match demo_secure_bytes
                     (query (bytes_of_string "test")))
        (hfs_entry_count demo_secure_bytes) i ->
      gamecardGetEntryInfoFromHashFileSystemPartitionByName 0 4
        demo_partition_name ready_state 4 (Some (bytes_of_string "test"))
        true true
      = gamecardGetEntryInfoFromHashFileSystemPartitionByIndex 0 4
          demo_partition_name ready_state 4 i true true
      /\ gamecardGetEntryInfoFromHashFileSystemPartitionByName 0 4
           demo_partition_name ready_state 4 (Some (bytes_of_string "test"))
           true true
         <> Some (false, None, None))
  /\ (no_match (cs_name_match demo_secure_bytes
                  (query (bytes_of_string "test")))
        (hfs_entry_count demo_secure_bytes) <->
      gamecardGetEntryInfoFromHashFileSystemPartitionByName 0 4
        demo_partition_name ready_state 4 (Some (bytes_of_string "test"))
        true true
      = Some (false, None, None)).
Proof.
  apply (newer_lookup_by_name_is_lookup_by_index 0 4 demo_partition_name
           ready_state 4 (bytes_of_string "test") true true
           demo_secure_bytes (Some 1)).
  - reflexivity.
  - reflexivity.
  - reflexivity.
  - vm_compute. discriminate.
  - reflexivity.
Defined.

Lemma newer_root_lookup_returns_cached_offset_witness :
  let st := snd (session_after demo_platform initialized_state
                   [OpRead zeroed (Some 0) 0x402 0xFFFFFF]) in
  exists root,
    g_gameCardHfsRootHeader st = Some root
    /\ gamecardGetEntryCountFromHashFileSystemPartition 0 4
         demo_partition_name st 0 true
       = Some (true, Some (hfs_entry_count root))
    /\ (0 <= 1 < hfs_entry_count root ->
        gamecardGetEntryInfoFromHashFileSystemPartitionByIndex 0 4
          demo_partition_name st 0 1 true true
        = Some (true,
                Some (u64 (u64 (header_partition_fs_header_address
                                  (g_gameCardHeader st)
                                + header_partition_fs_header_size
                                    (g_gameCardHeader st))
                           + hfs_entry_offset root (hfs_entry_at 1))),
                Some (hfs_entry_size root (hfs_entry_at 1))))
    /\ (hfs_entry_count root <= 1 ->
        gamecardGetEntryInfoFromHashFileSystemPartitionByIndex 0 4
          demo_partition_name st 0 1 true true
        = Some (false, None, None)).
Proof.
  apply (newer_root_lookup_returns_cached_offset 0 4 demo_partition_name
           demo_platform initialized_state
           [OpRead zeroed (Some 0) 0x402 0xFFFFFF] 1).
  - repeat split; reflexivity.
  - lia.
  - vm_compute. reflexivity.
Defined.

(** The demo card after a read: the card is ready, the "secure"
    partition has two entries, and the lookups of its second entry by
    index and by the name "test" read the partition table and the header
    of the partition. *)
Lemma newer_lookups_read_no_null_pointer_witness :
  let st := snd (session_after demo_platform initialized_state
                   [OpRead zeroed (Some 0) 0x402 0xFFFFFF]) in
  (gamecardIsReady st = true
   /\ gamecardGetEntryCountFromHashFileSystemPartition 0 4
        demo_partition_name st 4 true = Some (true, Some 2)
   /\ gamecardGetEntryInfoFromHashFileSystemPartitionByIndex 0 4
        demo_partition_name st 4 1 true true
      = Some (true, Some 0x11600, Some 0x400)
   /\ gamecardGetEntryInfoFromHashFileSystemPartitionByName 0 4
        demo_partition_name st 4 (Some (bytes_of_string "test")) true true
      = Some (true, Some 0x11600, Some 0x400))
  /\ (exists r, gamecardGetEntryCountFromHashFileSystemPartition 0 4
                  demo_partition_name st 4 true = Some r)
  /\ (exists r, gamecardGetEntryInfoFromHashFileSystemPartitionByIndex 0 4
                  demo_partition_name st 4 1 true true = Some r)
  /\ (exists r, gamecardGetEntryInfoFromHashFileSystemPartitionByName 0 4
                  demo_partition_name st 4 (Some (bytes_of_string "test"))
                  true true = Some r).
Proof.
  split.
  - split; [vm_compute; reflexivity|].
    split; [vm_compute; reflexivity|].
    split; vm_compute; reflexivity.
  - apply (newer_lookups_read_no_null_pointer 0 4 demo_partition_name
             demo_platform initialized_state
             [OpRead zeroed (Some 0) 0x402 0xFFFFFF] 4 1
             (Some (bytes_of_string "test")) true true true).
    repeat split; reflexivity.
Defined.

(** ** Magic words *)

(** The byte-swapped little-endian load of four bytes is their big-endian
    value. *)
Lemma bswap32_le32 :
  forall b i,
    __builtin_bswap32 (le32 b i)
    = byte_at b i * 2 ^ 24 + byte_at b (i + 1) * 2 ^ 16
      + byte_at b (i + 2) * 2 ^ 8 + byte_at b (i + 3).
Proof.
  intros b i. unfold __builtin_bswap32, le32.
  pose proof (byte_at_range b i) as H0.
  pose proof (byte_at_range b (i + 1)) as H1.
  pose proof (byte_at_range b (i + 2)) as H2.
  pose proof (byte_at_range b (i + 3)) as H3.
  generalize dependent (byte_at b i). intros b0 H0.
  generalize dependent (byte_at b (i + 1)). intros b1 H1.
  generalize dependent (byte_at b (i + 2)). intros b2 H2.
  generalize dependent (byte_at b (i + 3)). intros b3 H3.
  change (2 ^ 8) with 256. change (2 ^ 16) with 65536.
  change (2 ^ 24) with 16777216.
  assert (E0 : (b0 + b1 * 256 + b2 * 65536 + b3 * 16777216) mod 256 = b0).
  { replace (b0 + b1 * 256 + b2 * 65536 + b3 * 16777216)
      with (b0 + (b1 + b2 * 256 + b3 * 65536) * 256) by lia.
    rewrite Z.mod_add by lia. apply Z.mod_small. lia. }
  assert (E1 : ((b0 + b1 * 256 + b2 * 65536 + b3 * 16777216) / 256) mod 256
               = b1).
  { replace (b0 + b1 * 256 + b2 * 65536 + b3 * 16777216)
      with (b0 + (b1 + (b2 + b3 * 256) * 256) * 256) by lia.
    rewrite Z.div_add by lia. rewrite (Z.div_small b0) by lia.
    rewrite Z.add_0_l, Z.mod_add by lia. apply Z.mod_small. lia. }
  assert (E2 : ((b0 + b1 * 256 + b2 * 65536 + b3 * 16777216) / 65536) mod 256
               = b2).
  { replace (b0 + b1 * 256 + b2 * 65536 + b3 * 16777216)
      with ((b0 + b1 * 256) + (b2 + b3 * 256) * 65536) by lia.
    rewrite Z.div_add by lia. rewrite (Z.div_small (b0 + b1 * 256)) by lia.
    rewrite Z.add_0_l, Z.mod_add by lia. apply Z.mod_small. lia. }
  assert (E3 : ((b0 + b1 * 256 + b2 * 65536 + b3 * 16777216) / 16777216)
                 mod 256 = b3).
  { replace (b0 + b1 * 256 + b2 * 65536 + b3 * 16777216)
      with ((b0 + b1 * 256 + b2 * 65536) + b3 * 16777216) by lia.
    rewrite Z.div_add by lia.
    rewrite (Z.div_small (b0 + b1 * 256 + b2 * 65536)) by lia.
    rewrite Z.add_0_l. apply Z.mod_small. lia. }
  rewrite E0, E1, E2, E3. reflexivity.
Qed.

(** A magic word passes its check exactly when the four bytes, in the order
    they have on the card, are the four characters. *)
Lemma magic_check_bytes :
  forall b i c0 c1 c2 c3,
    0 <= c0 < 256 -> 0 <= c1 < 256 -> 0 <= c2 < 256 -> 0 <= c3 < 256 ->
    __builtin_bswap32 (le32 b i)
    = c0 * 2 ^ 24 + c1 * 2 ^ 16 + c2 * 2 ^ 8 + c3 <->
    map (byte_at b) [i; i + 1; i + 2; i + 3] = [c0; c1; c2; c3].
Proof.
  intros b i c0 c1 c2 c3 H0 H1 H2 H3. rewrite bswap32_le32.
  cbn [map].
  pose proof (byte_at_range b i).
  pose proof (byte_at_range b (i + 1)).
  pose proof (byte_at_range b (i + 2)).
  pose proof (byte_at_range b (i + 3)).
  split.
  - intros E.
    assert (byte_at b i = c0 /\ byte_at b (i + 1) = c1
            /\ byte_at b (i + 2) = c2 /\ byte_at b (i + 3) = c3)
      as (-> & -> & -> & ->) by lia.
    reflexivity.
  - intros E. injection E as -> -> -> ->. reflexivity.
Qed.

(** X8.  A card whose information [gamecardLoadInfo] loads has a header
    whose bytes 0x100 to 0x103 are "HEAD" and a root header that starts
    with "HFS0", in the order the bytes have on the card; its capacity is
    one of the six known sizes; the root header has entries and a name
    table and fits in the size the card header declares for it. *)
Theorem gamecardLoadInfo_loads_only_a_well_formed_card :
  forall (hos : Platform) (st : GcState),
    nothing_cached st ->
    g_gameCardInfoLoaded (gamecardLoadInfo hos st) = true ->
    let st' := gamecardLoadInfo hos st in
    map (byte_at (g_gameCardHeader st')) [0x100; 0x101; 0x102; 0x103]
    = bytes_of_string "HEAD"
    /\ In (g_gameCardCapacity st')
          [GAMECARD_CAPACITY_1GiB; GAMECARD_CAPACITY_2GiB;
           GAMECARD_CAPACITY_4GiB; GAMECARD_CAPACITY_8GiB;
           GAMECARD_CAPACITY_16GiB; GAMECARD_CAPACITY_32GiB]
    /\ exists root,
         g_gameCardHfsRootHeader st' = Some root
         /\ map (byte_at root) [0; 1; 2; 3] = bytes_of_string "HFS0"
         /\ 0 < hfs_entry_count root
         /\ 0 < hfs_name_table_size root
         /\ sizeof_GameCardHashFileSystemHeader
            + hfs_entry_count root * sizeof_GameCardHashFileSystemEntry
            + hfs_name_table_size root
            <= header_partition_fs_header_size (g_gameCardHeader st').
Proof.
  intros hos st (Hl & Hr & Hp & _) Hloaded st'.
  destruct (gamecardLoadInfo_outcome hos st Hl Hr Hp) as (Hok & _).
  destruct (Hok Hloaded) as ((Hmagic & Hcap & Hnz & root & Hroot & Hhfs
                              & Hcount & Hnames & Hfits) & _).
  fold st' in Hmagic, Hcap, Hnz, Hroot, Hfits.
  split; [|split].
  - unfold header_magic in Hmagic.
    apply (magic_check_bytes _ 0x100 0x48 0x45 0x41 0x44); try lia.
    exact Hmagic.
  - rewrite Hcap in *. unfold gamecardGetCapacityFromRomSizeValue in *.
    cbn [In].
    repeat match goal with
           | |- context [if ?c then _ else _] => destruct c; [tauto|]
           end.
    contradiction.
  - exists root. split; [exact Hroot|]. split.
    + unfold hfs_magic in Hhfs.
      apply (magic_check_bytes _ 0 0x48 0x46 0x53 0x30); try lia.
      exact Hhfs.
    + pose proof (le32_range root 4). pose proof (le32_range root 8).
      unfold hfs_entry_count, hfs_name_table_size in *.
      repeat split; lia.
Qed.

Lemma gamecardLoadInfo_loads_only_a_well_formed_card_witness :
  let st' := gamecardLoadInfo demo_platform inserted_state in
  map (byte_at (g_gameCardHeader st')) [0x100; 0x101; 0x102; 0x103]
  = bytes_of_string "HEAD"
  /\ In (g_gameCardCapacity st')
        [GAMECARD_CAPACITY_1GiB; GAMECARD_CAPACITY_2GiB;
         GAMECARD_CAPACITY_4GiB; GAMECARD_CAPACITY_8GiB;
         GAMECARD_CAPACITY_16GiB; GAMECARD_CAPACITY_32GiB]
  /\ exists root,
       g_gameCardHfsRootHeader st' = Some root
       /\ map (byte_at root) [0; 1; 2; 3] = bytes_of_string "HFS0"
       /\ 0 < hfs_entry_count root
       /\ 0 < hfs_name_table_size root
       /\ sizeof_GameCardHashFileSystemHeader
          + hfs_entry_count root * sizeof_GameCardHashFileSystemEntry
          + hfs_name_table_size root
          <= header_partition_fs_header_size (g_gameCardHeader st').
Proof.
  apply (gamecardLoadInfo_loads_only_a_well_formed_card demo_platform
           inserted_state).
  - repeat split; reflexivity.
  - vm_compute. reflexivity.
Defined.

(** ** pfs.h: names by index *)

(** X17.  [pfsGetEntryNameByIndex] returns NULL exactly for an index that
    is not below the entry count (a NULL or empty context has no entry).
    For an entry of the header it returns the name table plus the
    [name_offset] of the entry whatever this offset is: where
    [pfsGetEntryName] returns a name for the entry the two agree, but for a
    [name_offset] outside the name table, which [pfsGetEntryName] refuses,
    the pointer returned lies past the end of the name table. *)
Theorem pfsGetEntryNameByIndex_does_not_check_the_name_offset :
  forall (ctx : option PartitionFileSystemContext) (idx : Z),
    (pfsGetEntryCount ctx <= idx ->
     pfsGetEntryByIndex ctx idx = None
     /\ pfsGetEntryNameByIndex ctx idx = None)
    /\ (forall c h,
          ctx = Some c -> pfs_header c = Some h -> pfs_header_size c <> 0 ->
          0 <= idx < pfs_entry_count h ->
          let fs_entry := sizeof_PartitionFileSystemHeader
                          + idx * sizeof_PartitionFileSystemEntry in
          let name_table := sizeof_PartitionFileSystemHeader
                            + pfs_entry_count h
                              * sizeof_PartitionFileSystemEntry in
          pfsGetEntryByIndex ctx idx = Some fs_entry
          /\ pfsGetEntryNameByIndex ctx idx
             = Some (name_table + pfs_name_offset_at h fs_entry)
          /\ (forall p,
                pfsGetEntryName ctx (Some (pfs_entry_at h fs_entry)) = Some p ->
                pfsGetEntryNameByIndex ctx idx = Some p)
          /\ (pfs_name_table_size h <= pfs_name_offset_at h fs_entry ->
              pfsGetEntryName ctx (Some (pfs_entry_at h fs_entry)) = None
              /\ exists p,
                   pfsGetEntryNameByIndex ctx idx = Some p
                   /\ name_table + pfs_name_table_size h <= p)).
Proof.
  intros ctx idx. split.
  - intros Hge. unfold pfsGetEntryNameByIndex, pfsGetEntryByIndex.
    destruct (Z.geb_spec idx (pfsGetEntryCount ctx)); [|lia].
    split; reflexivity.
  - intros c h -> Hh Hs Hidx fs_entry name_table.
    assert (Hcount : pfsGetEntryCount (Some c) = pfs_entry_count h).
    { unfold pfsGetEntryCount. rewrite Hh.
      destruct (Z.eqb_spec (pfs_header_size c) 0); [contradiction|].
      reflexivity. }
    assert (Hby : pfsGetEntryByIndex (Some c) idx = Some fs_entry).
    { unfold pfsGetEntryByIndex. rewrite Hcount.
      destruct (Z.geb_spec idx (pfs_entry_count h)); [lia | reflexivity]. }
    assert (Hnt : pfsGetNameTable (Some c) = Some name_table).
    { unfold pfsGetNameTable. rewrite Hcount.
      destruct (Z.eqb_spec (pfs_entry_count h) 0); [lia | reflexivity]. }
    assert (Hname : pfsGetEntryNameByIndex (Some c) idx
                    = Some (name_table + pfs_name_offset_at h fs_entry)).
    { unfold pfsGetEntryNameByIndex. rewrite Hby, Hnt, Hh. reflexivity. }
    split; [exact Hby|]. split; [exact Hname|]. split.
    + intros p Hp. rewrite Hname. rewrite <- Hp.
      unfold pfsGetEntryName in *. rewrite Hnt, Hh in *.
      cbn [pfs_entry_at pfs_entry_name_offset] in *.
      destruct (_ || _); [discriminate | reflexivity].
    + intros Hout. split.
      * unfold pfsGetEntryName. rewrite Hnt, Hh.
        cbn [pfs_entry_at pfs_entry_name_offset].
        destruct (Z.geb_spec (pfs_name_offset_at h fs_entry)
                    (pfs_name_table_size h)); [reflexivity | lia].
      * eexists. split; [exact Hname|]. lia.
Qed.

(** ** nca.h: hash data offsets *)

Lemma sha256_offsets_loop_spec :
  forall regions section_size n i,
    (i + n <= List.length regions)%nat ->
    0 <= section_size < 2 ^ 64 ->
    (forall r, In r regions ->
       0 <= region_offset r < 2 ^ 64 /\ 0 <= region_size r < 2 ^ 64) ->
    exists b,
      sha256_offsets_loop regions section_size n i = Some b
      /\ (b = true <->
          forall k r, (i <= k < i + n)%nat -> nth_error regions k = Some r ->
            region_offset r < section_size /\ region_size r <> 0
            /\ (region_offset r + region_size r <= section_size
                \/ 2 ^ 64 <= region_offset r + region_size r)).
Proof.
  intros regions s n. induction n as [|n IH]; intros i Hlen Hs Hr.
  - exists true. split; [reflexivity|]. split; [|reflexivity].
    intros _ k r Hk. lia.
  - cbn [sha256_offsets_loop].
    destruct (nth_error regions i) as [r|] eqn:Hnth.
    2:{ apply nth_error_None in Hnth. lia. }
    destruct (Hr r (nth_error_In _ _ Hnth)) as (Ho & Hz).
    destruct (IH (S i) ltac:(lia) Hs Hr) as (b & Hb & Hiff).
    assert (Hwrap : 2 ^ 64 <= region_offset r + region_size r ->
                    u64 (region_offset r + region_size r)
                    = region_offset r + region_size r - 2 ^ 64).
    { intros Hw. unfold u64. symmetry.
      apply (Z.mod_unique _ _ 1); [left; lia | lia]. }
    destruct ((region_offset r >=? s) || (region_size r =? 0)
              || (u64 (region_offset r + region_size r) >? s)) eqn:Hbad.
    + exists false. split; [reflexivity|]. split; [discriminate|].
      intros Hall. exfalso.
      destruct (Hall i r ltac:(lia) Hnth) as (H1 & H2 & H3).
      apply orb_true_iff in Hbad. destruct Hbad as [Hbad | Hbad].
      * apply orb_true_iff in Hbad. destruct Hbad as [Hbad | Hbad].
        -- apply Z.geb_le in Hbad. lia.
        -- apply Z.eqb_eq in Hbad. contradiction.
      * rewrite Z.gtb_ltb in Hbad. apply Z.ltb_lt in Hbad.
        destruct H3 as [H3 | H3].
        -- rewrite u64_small in Hbad by lia. lia.
        -- rewrite Hwrap in Hbad by exact H3. lia.
    + exists b. split; [exact Hb|]. rewrite Hiff.
      apply orb_false_iff in Hbad. destruct Hbad as (Hbad & H3).
      apply orb_false_iff in Hbad. destruct Hbad as (H1 & H2).
      rewrite Z.gtb_ltb in H3. apply Z.ltb_ge in H3.
      apply Z.eqb_neq in H2.
      assert (region_offset r < s) as H1'.
      { destruct (Z.geb_spec (region_offset r) s); [discriminate | lia]. }
      split.
      * intros Hall k r' Hk Hn.
        destruct (Nat.eq_dec k i) as [-> | Hne].
        -- rewrite Hnth in Hn. injection Hn as <-.
           split; [exact H1'|]. split; [exact H2|].
           destruct (Z.lt_ge_cases (region_offset r + region_size r) (2 ^ 64))
             as [Hlt | Hge]; [|right; lia].
           left. rewrite u64_small in H3 by lia. exact H3.
        -- apply (Hall k r'); [lia | exact Hn].
      * intros Hall k r' Hk Hn. apply (Hall k r'); [lia | exact Hn].
Qed.

(** X18.  [ncaValidateHierarchicalSha256Offsets] reads the array of
    regions only below its five elements, and accepts exactly when the
    section size and the hash block size are not zero, the region count
    is between 1 and 5, and each of the regions counted starts inside the
    section, is not empty, and has an end, offset plus size, that is
    within the section or is 2^64 or more: the end is compared after the
    64-bit sum has wrapped, so a region that starts inside the section and
    whose end overflows is accepted whatever its size. *)
Theorem ncaValidateHierarchicalSha256Offsets_accepts :
  forall (d : NcaHierarchicalSha256Data) (section_size : Z),
    Z.of_nat (List.length (hash_region d))
    = NCA_HIERARCHICAL_SHA256_MAX_REGION_COUNT ->
    0 <= section_size < 2 ^ 64 ->
    0 <= hash_region_count d ->
    (forall r, In r (hash_region d) ->
       0 <= region_offset r < 2 ^ 64 /\ 0 <= region_size r < 2 ^ 64) ->
    exists b,
      ncaValidateHierarchicalSha256Offsets (Some d) section_size = Some b
      /\ (b = true <->
          section_size <> 0 /\ hash_block_size d <> 0
          /\ 1 <= hash_region_count d
             <= NCA_HIERARCHICAL_SHA256_MAX_REGION_COUNT
          /\ forall k r,
               (k < Z.to_nat (hash_region_count d))%nat ->
               nth_error (hash_region d) k = Some r ->
               region_offset r < section_size /\ region_size r <> 0
               /\ (region_offset r + region_size r <= section_size
                   \/ 2 ^ 64 <= region_offset r + region_size r)).
Proof.
  intros d s Hlen Hs Hcount Hr.
  unfold ncaValidateHierarchicalSha256Offsets.
  unfold NCA_HIERARCHICAL_SHA256_MAX_REGION_COUNT in *.
  destruct (Z.eqb_spec s 0) as [Hs0 | Hs0];
    [exists false; split; [reflexivity|]; split; [discriminate | lia]|].
  destruct (Z.eqb_spec (hash_block_size d) 0) as [Hb0 | Hb0];
    [exists false; split; [reflexivity|]; split; [discriminate | lia]|].
  destruct (Z.eqb_spec (hash_region_count d) 0) as [Hc0 | Hc0];
    [exists false; split; [reflexivity|]; split; [discriminate | lia]|].
  cbn [orb].
  destruct (hash_region_count d >? 5) eqn:Hgt.
  - rewrite Z.gtb_ltb in Hgt. apply Z.ltb_lt in Hgt.
    exists false. split; [reflexivity|]. split; [discriminate | lia].
  - rewrite Z.gtb_ltb in Hgt. apply Z.ltb_ge in Hgt.
    destruct (sha256_offsets_loop_spec (hash_region d) s
                (Z.to_nat (hash_region_count d)) 0 ltac:(lia) Hs Hr)
      as (b & Hb & Hiff).
    exists b. split; [exact Hb|]. rewrite Hiff. split.
    + intros Hall. repeat split; try lia.
      all: intros; edestruct Hall as (H1 & H2 & H3); eauto; lia.
    + intros (_ & _ & _ & Hall) k r Hk Hn. apply (Hall k r); [lia | exact Hn].
Qed.

(** A region of 2^64 - 1 bytes at offset 1 of a section of two bytes is
    accepted. *)
Lemma ncaValidateHierarchicalSha256Offsets_accepts_witness :
  ncaValidateHierarchicalSha256Offsets (Some demo_sha256_data) 2 = Some true
  /\ exists b,
       ncaValidateHierarchicalSha256Offsets (Some demo_sha256_data) 2 = Some b
       /\ (b = true <->
           2 <> 0 /\ hash_block_size demo_sha256_data <> 0
           /\ 1 <= hash_region_count demo_sha256_data
              <= NCA_HIERARCHICAL_SHA256_MAX_REGION_COUNT
           /\ forall k r,
                (k < Z.to_nat (hash_region_count demo_sha256_data))%nat ->
                nth_error (hash_region demo_sha256_data) k = Some r ->
                region_offset r < 2 /\ region_size r <> 0
                /\ (region_offset r + region_size r <= 2
                    \/ 2 ^ 64 <= region_offset r + region_size r)).
Proof.
  split; [reflexivity|].
  apply (ncaValidateHierarchicalSha256Offsets_accepts demo_sha256_data 2).
  - reflexivity.
  - lia.
  - simpl; lia.
  - intros r Hin. simpl in Hin.
    repeat (destruct Hin as [<- | Hin]; [simpl; lia|]). contradiction.
Defined.

Lemma integrity_offsets_loop_spec :
  forall levels section_size n i,
    (i + n <= List.length levels)%nat ->
    0 <= section_size < 2 ^ 64 ->
    (forall l, In l levels ->
       0 <= level_offset l < 2 ^ 64 /\ 0 <= level_size l < 2 ^ 64) ->
    exists b,
      integrity_offsets_loop levels section_size n i = Some b
      /\ (b = true <->
          forall k l, (i <= k < i + n)%nat -> nth_error levels k = Some l ->
            level_offset l < section_size /\ level_size l <> 0
            /\ level_block_order l <> 0
            /\ (level_offset l + level_size l <= section_size
                \/ 2 ^ 64 <= level_offset l + level_size l)).
Proof.
  intros levels s n. induction n as [|n IH]; intros i Hlen Hs Hr.
  - exists true. split; [reflexivity|]. split; [|reflexivity].
    intros _ k r Hk. lia.
  - cbn [integrity_offsets_loop].
    destruct (nth_error levels i) as [l|] eqn:Hnth.
    2:{ apply nth_error_None in Hnth. lia. }
    destruct (Hr l (nth_error_In _ _ Hnth)) as (Ho & Hz).
    destruct (IH (S i) ltac:(lia) Hs Hr) as (b & Hb & Hiff).
    assert (Hwrap : 2 ^ 64 <= level_offset l + level_size l ->
                    u64 (level_offset l + level_size l)
                    = level_offset l + level_size l - 2 ^ 64).
    { intros Hw. unfold u64. symmetry.
      apply (Z.mod_unique _ _ 1); [left; lia | lia]. }
    destruct ((level_offset l >=? s) || (level_size l =? 0)
              || (level_block_order l =? 0)
              || (u64 (level_offset l + level_size l) >? s)) eqn:Hbad.
    + exists false. split; [reflexivity|]. split; [discriminate|].
      intros Hall. exfalso.
      destruct (Hall i l ltac:(lia) Hnth) as (H1 & H2 & H2' & H3).
      apply orb_true_iff in Hbad. destruct Hbad as [Hbad | Hbad].
      * apply orb_true_iff in Hbad. destruct Hbad as [Hbad | Hbad].
        -- apply orb_true_iff in Hbad. destruct Hbad as [Hbad | Hbad].
           ++ apply Z.geb_le in Hbad. lia.
           ++ apply Z.eqb_eq in Hbad. contradiction.
        -- apply Z.eqb_eq in Hbad. contradiction.
      * rewrite Z.gtb_ltb in Hbad. apply Z.ltb_lt in Hbad.
        destruct H3 as [H3 | H3].
        -- rewrite u64_small in Hbad by lia. lia.
        -- rewrite Hwrap in Hbad by exact H3. lia.
    + exists b. split; [exact Hb|]. rewrite Hiff.
      apply orb_false_iff in Hbad. destruct Hbad as (Hbad & H3).
      apply orb_false_iff in Hbad. destruct Hbad as (Hbad & H2').
      apply orb_false_iff in Hbad. destruct Hbad as (H1 & H2).
      rewrite Z.gtb_ltb in H3. apply Z.ltb_ge in H3.
      apply Z.eqb_neq in H2. apply Z.eqb_neq in H2'.
      assert (level_offset l < s) as H1'.
      { destruct (Z.geb_spec (level_offset l) s); [discriminate | lia]. }
      split.
      * intros Hall k l' Hk Hn.
        destruct (Nat.eq_dec k i) as [-> | Hne].
        -- rewrite Hnth in Hn. injection Hn as <-.
           split; [exact H1'|]. split; [exact H2|]. split; [exact H2'|].
           destruct (Z.lt_ge_cases (level_offset l + level_size l) (2 ^ 64))
             as [Hlt | Hge]; [|right; lia].
           left. rewrite u64_small in H3 by lia. exact H3.
        -- apply (Hall k l'); [lia | exact Hn].
      * intros Hall k l' Hk Hn. apply (Hall k l'); [lia | exact Hn].
Qed.

(** X19.  [ncaValidateHierarchicalIntegrityOffsets] reads the six elements
    of the array of levels and nothing past them, and accepts exactly when
    the section size is not zero, the four bytes of the magic word are
    "IVFC" in the order they have in memory, the master hash size is
    [SHA256_HASH_SIZE], the maximum level count is 7, and each of the six
    levels starts inside the section, is not empty, has a block order that
    is not zero, and has an end that is within the section or is 2^64 or
    more: as for the hash regions, a level whose end overflows 64 bits is
    accepted. *)
Theorem ncaValidateHierarchicalIntegrityOffsets_accepts :
  forall (SHA256_HASH_SIZE : Z) (m : NcaIntegrityMetaInfo) (section_size : Z),
    Z.of_nat (List.length (level_information m)) = NCA_IVFC_LEVEL_COUNT ->
    0 <= section_size < 2 ^ 64 ->
    (forall l, In l (level_information m) ->
       0 <= level_offset l < 2 ^ 64 /\ 0 <= level_size l < 2 ^ 64) ->
    exists b,
      ncaValidateHierarchicalIntegrityOffsets SHA256_HASH_SIZE (Some m)
        section_size = Some b
      /\ (b = true <->
          section_size <> 0
          /\ le32_bytes (ivfc_magic m) = bytes_of_string "IVFC"
          /\ master_hash_size m = SHA256_HASH_SIZE
          /\ max_level_count m = NCA_IVFC_MAX_LEVEL_COUNT
          /\ forall l, In l (level_information m) ->
               level_offset l < section_size /\ level_size l <> 0
               /\ level_block_order l <> 0
               /\ (level_offset l + level_size l <= section_size
                   \/ 2 ^ 64 <= level_offset l + level_size l)).
Proof.
  intros hash_size m s Hlen Hs Hr.
  unfold ncaValidateHierarchicalIntegrityOffsets.
  unfold NCA_IVFC_LEVEL_COUNT, NCA_IVFC_MAX_LEVEL_COUNT in *.
  assert (Hmagic : __builtin_bswap32 (ivfc_magic m) = NCA_IVFC_MAGIC <->
                   le32_bytes (ivfc_magic m) = bytes_of_string "IVFC").
  { unfold __builtin_bswap32, le32_bytes, NCA_IVFC_MAGIC.
    cbn [bytes_of_string N_of_ascii N_of_digits Z.of_N N.add N.mul].
    pose proof (Z.mod_pos_bound (ivfc_magic m) 256 ltac:(lia)) as B0.
    pose proof (Z.mod_pos_bound (ivfc_magic m / 2 ^ 8) 256 ltac:(lia)) as B1.
    pose proof (Z.mod_pos_bound (ivfc_magic m / 2 ^ 16) 256 ltac:(lia)) as B2.
    pose proof (Z.mod_pos_bound (ivfc_magic m / 2 ^ 24) 256 ltac:(lia)) as B3.
    revert B0 B1 B2 B3.
    generalize (ivfc_magic m mod 256) ((ivfc_magic m / 2 ^ 8) mod 256)
      ((ivfc_magic m / 2 ^ 16) mod 256) ((ivfc_magic m / 2 ^ 24) mod 256).
    intros b0 b1 b2 b3 B0 B1 B2 B3.
    split.
    - intros E.
      assert (b0 = 73 /\ b1 = 86 /\ b2 = 70 /\ b3 = 67)
        as (-> & -> & -> & ->) by lia.
      reflexivity.
    - intros E. injection E as -> -> -> ->. reflexivity. }
  destruct (Z.eqb_spec s 0) as [Hs0 | Hs0];
    [exists false; split; [reflexivity|]; split; [discriminate | tauto]|].
  destruct (Z.eqb_spec (__builtin_bswap32 (ivfc_magic m)) NCA_IVFC_MAGIC)
    as [Hm | Hm];
    [|exists false; split; [reflexivity|]; split; [discriminate | tauto]].
  destruct (Z.eqb_spec (master_hash_size m) hash_size) as [Hh | Hh];
    [|exists false; split; [reflexivity|]; split; [discriminate | tauto]].
  destruct (Z.eqb_spec (max_level_count m) 7) as [Hc | Hc];
    [|exists false; split; [reflexivity|]; split; [discriminate | tauto]].
  cbn [orb negb].
  destruct (integrity_offsets_loop_spec (level_information m) s
              (Z.to_nat (7 - 1)) 0 ltac:(lia) Hs Hr)
    as (b & Hb & Hiff).
  exists b. split; [exact Hb|]. rewrite Hiff. split.
  - intros Hall. split; [exact Hs0|]. split; [apply Hmagic; exact Hm|].
    split; [exact Hh|]. split; [exact Hc|].
    intros l Hin. apply In_nth_error in Hin. destruct Hin as (k & Hk).
    apply (Hall k l); [|exact Hk].
    assert (k < List.length (level_information m))%nat
      by (apply nth_error_Some; rewrite Hk; discriminate).
    lia.
  - intros (_ & _ & _ & _ & Hall) k l _ Hk.
    apply Hall. exact (nth_error_In _ _ Hk).
Qed.

(** Six levels of 0x4000 bytes each, the last of which has a size that
    makes its end 2^64, in a section of 0x18000 bytes. *)
Lemma ncaValidateHierarchicalIntegrityOffsets_accepts_witness :
  ncaValidateHierarchicalIntegrityOffsets 0x20 (Some demo_integrity_meta_info)
    0x18000 = Some true
  /\ exists b,
       ncaValidateHierarchicalIntegrityOffsets 0x20
         (Some demo_integrity_meta_info) 0x18000 = Some b
       /\ (b = true <->
           0x18000 <> 0
           /\ le32_bytes (ivfc_magic demo_integrity_meta_info)
              = bytes_of_string "IVFC"
           /\ master_hash_size demo_integrity_meta_info = 0x20
           /\ max_level_count demo_integrity_meta_info
              = NCA_IVFC_MAX_LEVEL_COUNT
           /\ forall l, In l (level_information demo_integrity_meta_info) ->
                level_offset l < 0x18000 /\ level_size l <> 0
                /\ level_block_order l <> 0
                /\ (level_offset l + level_size l <= 0x18000
                    \/ 2 ^ 64 <= level_offset l + level_size l)).
Proof.
  split; [reflexivity|].
  apply (ncaValidateHierarchicalIntegrityOffsets_accepts 0x20
           demo_integrity_meta_info 0x18000).
  - reflexivity.
  - lia.
  - intros l Hin. simpl in Hin.
    repeat (destruct Hin as [<- | Hin]; [simpl; lia|]). contradiction.
Defined.

(** ** util.h: round_up *)

Lemma round_up_padding :
  forall x y,
    0 <= x -> 0 < y ->
    0 <= (y - x mod y) mod y < y
    /\ (x + (y - x mod y) mod y) mod y = 0
    /\ (x mod y = 0 -> (y - x mod y) mod y = 0).
Proof.
  intros x y Hx Hy.
  pose proof (Z.mod_pos_bound x y Hy) as Hm.
  pose proof (Z.div_mod x y ltac:(lia)) as Hd.
  destruct (Z.eq_dec (x mod y) 0) as [E | E].
  - rewrite E, Z.sub_0_r, Z.mod_same by lia.
    split; [lia|]. split; [|reflexivity]. rewrite Z.add_0_r. exact E.
  - rewrite (Z.mod_small (y - x mod y) y) by lia.
    split; [lia|]. split; [|contradiction].
    replace (x + (y - x mod y)) with ((x / y + 1) * y) by lia.
    apply Z.mod_mul. lia.
Qed.

(** X20.  [round_up(x, y)] on 64-bit operands divides by zero exactly
    when [y] is zero.  Otherwise, when [x + (y - 1)] fits in 64 bits, it is
    the least multiple of [y] that is not below [x], and less than
    [x + y]; a multiple of [y] is returned unchanged; the result is below
    [x] exactly when [x] plus the padding overflows 64 bits.  For the media
    unit of 0x200 bytes it is [ALIGN_UP]. *)
Theorem round_up_least_multiple :
  forall x y : Z,
    0 <= x < 2 ^ 64 -> 0 <= y < 2 ^ 64 ->
    (y = 0 <-> round_up x y = None)
    /\ (forall r,
          round_up x y = Some r ->
          (x + (y - 1) < 2 ^ 64 ->
           r mod y = 0 /\ x <= r < x + y
           /\ forall m, m mod y = 0 -> x <= m -> r <= m)
          /\ (x mod y = 0 -> r = x)
          /\ (r < x <-> 2 ^ 64 <= x + (y - x mod y) mod y))
    /\ (x + (GAMECARD_MEDIA_UNIT_SIZE - 1) < 2 ^ 64 ->
        round_up x GAMECARD_MEDIA_UNIT_SIZE
        = Some (ALIGN_UP x GAMECARD_MEDIA_UNIT_SIZE)).
Proof.
  intros x y Hx Hy. unfold round_up. split; [|split].
  - destruct (Z.eqb_spec y 0); split; intros; try congruence; try lia.
  - intros r Hr.
    destruct (Z.eqb_spec y 0) as [Hy0 | Hy0]; [discriminate|].
    injection Hr as <-.
    pose proof (Z.mod_pos_bound x y ltac:(lia)) as Hm.
    rewrite (u64_small (y - x mod y)) by lia.
    destruct (round_up_padding x y ltac:(lia) ltac:(lia))
      as (Hpad & Hmul & Hzero).
    split; [|split].
    + intros Hfit. rewrite u64_small by lia.
      split; [exact Hmul|]. split; [lia|].
      intros m Hmy Hxm.
      (* a multiple of [y] strictly between two consecutive multiples *)
      destruct (Z.lt_ge_cases m (x + (y - x mod y) mod y)) as [Hlt | Hge];
        [|lia].
      exfalso.
      apply Z.mod_divide in Hmy; [|lia]. destruct Hmy as (a & ->).
      apply Z.mod_divide in Hmul; [|lia]. destruct Hmul as (b & Hb).
      rewrite Hb in Hlt. assert (a < b) by nia. 
      assert (a * y <= (b - 1) * y) by nia. lia.
    + intros Hz. rewrite (Hzero Hz), Z.add_0_r. apply u64_small. lia.
    + split.
      * intros Hlt.
        destruct (Z.lt_ge_cases (x + (y - x mod y) mod y) (2 ^ 64))
          as [Hfit | Hover]; [|exact Hover].
        rewrite u64_small in Hlt by lia. lia.
      * intros Hover.
        assert (u64 (x + (y - x mod y) mod y)
                = x + (y - x mod y) mod y - 2 ^ 64) as ->.
        { unfold u64. symmetry.
          apply (Z.mod_unique _ _ 1); [left; lia | lia]. }
        lia.
  - intros Hfit. unfold GAMECARD_MEDIA_UNIT_SIZE in *.
    change (0x200 =? 0) with false. cbv iota.
    rewrite ALIGN_UP_unit.
    pose proof (Z.mod_pos_bound x 512 ltac:(lia)) as Hm.
    rewrite (u64_small (512 - x mod 512)) by lia.
    rewrite (u64_small (x + 511)) by lia.
    destruct (round_up_padding x 512 ltac:(lia) ltac:(lia))
      as (Hpad & Hmul & _).
    rewrite u64_small by lia. f_equal.
    apply Z.mod_divide in Hmul; [|lia]. destruct Hmul as (b & Hb).
    rewrite Hb.
    assert ((x + 511) / 512 = b) as ->; [|reflexivity].
    symmetry. apply (Z.div_unique _ _ _ (x + 511 - b * 512)); lia.
Qed.

Lemma round_up_least_multiple_witness :
  round_up 0x201 GAMECARD_MEDIA_UNIT_SIZE
  = Some (ALIGN_UP 0x201 GAMECARD_MEDIA_UNIT_SIZE)
  /\ round_up 0x201 GAMECARD_MEDIA_UNIT_SIZE = Some 0x400.
Proof.
  split; [|reflexivity].
  refine (proj2 (proj2 (round_up_least_multiple 0x201 0x200 _ _)) _).
  - lia.
  - lia.
  - vm_compute. reflexivity.
Defined.

(** ** A gamecard event while the card stays in place *)

(** X21.  A turn of the detection thread taken when the card was already
    seen inserted frees the card information whether or not the card is
    still there: the test is [!prev_status && g_gameCardInserted], so a
    gamecard event that is no status change takes the branch of
    [gamecardFreeInfo].  After the turn nothing is cached, the blocks of
    the cache are freed, [gamecardIsReady] is false and every
    [gamecardRead] is refused; and as long as the following events find the
    card inserted, the information is not loaded again. *)
Theorem gamecard_event_with_the_card_in_place_unloads_it :
  forall (hos : Platform) (st : GcState) (obj : Bytes) (out : option Z)
         (read_size offset : Z) (n : nat),
    let r := gamecardDetectionThreadFunc_iteration hos true st in
    g_gameCardInserted (snd r) = fst r
    /\ nothing_cached (snd r)
    /\ heap_live (snd r) = heap_live st - held_blocks st
    /\ gamecardIsReady (snd r) = false
    /\ gamecardRead hos (snd r) obj out read_size offset = (false, snd r, obj)
    /\ ((forall k, (k < n)%nat ->
           fst (gamecardDetectionThreadFunc_iterations hos (S k) (fst r)
                  (snd r)) = true) ->
        fst r = true ->
        gamecardIsReady
          (snd (gamecardDetectionThreadFunc_iterations hos n (fst r) (snd r)))
        = false).
Proof.
  intros hos st obj out read_size offset n r.
  pose proof (gamecardDetectionThreadFunc_iteration_inserted hos st) as Hit.
  fold r in Hit.
  assert (Hfst : fst r = fst (gamecardIsInserted hos st)).
  { unfold r, gamecardDetectionThreadFunc_iteration.
    destruct (gamecardIsInserted hos st) as [inserted st1]. reflexivity. }
  destruct (gamecardIsInserted hos st) as [inserted st1] eqn:Hins.
  cbn [fst snd] in Hit, Hfst.
  assert (Hst1 : heap_live st1 = heap_live st /\ held_blocks st1 = held_blocks st).
  { unfold gamecardIsInserted in Hins.
    destruct (fsDeviceOperatorIsGameCardInserted hos (trace st)) as [rc ins].
    injection Hins as _ <-. split; reflexivity. }
  set (st2 := set_g_gameCardInserted inserted st1) in *.
  assert (Hst2 : heap_live st2 = heap_live st /\ held_blocks st2 = held_blocks st).
  { destruct Hst1 as (H1 & H2). subst st2. split; [exact H1 | exact H2]. }
  pose proof (gamecardFreeInfo_spec st2) as Hspec.
  pose proof (kept_of_gamecardFreeInfo st2) as Hkept.
  pose proof (gamecardFreeInfo_heap st2) as Hheap.
  rewrite <- Hit in Hspec, Hkept, Hheap.
  assert (Hnc : nothing_cached (snd r)).
  { eapply info_released_nothing_cached. exact Hspec. }
  assert (Hld : g_gameCardInfoLoaded (snd r) = false) by (apply Hnc).
  split.
  - rewrite (kept_of_inserted _ _ Hkept), Hfst. reflexivity.
  - split; [exact Hnc|]. split; [rewrite Hheap; lia|]. split.
    + unfold gamecardIsReady. rewrite Hld. apply andb_false_r.
    + split.
      * apply gamecardRead_without_sizes. apply Hnc.
      * intros Hseen Htrue. unfold gamecardIsReady.
        rewrite Htrue in *.
        rewrite (gamecardDetectionThreadFunc_iterations_inserted hos n (snd r)
                   Hld Hseen).
        apply andb_false_r.
Qed.

(** ** gamecardInitialize after a failed attempt *)

Lemma gamecardInitialize_not_initialised :
  forall hos st,
    g_gamecardInterfaceInit st = false ->
    let r := gamecardInitialize hos st in
    heap_live (snd r)
    = heap_live st + (if has_read_buffer (snd r) then 1 else 0)
    /\ held_blocks (snd r) = held_blocks st
    /\ (nothing_cached st -> nothing_cached (snd r))
    /\ g_gamecardInterfaceInit (snd r) = fst r
    /\ (fst r = false -> g_gameCardDetectionThreadCreated (snd r) = false
                         \/ g_gameCardDetectionThreadCreated st = true).
Proof.
  intros hos st Hinit. cbv zeta.
  unfold gamecardInitialize, calloc, gamecardCreateDetectionThread.
  rewrite Hinit.
  unfold nothing_cached, has_read_buffer, held_blocks.
  destruct (alloc_succeeds hos (trace st) GAMECARD_READ_BUFFER_SIZE).
  2:{ cbn [fst snd]. st_simpl.
      repeat split; try tauto; try lia; try assumption.
      destruct (g_gameCardDetectionThreadCreated st); auto. }
  repeat match goal with
         | |- context [if R_FAILED ?rc then _ else _] =>
             destruct (R_FAILED rc)
         | |- context [if negb ?b then _ else _] =>
             destruct b; cbn [negb]
         end; cbn [fst snd]; st_simpl;
    (repeat split; try tauto; try lia; try assumption;
     try (destruct (g_gameCardDetectionThreadCreated st); auto; fail)).
Qed.

(** X22.  A failed [gamecardInitialize] gives nothing back, and a second
    call does not either: when the first call on an interface that is not
    initialised fails after it has allocated the read buffer, and the
    second call gets a buffer too, the first buffer is overwritten without
    being freed.  The heap then holds two blocks, of which [gamecardExit]
    frees one: one read buffer is lost. *)
Theorem gamecardInitialize_retry_loses_the_read_buffer :
  forall (hos : Platform) (st0 : GcState),
    session_closed st0 ->
    let r1 := gamecardInitialize hos st0 in
    let r2 := gamecardInitialize hos (snd r1) in
    fst r1 = false ->
    has_read_buffer (snd r1) = true ->
    has_read_buffer (snd r2) = true ->
    heap_live (snd r1) = heap_live st0 + 1
    /\ heap_live (snd r2) = heap_live st0 + 2
    /\ resources_of (snd (gamecardExit (snd r2)))
       = (false, false, false, false, false, false)
    /\ heap_live (snd (gamecardExit (snd r2))) = heap_live st0 + 1.
Proof.
  intros hos st0 Hclosed r1 r2 Hfail Hbuf1 Hbuf2.
  pose proof Hclosed as (Hres & _ & _).
  assert (Hinit0 : g_gamecardInterfaceInit st0 = false)
    by (unfold resources_of in Hres; injection Hres as R1 _ _ _ _ _; exact R1).
  destruct (gamecardInitialize_from_closed hos st0 Hclosed)
    as (Hn1 & _ & Hheap1 & _ & _).
  fold r1 in Hn1, Hheap1. rewrite Hbuf1 in Hheap1.
  destruct (gamecardInitialize_not_initialised hos st0 Hinit0)
    as (_ & _ & _ & Hinit1 & _).
  fold r1 in Hinit1. rewrite Hfail in Hinit1.
  destruct (gamecardInitialize_not_initialised hos (snd r1) Hinit1)
    as (Hheap2 & Hheld2 & Hn2 & _ & _).
  fold r2 in Hheap2, Hheld2, Hn2. rewrite Hbuf2 in Hheap2.
  rewrite (nothing_cached_held_blocks _ Hn1) in Hheld2.
  destruct (gamecardExit_spec (snd r2)) as (Hres' & Hheap' & _).
  rewrite Hbuf2, Hheld2 in Hheap'.
  split; [exact Hheap1|]. split; [lia|]. split; [exact Hres'|].
  rewrite Hheap'. destruct (g_gameCardDetectionThreadCreated (snd r2)); lia.
Qed.

(** On [busy_platform] the first call fails at [fsOpenDeviceOperator] and
    the second succeeds. *)
Lemma gamecardInitialize_retry_loses_the_read_buffer_witness :
  let r1 := gamecardInitialize busy_platform initial_state in
  let r2 := gamecardInitialize busy_platform (snd r1) in
  heap_live (snd r1) = heap_live initial_state + 1
  /\ heap_live (snd r2) = heap_live initial_state + 2
  /\ resources_of (snd (gamecardExit (snd r2)))
     = (false, false, false, false, false, false)
  /\ heap_live (snd (gamecardExit (snd r2))) = heap_live initial_state + 1.
Proof.
  apply (gamecardInitialize_retry_loses_the_read_buffer busy_platform
           initial_state).
  - repeat split; reflexivity.
  - reflexivity.
  - reflexivity.
  - reflexivity.
Defined.
